(** * Inelastic housing growth: the OLG equilibrium solver of [src/model.ts]

    A shallow embedding of [simulate] (the productivity sampler, the
    per-household willingness-to-pay bisection, the auction clearing rule, the
    damped price-path iteration and the per-generation aggregation), followed
    by the properties of the specification that were checked against it.

    JavaScript's [number] is kept abstract: the program is written once over
    the interface [Number] (the arithmetic, the comparisons and the [Math]
    functions the source calls).  Theorems that only depend on the shape of
    the computation are proved for every instance of the interface.  Theorems
    that depend on the order and the arithmetic of numbers are proved on the
    instance [xreal]: the real numbers extended with [+Infinity], [-Infinity]
    and [NaN], with JavaScript's conventions for them and exact (unrounded)
    arithmetic.  The instance [Binary64.float64] is the arithmetic JavaScript
    runs: IEEE 754 doubles, with [Math.log], [Math.exp] and [Math.pow] as
    parameters; the program computes on it.

    A theorem on [xreal] is a theorem about the program evaluated in exact
    arithmetic.  Doubles round every operation, overflow to an infinity and
    underflow to zero, and [xreal] does none of this: a quotient, a sum or a
    product of finite numbers is the exact real.  The theorems that state an
    identity or a threshold of the arithmetic say so ("in exact arithmetic");
    the last part of the development records, on [Binary64.float64], the
    places where doubles give another result (the unit count, which is the
    floor of a rounded product, and the bisection, whose guess
    [(low + high) / 2] can overflow), and proves the owner count on doubles. *)

From Stdlib Require Import ZArith QArith Reals Lra Lia List String Bool Arith.
From Stdlib Require Import Sorting Permutation.
From Stdlib Require Floats Uint63.
From Stdlib Require Import Qreals.
Import ListNotations.

(** ** The numbers of the source *)

Class Number (num : Type) : Type := {
  (** a numeric literal of the source, or the value of an integral counter *)
  lit : Q -> num;
  (** the global [NaN] *)
  NaN : num;
  add : num -> num -> num;
  sub : num -> num -> num;
  mul : num -> num -> num;
  div : num -> num -> num;
  (** unary minus *)
  neg : num -> num;
  (** [a < b] and [a <= b]; [a > b] is [b < a] and [a >= b] is [b <= a] *)
  ltb : num -> num -> bool;
  leb : num -> num -> bool;
  Math_log : num -> num;
  Math_exp : num -> num;
  Math_sqrt : num -> num;
  Math_floor : num -> num;
  Math_abs : num -> num;
  Math_min : num -> num -> num;
  Math_max : num -> num -> num;
  (** [Math.pow(x, t)]: the source only ever passes a loop counter [t] as the
      exponent *)
  Math_pow : num -> nat -> num;
  (** the array index a number denotes ([Some n] when it is the non-negative
      integer [n]), as used by [a[x]] *)
  toIndex : num -> option nat
}.

Declare Scope num_scope.
Delimit Scope num_scope with num.
Notation "$ q" := (lit q%Q) (at level 1, q at level 0, format "$ q") : num_scope.
Infix "+" := add : num_scope.
Infix "-" := sub : num_scope.
Infix "*" := mul : num_scope.
Infix "/" := div : num_scope.
Notation "- x" := (neg x) : num_scope.
Infix "<?" := ltb : num_scope.
Infix "<=?" := leb : num_scope.
Notation "a >? b" := (ltb b a) (at level 70, only parsing) : num_scope.
Notation "a >=? b" := (leb b a) (at level 70, only parsing) : num_scope.

(** The horizon and the size of the cross-section: constants of the module. *)
Definition SIMULATION_STEPS : nat := 10.
Definition AGENTS_COUNT : nat := 1000.
Definition MAX_ITER : nat := 20.

(** The names of the reported generations. *)
Definition generations : list string :=
  ["Boomers"%string; "Millennials"%string; "Gen Alpha"%string].

(** [a[i] = v] on an array, for an index inside it (the source never writes
    outside: every array written by index has its full length from the
    start). *)
Fixpoint set_nth {A : Type} (i : nat) (v : A) (l : list A) : list A :=
  match l, i with
  | [], _ => []
  | _ :: r, O => v :: r
  | x :: r, S j => x :: set_nth j v r
  end.

Section Model.

Context {num : Type} {N : Number num}.
Local Open Scope num_scope.

(** A counter ([i], [t], a length) used as a number. *)
Definition ofNat (n : nat) : num := lit (inject_Z (Z.of_nat n)).

(** [a[x]] for a number [x].  An absent element is [undefined]; it is
    rendered as [NaN], which is what the arithmetic of the source makes of
    it.  (The source reads inside its arrays only: every index it computes is
    a rank of the cross-section.) *)
Definition readAt (a : list num) (x : num) : num :=
  match toIndex x with
  | Some n => nth n a NaN
  | None => NaN
  end.

(** [Array.prototype.sort(cmp)]: a stable sort that puts [x] before [e] when
    [cmp(x, e) < 0].  Written as the insertion of each element, in order,
    behind the elements that do not come after it.  When [cmp] orders the
    elements consistently (the keys sorted by the source are numbers, and
    their differences decide the order unless one of them is [NaN]) every
    stable sort returns this list. *)
Fixpoint insertBy {A : Type} (cmp : A -> A -> num) (x : A) (l : list A) : list A :=
  match l with
  | [] => [x]
  | e :: r => if cmp x e <? $0 then x :: e :: r else e :: insertBy cmp x r
  end.

Definition sortBy {A : Type} (cmp : A -> A -> num) (l : list A) : list A :=
  fold_left (fun acc x => insertBy cmp x acc) l [].

(** ** Parameters and results *)

Record ModelParams : Type := {
  popGrowthRate : num;
  techGrowthRate : num;
  housingGrowthRate : num;
  inequality : num;
  beta : num;
  initialTech : num;
  initialPop : num;
  initialHousing : num
}.

Record GenerationResult : Type := {
  name : string;
  time : num;
  ownershipRate : num;
  priceToIncome : num;
  avgLifetimeUtility : num;
  avgUtilityOwners : num;
  avgUtilityRenters : num;
  utilityP25 : num;
  utilityMedian : num;
  utilityP75 : num;
  avgConsumptionYoung : num;
  avgConsumptionOld : num;
  housePrice : num;
  population : num;
  housingStock : num;
  incomeMean : num
}.

(** The utility value of living in a house. *)
Definition ALPHA : num := $1.

(** ** ProductivitySampler: the inverse of the standard normal CDF *)

Definition probit (p : num) : num :=
  if (p <=? $0) || (p >=? $1) then $0 else
  let a1 := - $3.969683028665376e+01 in
  let a2 := $2.209460984245205e+02 in
  let a3 := - $2.759285104469687e+02 in
  let a4 := $1.383577518672690e+02 in
  let a5 := - $3.066479806614716e+01 in
  let a6 := $2.506628277459239e+00 in
  let b1 := - $5.447609879822406e+01 in
  let b2 := $1.615858368580409e+02 in
  let b3 := - $1.556989798598866e+02 in
  let b4 := $6.680131188771972e+01 in
  let b5 := - $1.328068155288572e+01 in
  let c1 := - $7.784894002430293e-03 in
  let c2 := - $3.223964580411365e-01 in
  let c3 := - $2.400758277161838e+00 in
  let c4 := - $2.549732539343734e+00 in
  let c5 := $4.374664141464968e+00 in
  let c6 := $2.938163982698783e+00 in
  let d1 := $7.784695709041462e-03 in
  let d2 := $3.224671290700398e-01 in
  let d3 := $2.445134137142996e+00 in
  let d4 := $3.754408661907416e+00 in
  let p_low := $0.02425 in
  let p_high := $1 - p_low in
  if p <? p_low then
    let q := Math_sqrt (- $2 * Math_log p) in
    (((((c1 * q + c2) * q + c3) * q + c4) * q + c5) * q + c6) /
    ((((d1 * q + d2) * q + d3) * q + d4) * q + $1)
  else if p <=? p_high then
    let q := p - $0.5 in
    let r := q * q in
    (((((a1 * r + a2) * r + a3) * r + a4) * r + a5) * r + a6) * q /
    (((((b1 * r + b2) * r + b3) * r + b4) * r + b5) * r + $1)
  else
    let q := Math_sqrt (- $2 * Math_log ($1 - p)) in
    - (((((c1 * q + c2) * q + c3) * q + c4) * q + c5) * q + c6) /
    ((((d1 * q + d2) * q + d3) * q + d4) * q + $1).

(** Step 1 of [simulate]: the deterministic quantile draws. *)
Definition productivities (params : ModelParams) : list num :=
  map (fun i =>
         let p := (ofNat i + $0.5) / ofNat AGENTS_COUNT in
         let z := probit p in
         Math_exp (inequality params * z))
      (seq 0 AGENTS_COUNT).

(** ** WTPSolver: the bisection written inline in both passes of [simulate] *)

(** The state of the bisection: [(low, high, wtp)]. *)
Definition bisectStep (beta_ P_next y u_rent : num) (st : num * num * num)
  : num * num * num :=
  let '(low, high, wtp) := st in
  let P_guess := (low + high) / $2 in
  let s_own := (beta_ * (y - P_guess) - P_next) / ($1 + beta_) in
  let s_own := if s_own <? $0 then $0 else s_own in
  if y - P_guess - s_own <=? $0 then (low, P_guess, wtp)
  else
    let u_own :=
      Math_log (y - P_guess - s_own) + beta_ * Math_log (s_own + P_next) + ALPHA in
    if u_own >? u_rent then (P_guess, high, P_guess) else (low, P_guess, wtp).

(** The renting baseline of a household of income [y]. *)
Definition rentUtility (beta_ y : num) : num :=
  let s_rent := (beta_ * y) / ($1 + beta_) in
  Math_log (y - s_rent) + beta_ * Math_log s_rent.

Definition bisect (beta_ P_next y : num) : num * num * num :=
  Nat.iter 15 (bisectStep beta_ P_next y (rentUtility beta_ y)) ($0, y, $0).

Definition wtpSolver (beta_ P_next y : num) : num :=
  snd (bisect beta_ P_next y).

(** ** The aggregates of a period *)

Definition N_t (params : ModelParams) (t : nat) : num :=
  initialPop params * Math_pow ($1 + popGrowthRate params) t.

Definition H_t (params : ModelParams) (t : nat) : num :=
  initialHousing params * Math_pow ($1 + housingGrowthRate params) t.

Definition A_t (params : ModelParams) (t : nat) : num :=
  initialTech params * Math_pow ($1 + techGrowthRate params) t.

(** ** MarketClearer *)

Definition supplyRatio (H N_ : num) : num := Math_min $1 (H / N_).

(** The units available to the cross-section; the aggregator computes the
    same number under the name [numOwners]. *)
Definition housesAvailable (H N_ : num) : num :=
  Math_floor (supplyRatio H N_ * ofNat AGENTS_COUNT).

(** The price proposed for a period from its WTPs, sorted descending. *)
Definition newPrice (wtps : list num) (housesAvailable_ : num) : num :=
  if housesAvailable_ >? $0 then
    let priceIndex := housesAvailable_ - $1 in
    let priceIndex :=
      if priceIndex >=? ofNat (List.length wtps) then ofNat (List.length wtps) - $1
      else priceIndex in
    readAt wtps priceIndex
  else $0.

(** The WTPs of the cross-section in period [t] against [P_next]. *)
Definition wtpsOf (params : ModelParams) (prods : list num) (t : nat) (P_next : num)
  : list num :=
  map (fun i => wtpSolver (beta params) P_next (A_t params t * nth i prods NaN))
      (seq 0 AGENTS_COUNT).

Definition proposedPrice (params : ModelParams) (prods : list num) (t : nat)
  (P_next : num) : num :=
  newPrice (sortBy (fun a b => b - a) (wtpsOf params prods t P_next))
           (housesAvailable (H_t params t) (N_t params t)).

(** ** PricePathSolver *)

(** The body of the loop over the non-terminal periods: the state is
    [(newPrices, maxDiff)], and [prices] is the path of the previous
    iteration. *)
Definition periodUpdate (params : ModelParams) (prods prices : list num)
  (st : list num * num) (t : nat) : list num * num :=
  let '(newPrices, maxDiff) := st in
  let P_next := nth (t + 1)%nat prices NaN in
  let newPrice_ := proposedPrice params prods t P_next in
  let newPrices := set_nth t ($0.5 * nth t prices NaN + $0.5 * newPrice_) newPrices in
  (newPrices,
   Math_max maxDiff (Math_abs (nth t newPrices NaN - nth t prices NaN))).

(** One outer iteration: the new path and the largest change. *)
Definition iteration (params : ModelParams) (prods prices : list num)
  : list num * num :=
  let newPrices := prices in
  let lastT := (SIMULATION_STEPS - 1)%nat in
  let newPrices :=
    set_nth lastT (nth (lastT - 1)%nat prices NaN * ($1 + techGrowthRate params))
            newPrices in
  fold_left (periodUpdate params prods prices) (seq 0 (SIMULATION_STEPS - 1)%nat)
            (newPrices, $0).

(** The loop over [iter], with its [break]. *)
Fixpoint solve (params : ModelParams) (prods : list num) (iters : nat)
  (prices : list num) : list num :=
  match iters with
  | O => prices
  | S n =>
      let '(newPrices, maxDiff) := iteration params prods prices in
      if maxDiff <? $0.01 then newPrices else solve params prods n newPrices
  end.

(** Step 2 of [simulate]: the array filled with 0, then with the seed. *)
Definition initialPrices (params : ModelParams) : list num :=
  fold_left
    (fun prices i => set_nth i (initialTech params * initialPop params * $0.1) prices)
    (seq 0 SIMULATION_STEPS) (repeat $0 SIMULATION_STEPS).

Definition equilibriumPrices (params : ModelParams) (prods : list num) : list num :=
  solve params prods MAX_ITER (initialPrices params).

(** ** OutcomeAggregator *)

Record Agent : Type := {
  agent_i : nat;
  agent_y : num;
  agent_wtp : num;
  agent_u_rent : num
}.

(** The agents of period [t], before they are ranked. *)
Definition agentsOf (params : ModelParams) (prods : list num) (t : nat) (P_next : num)
  : list Agent :=
  map (fun i =>
         let y := A_t params t * nth i prods NaN in
         {| agent_i := i; agent_y := y;
            agent_wtp := wtpSolver (beta params) P_next y;
            agent_u_rent := rentUtility (beta params) y |})
      (seq 0 AGENTS_COUNT).

(** The accumulators of the allocation loop. *)
Record Totals : Type := {
  totalUtility : num;
  totalUtilityOwners : num;
  totalUtilityRenters : num;
  totalConsYoung : num;
  totalConsOld : num;
  ownerCount : num;
  agentUtilities : list num
}.

Definition noTotals : Totals :=
  {| totalUtility := $0; totalUtilityOwners := $0; totalUtilityRenters := $0;
     totalConsYoung := $0; totalConsOld := $0; ownerCount := $0;
     agentUtilities := [] |}.

(** [agents[i]] for [i] past the end is [undefined]; the loop never reads
    there. *)
Definition noAgent : Agent :=
  {| agent_i := 0; agent_y := NaN; agent_wtp := NaN; agent_u_rent := NaN |}.

(** The body of the allocation loop for the agent ranked [i]. *)
Definition allocate (params : ModelParams) (agents : list Agent)
  (numOwners P_t P_next : num) (tot : Totals) (i : nat) : Totals :=
  let agent := nth i agents noAgent in
  let isOwner := ofNat i <? numOwners in
  if isOwner then
    let s := (beta params * (agent_y agent - P_t) - P_next) / ($1 + beta params) in
    let s := if s <? $0 then $0 else s in
    let c_young := agent_y agent - P_t - s in
    let c_old := s + P_next in
    let u := Math_log c_young + beta params * Math_log c_old + ALPHA in
    {| totalUtility := totalUtility tot + u;
       totalUtilityOwners := totalUtilityOwners tot + u;
       totalUtilityRenters := totalUtilityRenters tot;
       totalConsYoung := totalConsYoung tot + c_young;
       totalConsOld := totalConsOld tot + c_old;
       ownerCount := ownerCount tot + $1;
       agentUtilities := agentUtilities tot ++ [u] |}
  else
    let s := (beta params * agent_y agent) / ($1 + beta params) in
    let c_young := agent_y agent - s in
    let c_old := s in
    let u := agent_u_rent agent in
    {| totalUtility := totalUtility tot + u;
       totalUtilityOwners := totalUtilityOwners tot;
       totalUtilityRenters := totalUtilityRenters tot + u;
       totalConsYoung := totalConsYoung tot + c_young;
       totalConsOld := totalConsOld tot + c_old;
       ownerCount := ownerCount tot;
       agentUtilities := agentUtilities tot ++ [u] |}.

(** The ranked agents of period [t] at the solved prices. *)
Definition rankedAgents (params : ModelParams) (prods prices : list num) (t : nat)
  : list Agent :=
  sortBy (fun a b => agent_wtp b - agent_wtp a)
         (agentsOf params prods t (nth (t + 1)%nat prices NaN)).

Definition numOwnersOf (params : ModelParams) (t : nat) : num :=
  housesAvailable (H_t params t) (N_t params t).

(** The totals of period [t] after the allocation loop. *)
Definition allocation (params : ModelParams) (prods prices : list num) (t : nat)
  : Totals :=
  fold_left
    (allocate params (rankedAgents params prods prices t) (numOwnersOf params t)
              (nth t prices NaN) (nth (t + 1)%nat prices NaN))
    (seq 0 AGENTS_COUNT) noTotals.

(** [incomeSum], accumulated while the agents are created. *)
Definition incomeSumOf (params : ModelParams) (prods : list num) (t : nat) : num :=
  fold_left (fun incomeSum i => incomeSum + A_t params t * nth i prods NaN)
            (seq 0 AGENTS_COUNT) $0.

(** The record pushed for period [t]. *)
Definition generation (params : ModelParams) (prods prices : list num) (t : nat)
  : GenerationResult :=
  let P_t := nth t prices NaN in
  let incomeSum := incomeSumOf params prods t in
  let tot := allocation params prods prices t in
  let sorted := sortBy (fun a b => a - b) (agentUtilities tot) in
  let p25Index := Math_floor ($0.25 * ofNat AGENTS_COUNT) in
  let p50Index := Math_floor ($0.50 * ofNat AGENTS_COUNT) in
  let p75Index := Math_floor ($0.75 * ofNat AGENTS_COUNT) in
  {| name := nth t generations EmptyString;
     time := ofNat t;
     ownershipRate := ownerCount tot / ofNat AGENTS_COUNT;
     priceToIncome := P_t / (incomeSum / ofNat AGENTS_COUNT);
     avgLifetimeUtility := totalUtility tot / ofNat AGENTS_COUNT;
     avgUtilityOwners :=
       if ownerCount tot >? $0 then totalUtilityOwners tot / ownerCount tot
       else NaN;
     avgUtilityRenters :=
       if (ofNat AGENTS_COUNT - ownerCount tot) >? $0
       then totalUtilityRenters tot / (ofNat AGENTS_COUNT - ownerCount tot)
       else NaN;
     utilityP25 := readAt sorted p25Index;
     utilityMedian := readAt sorted p50Index;
     utilityP75 := readAt sorted p75Index;
     avgConsumptionYoung := totalConsYoung tot / ofNat AGENTS_COUNT;
     avgConsumptionOld := totalConsOld tot / ofNat AGENTS_COUNT;
     housePrice := P_t;
     population := N_t params t;
     housingStock := H_t params t;
     incomeMean := incomeSum / ofNat AGENTS_COUNT |}.

(** ** [simulate] *)

Definition simulate (params : ModelParams) : list GenerationResult :=
  let prods := productivities params in
  let prices := equilibriumPrices params prods in
  map (generation params prods prices) (seq 0 3).

(** ** The result record as the object a caller reads *)

Inductive value : Type :=
| VString (s : string)
| VNumber (x : num).

(** The own properties of a result, in the order of the object literal. *)
Definition properties (r : GenerationResult) : list (string * value) :=
  [ ("name"%string, VString (name r));
    ("time"%string, VNumber (time r));
    ("ownershipRate"%string, VNumber (ownershipRate r));
    ("priceToIncome"%string, VNumber (priceToIncome r));
    ("avgLifetimeUtility"%string, VNumber (avgLifetimeUtility r));
    ("avgUtilityOwners"%string, VNumber (avgUtilityOwners r));
    ("avgUtilityRenters"%string, VNumber (avgUtilityRenters r));
    ("utilityP25"%string, VNumber (utilityP25 r));
    ("utilityMedian"%string, VNumber (utilityMedian r));
    ("utilityP75"%string, VNumber (utilityP75 r));
    ("avgConsumptionYoung"%string, VNumber (avgConsumptionYoung r));
    ("avgConsumptionOld"%string, VNumber (avgConsumptionOld r));
    ("housePrice"%string, VNumber (housePrice r));
    ("population"%string, VNumber (population r));
    ("housingStock"%string, VNumber (housingStock r));
    ("incomeMean"%string, VNumber (incomeMean r)) ].

(** [r.key]: [None] is [undefined]. *)
Definition getProperty (r : GenerationResult) (key : string) : option value :=
  match find (fun kv => String.eqb (fst kv) key) (properties r) with
  | Some kv => Some (snd kv)
  | None => None
  end.

End Model.

Arguments ModelParams num : clear implicits.
Arguments GenerationResult num : clear implicits.
Arguments Agent num : clear implicits.
Arguments Totals num : clear implicits.
Arguments value num : clear implicits.

(** ** The instance on which order and arithmetic are reasoned about

    The reals with the three special values of a JavaScript number.  The
    arithmetic is exact: nothing is rounded, no finite result overflows to
    an infinity or underflows to zero.  A zero has no sign, so a division of
    a non-zero number by zero takes the sign of the dividend. *)

Inductive xreal : Type :=
| Fin (r : R)
| PInf
| NInf
| XNaN.

(** The sign of a real: [Lt] below zero, [Eq] at zero, [Gt] above. *)
Definition Rsign (r : R) : comparison :=
  match total_order_T r 0 with
  | inleft (left _) => Lt
  | inleft (right _) => Eq
  | inright _ => Gt
  end.

Definition Rltb (a b : R) : bool := if Rlt_dec a b then true else false.
Definition Rleb (a b : R) : bool := if Rle_dec a b then true else false.

(** An infinity (positive when [pos]) scaled by a factor of sign [c]. *)
Definition infTimes (pos : bool) (c : comparison) : xreal :=
  match c with
  | Eq => XNaN
  | Gt => if pos then PInf else NInf
  | Lt => if pos then NInf else PInf
  end.

Definition xneg (a : xreal) : xreal :=
  match a with
  | Fin r => Fin (- r)
  | PInf => NInf
  | NInf => PInf
  | XNaN => XNaN
  end.

Definition xadd (a b : xreal) : xreal :=
  match a, b with
  | XNaN, _ | _, XNaN => XNaN
  | Fin x, Fin y => Fin (x + y)
  | PInf, NInf | NInf, PInf => XNaN
  | PInf, _ | _, PInf => PInf
  | NInf, _ | _, NInf => NInf
  end.

Definition xsub (a b : xreal) : xreal := xadd a (xneg b).

Definition xmul (a b : xreal) : xreal :=
  match a, b with
  | XNaN, _ | _, XNaN => XNaN
  | Fin x, Fin y => Fin (x * y)
  | PInf, Fin y | Fin y, PInf => infTimes true (Rsign y)
  | NInf, Fin y | Fin y, NInf => infTimes false (Rsign y)
  | PInf, PInf | NInf, NInf => PInf
  | PInf, NInf | NInf, PInf => NInf
  end.

Definition xdiv (a b : xreal) : xreal :=
  match a, b with
  | XNaN, _ | _, XNaN => XNaN
  | Fin x, Fin y =>
      match Rsign y with
      | Eq => infTimes true (Rsign x)
      | _ => Fin (x / y)
      end
  | Fin _, PInf | Fin _, NInf => Fin 0
  | PInf, Fin y => match Rsign y with Lt => NInf | _ => PInf end
  | NInf, Fin y => match Rsign y with Lt => PInf | _ => NInf end
  | PInf, PInf | PInf, NInf | NInf, PInf | NInf, NInf => XNaN
  end.

Definition xltb (a b : xreal) : bool :=
  match a, b with
  | XNaN, _ | _, XNaN => false
  | Fin x, Fin y => Rltb x y
  | NInf, NInf | PInf, _ | _, NInf => false
  | NInf, _ | _, PInf => true
  end.

Definition xleb (a b : xreal) : bool :=
  match a, b with
  | XNaN, _ | _, XNaN => false
  | Fin x, Fin y => Rleb x y
  | NInf, _ | _, PInf => true
  | PInf, _ | _, NInf => false
  end.

Definition xlog (a : xreal) : xreal :=
  match a with
  | Fin r => match Rsign r with Gt => Fin (ln r) | Eq => NInf | Lt => XNaN end
  | PInf => PInf
  | NInf | XNaN => XNaN
  end.

Definition xexp (a : xreal) : xreal :=
  match a with
  | Fin r => Fin (exp r)
  | PInf => PInf
  | NInf => Fin 0
  | XNaN => XNaN
  end.

Definition xsqrt (a : xreal) : xreal :=
  match a with
  | Fin r => match Rsign r with Lt => XNaN | _ => Fin (sqrt r) end
  | PInf => PInf
  | NInf | XNaN => XNaN
  end.

Definition xfloor (a : xreal) : xreal :=
  match a with
  | Fin r => Fin (IZR (Zfloor r))
  | _ => a
  end.

Definition xabs (a : xreal) : xreal :=
  match a with
  | Fin r => Fin (Rabs r)
  | PInf | NInf => PInf
  | XNaN => XNaN
  end.

Definition xmin (a b : xreal) : xreal :=
  match a, b with
  | XNaN, _ | _, XNaN => XNaN
  | Fin x, Fin y => Fin (Rmin x y)
  | NInf, _ | _, NInf => NInf
  | PInf, c | c, PInf => c
  end.

Definition xmax (a b : xreal) : xreal :=
  match a, b with
  | XNaN, _ | _, XNaN => XNaN
  | Fin x, Fin y => Fin (Rmax x y)
  | PInf, _ | _, PInf => PInf
  | NInf, c | c, NInf => c
  end.

(** [Math.pow(x, 0)] is 1 for every [x], [NaN] included. *)
Definition xpow (a : xreal) (n : nat) : xreal :=
  match n with
  | O => Fin 1
  | S _ =>
      match a with
      | Fin r => Fin (r ^ n)
      | PInf => PInf
      | NInf => if Nat.even n then PInf else NInf
      | XNaN => XNaN
      end
  end.

Definition xtoIndex (a : xreal) : option nat :=
  match a with
  | Fin r =>
      if Rle_dec 0 r then
        if Req_dec_T (IZR (Zfloor r)) r then Some (Z.to_nat (Zfloor r)) else None
      else None
  | _ => None
  end.

#[export] Instance xreal_number : Number xreal := {|
  lit := fun q => Fin (Q2R q);
  NaN := XNaN;
  add := xadd;
  sub := xsub;
  mul := xmul;
  div := xdiv;
  neg := xneg;
  ltb := xltb;
  leb := xleb;
  Math_log := xlog;
  Math_exp := xexp;
  Math_sqrt := xsqrt;
  Math_floor := xfloor;
  Math_abs := xabs;
  Math_min := xmin;
  Math_max := xmax;
  Math_pow := xpow;
  toIndex := xtoIndex
|}.

(** ** IEEE 754 binary64: the numbers JavaScript computes with *)

Module Binary64.

Import Stdlib.Floats.Floats.

(** An integer of magnitude below 2^63 as a double. *)
Definition floatOfZ (z : Z) : float :=
  match z with
  | Zneg p => PrimFloat.opp (PrimFloat.of_uint63 (Uint63.of_Z (Zpos p)))
  | _ => PrimFloat.of_uint63 (Uint63.of_Z z)
  end.

(** A decimal literal: the correctly rounded quotient of two doubles, the
    numerator and the denominator of the literal in lowest terms.  Both are
    doubles, and the quotient is the double nearest to the literal, when the
    numerator is below 2^53 and the denominator divides 10^22, as for every
    literal of the source. *)
Definition floatOfQ (q : Q) : float :=
  let r := Qred q in
  PrimFloat.div (floatOfZ (Qnum r)) (floatOfZ (Zpos (Qden r))).

Definition two52 : float := 4503599627370496%float.

(** [Math.floor]: below 2^52 in magnitude, adding and subtracting 2^52
    rounds to an integer, which is then corrected downwards; larger numbers,
    the infinities, [NaN] and the zeros are returned as they are. *)
Definition floatFloor (x : float) : float :=
  if PrimFloat.ltb (PrimFloat.abs x) two52 then
    if PrimFloat.eqb x 0%float then x
    else
      let r := if PrimFloat.ltb x 0%float
               then PrimFloat.add (PrimFloat.sub x two52) two52
               else PrimFloat.sub (PrimFloat.add x two52) two52 in
      if PrimFloat.leb r x then r else PrimFloat.sub r 1%float
  else x.

(** [Math.min] and [Math.max]: [NaN] if an argument is; [-0] is below [+0]. *)
Definition floatMin (a b : float) : float :=
  if PrimFloat.is_nan a || PrimFloat.is_nan b then PrimFloat.nan
  else if PrimFloat.ltb a b then a
  else if PrimFloat.ltb b a then b
  else if PrimFloat.get_sign a then a else b.

Definition floatMax (a b : float) : float :=
  if PrimFloat.is_nan a || PrimFloat.is_nan b then PrimFloat.nan
  else if PrimFloat.ltb a b then b
  else if PrimFloat.ltb b a then a
  else if PrimFloat.get_sign a then b else a.

(** The array index a double denotes: a non-negative integer below
    2^32 - 1. *)
Definition floatToIndex (x : float) : option nat :=
  match Prim2SF x with
  | S754_zero _ => Some 0%nat
  | S754_finite false m e =>
      let n := match e with
               | Zneg k => if (Zpos m mod 2 ^ Zpos k =? 0)%Z
                           then Some (Zpos m / 2 ^ Zpos k)%Z else None
               | _ => if (e <=? 32)%Z then Some (Zpos m * 2 ^ e)%Z else None
               end in
      match n with
      | Some z => if (z <? 4294967295)%Z then Some (Z.to_nat z) else None
      | None => None
      end
  | _ => None
  end.

(** [Math.log], [Math.exp] and [Math.pow] are implementation-approximated:
    they are parameters of the instance.  Only [Math.pow(x, 0)] is fixed: it
    is 1 for every [x]. *)
Definition float64 (log_ exp_ : float -> float) (pow_ : float -> float -> float)
  : Number float :=
  Build_Number float
    floatOfQ PrimFloat.nan
    PrimFloat.add PrimFloat.sub PrimFloat.mul PrimFloat.div PrimFloat.opp
    PrimFloat.ltb PrimFloat.leb
    log_ exp_ PrimFloat.sqrt floatFloor PrimFloat.abs floatMin floatMax
    (fun x n => match n with
                | O => 1%float
                | S _ => pow_ x (floatOfZ (Z.of_nat n))
                end)
    floatToIndex.

End Binary64.

(** ** Configurations used below *)

Section Configs.
Context {num : Type} {N : Number num}.
Local Open Scope num_scope.

(** The configuration the application starts from. *)
Definition DEFAULT_PARAMS : ModelParams num :=
  {| popGrowthRate := $0.25;
     techGrowthRate := $0.50;
     housingGrowthRate := $0.05;
     inequality := $0.4;
     beta := $0.3;
     initialTech := $2500000;
     initialPop := $1000;
     initialHousing := $1000 |}.

(** The same economy with no housing stock at all. *)
Definition noHousingParams : ModelParams num :=
  {| popGrowthRate := $0.25;
     techGrowthRate := $0.50;
     housingGrowthRate := $0.05;
     inequality := $0.4;
     beta := $0.3;
     initialTech := $2500000;
     initialPop := $1000;
     initialHousing := $0 |}.

(** The same economy with a negative housing stock: nothing in [simulate]
    rejects it. *)
Definition negativeHousingParams : ModelParams num :=
  {| popGrowthRate := $0.25;
     techGrowthRate := $0.50;
     housingGrowthRate := $0.05;
     inequality := $0.4;
     beta := $0.3;
     initialTech := $2500000;
     initialPop := $1000;
     initialHousing := - $1 |}.

(** One house for ten thousand households. *)
Definition scarceParams : ModelParams num :=
  {| popGrowthRate := $0.25;
     techGrowthRate := $0.50;
     housingGrowthRate := $0.05;
     inequality := $0.4;
     beta := $0.3;
     initialTech := $2500000;
     initialPop := $10000;
     initialHousing := $1 |}.

(** The property names the application reads from a result and the object
    literal of [simulate] does not define. *)
Definition readByApplication : list string :=
  ["housePriceNext"%string; "incomeP25"%string; "incomeMedian"%string;
   "incomeP75"%string; "incomeDistribution"%string].

End Configs.

(** ** Definitions used to state and prove the properties *)

Section ProofSideGeneric.

Context {num : Type} {N : Number num}.
Local Open Scope num_scope.

(** The value a pass gives to the non-terminal entry [t]. *)
Definition blend (params : ModelParams num) (prods prices : list num) (t : nat) : num :=
  $0.5 * nth t prices NaN
  + $0.5 * proposedPrice params prods t (nth (t + 1)%nat prices NaN).

(** The owner counter alone, over the same loop. *)
Definition countOwners (numOwners : num) (l : list nat) (c : num) : num :=
  fold_left (fun c i => if ofNat i <? numOwners then c + $1 else c) l c.

(** What a pass leaves of a price when the price proposed for its period
    is 0. *)
Definition halved (p : num) : num := $0.5 * p + $0.5 * $0.

(** Whether each of [n] successive halvings moves the price by 0.01 or
    more, so that the convergence test fails after each. *)
Fixpoint staysAbove (n : nat) (p : num) : bool :=
  match n with
  | O => true
  | S n => negb (Math_abs (halved p - p) <? $0.01) && staysAbove n (halved p)
  end.

(** The price every period starts from. *)
Definition seedPrice (params : ModelParams num) : num :=
  initialTech params * initialPop params * $0.1.

(** Whether the cross-section of period 0 is offered a unit at all. *)
Definition unitInFirstPeriod (params : ModelParams num) : bool :=
  housesAvailable (H_t params 0) (N_t params 0) >? $0.

End ProofSideGeneric.

(** Case analysis on the comparisons of integers and positives a goal or a
    hypothesis is built from. *)
Ltac cmp_cases :=
  repeat match goal with
         | b : bool |- _ => destruct b
         | H : context [Z.compare ?x ?y] |- _ =>
             destruct (Z.compare_spec x y); try discriminate
         | |- context [Z.compare ?x ?y] =>
             destruct (Z.compare_spec x y); try discriminate
         | H : context [Pos.compare_cont Eq ?x ?y] |- _ =>
             change (Pos.compare_cont Eq x y) with (Pos.compare x y) in H;
             destruct (Pos.compare_spec x y); try discriminate
         | |- context [Pos.compare_cont Eq ?x ?y] =>
             change (Pos.compare_cont Eq x y) with (Pos.compare x y);
             destruct (Pos.compare_spec x y); try discriminate
         end.

Local Open Scope R_scope.

(** The descending insertion sort of the source, read on finite values. *)
Fixpoint insertDesc (x : R) (l : list R) : list R :=
  match l with
  | [] => [x]
  | e :: r => if Rltb (e - x) 0 then x :: e :: r else e :: insertDesc x r
  end.

Definition sortDesc (l : list R) : list R :=
  fold_left (fun acc x => insertDesc x acc) l [].

(** The WTPs of a cross-section whose households all bid 1. *)
Definition unitBids : list xreal := repeat (Fin 1) AGENTS_COUNT.

(** The states the bisection can reach. *)
Definition inRange (y : R) (st : xreal * xreal * xreal) : Prop :=
  exists l h w, st = (Fin l, Fin h, Fin w)
                /\ 0 <= l <= y /\ 0 <= h <= y /\ 0 <= w <= y.

(** The savings of an owner who pays [P]: the clipped first-order condition. *)
Definition savings (b q y P : R) : R := Rmax 0 ((b * (y - P) - q) / (1 + b)).

Definition ownUtility (b q y P : R) : R :=
  ln (y - P - savings b q y P) + b * ln (savings b q y P + q) + 1.

Definition rentU (b y : R) : R :=
  ln (y - b * y / (1 + b)) + b * ln (b * y / (1 + b)).

(** The price [P] moves the lower end of the bracket up. *)
Definition accepts (b q y P : R) : Prop :=
  0 < y - P - savings b q y P /\ rentU b y < ownUtility b q y P.

(** What [n] halvings leave: the WTP is the lower end of a bracket of width
    [y / 2^n] that starts on the grid of that width; it is 0 or an accepted
    price, and the upper end is not accepted. *)
Definition bracketed (b q y : R) (n : nat) (st : xreal * xreal * xreal) : Prop :=
  exists (l h : R) (k : Z),
    st = (Fin l, Fin h, Fin l)
    /\ (0 <= k)%Z /\ l = y * IZR k / 2 ^ n /\ h - l = y / 2 ^ n
    /\ (l = 0 \/ accepts b q y l) /\ ~ accepts b q y h.

(** Fixed-point numbers with 64 fractional bits. *)
Definition fixedOne : Z := Eval vm_compute in (2 ^ 64)%Z.

(** [n] squarings, each rounded down. *)
Fixpoint squareDown (n : nat) (a : Z) : Z :=
  match n with
  | O => a
  | S n => squareDown n (a * a / fixedOne)
  end.

(** [n] squarings, each rounded up. *)
Fixpoint squareUp (n : nat) (a : Z) : Z :=
  match n with
  | O => a
  | S n => squareUp n ((a * a + fixedOne - 1) / fixedOne)
  end.

(** [exp (2^-24)] lies between [1 + 2^-24] and [1 / (1 - 2^-24)]. *)
Definition seedDown : Z := Eval vm_compute in (2 ^ 64 + 2 ^ 40)%Z.
Definition seedUp : Z := Eval vm_compute in (2 ^ 64 + 2 ^ 40 + 2 ^ 16 + 1)%Z.


(** ** [probit] read on the reals *)

(** The numerator and the denominator of the two tail branches, as functions
    of [q = sqrt (-2 ln p)]. *)
Definition tailNum (q : R) : R :=
  ((((- Q2R 7.784894002430293e-03 * q + - Q2R 3.223964580411365e-01) * q
     + - Q2R 2.400758277161838e+00) * q + - Q2R 2.549732539343734e+00) * q
   + Q2R 4.374664141464968e+00) * q + Q2R 2.938163982698783e+00.

Definition tailDen (q : R) : R :=
  (((Q2R 7.784695709041462e-03 * q + Q2R 3.224671290700398e-01) * q
    + Q2R 2.445134137142996e+00) * q + Q2R 3.754408661907416e+00) * q + 1.

(** The numerator and the denominator of the central branch, as functions of
    [q = p - 0.5]. *)
Definition centerNum (q : R) : R :=
  (((((- Q2R 3.969683028665376e+01 * (q * q) + Q2R 2.209460984245205e+02) * (q * q)
      + - Q2R 2.759285104469687e+02) * (q * q) + Q2R 1.383577518672690e+02) * (q * q)
    + - Q2R 3.066479806614716e+01) * (q * q) + Q2R 2.506628277459239e+00) * q.

Definition centerDen (q : R) : R :=
  ((((- Q2R 5.447609879822406e+01 * (q * q) + Q2R 1.615858368580409e+02) * (q * q)
     + - Q2R 1.556989798598866e+02) * (q * q) + Q2R 6.680131188771972e+01) * (q * q)
   + - Q2R 1.328068155288572e+01) * (q * q) + 1.

(** The denominator of the central branch on the rationals, and the
    argument [p - 0.5] of the household [i]. *)
Definition centerDenQ (q : Q) : Q :=
  (((((Qopp 5.447609879822406e+01 * (q * q) + 1.615858368580409e+02) * (q * q)
      + Qopp 1.556989798598866e+02) * (q * q) + 6.680131188771972e+01) * (q * q)
    + Qopp 1.328068155288572e+01) * (q * q) + 1)%Q.

Definition centredQuantileQ (i : nat) : Q :=
  ((inject_Z (Z.of_nat i) + 0.5) / inject_Z 1000 - 0.5)%Q.

(** Whether the central denominator is positive at each household of
    [l]. *)
Definition centerDenPositive (l : list nat) : bool :=
  forallb (fun i => negb (Qle_bool (centerDenQ (centredQuantileQ i)) 0)) l.

(** A number that is finite and positive. *)
Definition finitePositive (x : xreal) : Prop := exists r : R, x = Fin r /\ 0 < r.

(** The real a number stands for when it is finite. *)
Definition finitePart (x : xreal) : R :=
  match x with
  | Fin r => r
  | _ => 0
  end.

Section ProofSidePasses.

Context {num : Type} {N : Number num}.

(** The path after [k] passes of the solver, none of them stopped. *)
Definition pathAfter (params : ModelParams num) (prods : list num) (k : nat)
  (prices : list num) : list num :=
  Nat.iter k (fun p => fst (iteration params prods p)) prices.

End ProofSidePasses.

(** The ascending insertion sort of the source, read on finite values. *)
Fixpoint insertAsc (x : R) (l : list R) : list R :=
  match l with
  | [] => [x]
  | e :: r => if Rltb (x - e) 0 then x :: e :: r else e :: insertAsc x r
  end.

Definition sortAsc (l : list R) : list R :=
  fold_left (fun acc x => insertAsc x acc) l [].

(** The sum of a list of reals. *)
Definition total (l : list R) : R := fold_right Rplus 0 l.

(** The largest finite income of period [t], and 0 when there is none above
    0. *)
Definition largestIncome (params : ModelParams xreal) (prods : list xreal) (t : nat)
  : R :=
  fold_right Rmax 0
    (map (fun i => finitePart (A_t params t * nth i prods NaN)%num)
         (seq 0 AGENTS_COUNT)).

(** The settings the sliders of the application reach (App.tsx): each
    parameter is a number of its slider's range.  The two versions of the
    application differ in the range [lo .. hi] of [initialPop] and
    [initialHousing] only (1000 .. 50000 and 100 .. 5000). *)
Definition withinSliders (lo hi : R) (params : ModelParams xreal) : Prop :=
  exists gn g gh s b a0 n0 h0 : R,
    popGrowthRate params = Fin gn /\ techGrowthRate params = Fin g
    /\ housingGrowthRate params = Fin gh /\ inequality params = Fin s
    /\ beta params = Fin b /\ initialTech params = Fin a0
    /\ initialPop params = Fin n0 /\ initialHousing params = Fin h0
    /\ -1 / 5 <= gn <= 1 /\ 0 <= g <= 2 /\ -1 / 10 <= gh <= 1
    /\ 1 / 10 <= s <= 3 / 2 /\ 1 / 10 <= b <= 99 / 100
    /\ 1000000 <= a0 <= 20000000
    /\ lo <= n0 <= hi /\ lo <= h0 <= hi.

(** * Properties *)

(** ** Arrays *)

Lemma length_set_nth {A : Type} (i : nat) (v : A) (l : list A) :
  List.length (set_nth i v l) = List.length l.
Proof.
  revert i; induction l as [|x r IH]; intros [|j]; simpl; auto.
Qed.

Lemma nth_set_nth_eq {A : Type} (i : nat) (v d : A) (l : list A) :
  (i < List.length l)%nat -> nth i (set_nth i v l) d = v.
Proof.
  revert i; induction l as [|x r IH]; intros [|j] Hi; simpl in *;
    try lia; auto.
  apply IH; lia.
Qed.

Lemma nth_set_nth_neq {A : Type} (i j : nat) (v d : A) (l : list A) :
  i <> j -> nth j (set_nth i v l) d = nth j l d.
Proof.
  revert i j; induction l as [|x r IH]; intros [|i] [|j] Hij; simpl;
    try congruence; auto.
Qed.

Section Shape.

Context {num : Type} {N : Number num}.
Local Open Scope num_scope.

Lemma periodUpdate_fst params prods prices np md t :
  fst (periodUpdate params prods prices (np, md) t)
  = set_nth t (blend params prods prices t) np.
Proof. reflexivity. Qed.

Lemma fold_periodUpdate_length params prods prices ts : forall st,
  List.length (fst (fold_left (periodUpdate params prods prices) ts st))
  = List.length (fst st).
Proof.
  induction ts as [|t ts IH]; intros [np md]; simpl; auto.
  rewrite IH. simpl. apply length_set_nth.
Qed.

Lemma fold_periodUpdate_nth params prods prices ts : forall st t,
  (t < List.length (fst st))%nat ->
  nth t (fst (fold_left (periodUpdate params prods prices) ts st)) NaN
  = if in_dec Nat.eq_dec t ts then blend params prods prices t
    else nth t (fst st) NaN.
Proof.
  induction ts as [|t0 ts IH]; intros [np md] t Ht; simpl in *; auto.
  rewrite IH by (simpl; rewrite length_set_nth; exact Ht).
  simpl. destruct (in_dec Nat.eq_dec t ts) as [Hin|Hin].
  - destruct (Nat.eq_dec t0 t); reflexivity.
  - destruct (Nat.eq_dec t0 t) as [->|Hne].
    + apply nth_set_nth_eq; exact Ht.
    + apply nth_set_nth_neq; exact Hne.
Qed.

Lemma iteration_length params prods prices :
  List.length (fst (iteration params prods prices)) = List.length prices.
Proof.
  unfold iteration. rewrite fold_periodUpdate_length. cbn [fst].
  apply length_set_nth.
Qed.

Lemma iteration_nth params prods prices t :
  (t < SIMULATION_STEPS - 1)%nat -> (t < List.length prices)%nat ->
  nth t (fst (iteration params prods prices)) NaN = blend params prods prices t.
Proof.
  intros Ht Hl. unfold iteration.
  rewrite fold_periodUpdate_nth by (cbn [fst]; rewrite length_set_nth; exact Hl).
  destruct (in_dec Nat.eq_dec t (seq 0 (SIMULATION_STEPS - 1)%nat)) as [_|Hn];
    [reflexivity|].
  exfalso; apply Hn. apply in_seq. lia.
Qed.

Lemma iteration_last params prods prices :
  List.length prices = SIMULATION_STEPS ->
  nth (SIMULATION_STEPS - 1)%nat (fst (iteration params prods prices)) NaN
  = nth (SIMULATION_STEPS - 2)%nat prices NaN * ($1 + techGrowthRate params).
Proof.
  intros Hl. unfold iteration.
  rewrite fold_periodUpdate_nth
    by (cbn [fst]; rewrite length_set_nth, Hl; unfold SIMULATION_STEPS; lia).
  destruct (in_dec Nat.eq_dec (SIMULATION_STEPS - 1)%nat
                   (seq 0 (SIMULATION_STEPS - 1)%nat)) as [Hin|_].
  - apply in_seq in Hin. lia.
  - cbn [fst]. apply nth_set_nth_eq. rewrite Hl. unfold SIMULATION_STEPS. lia.
Qed.

Lemma solve_S params prods n prices :
  solve params prods (S n) prices
  = if snd (iteration params prods prices) <? $0.01
    then fst (iteration params prods prices)
    else solve params prods n (fst (iteration params prods prices)).
Proof.
  cbn [solve]. destruct (iteration params prods prices); reflexivity.
Qed.

Lemma solve_length params prods n : forall prices,
  List.length (solve params prods n prices) = List.length prices.
Proof.
  induction n as [|n IH]; intros prices; [reflexivity|].
  rewrite solve_S.
  destruct (snd (iteration params prods prices) <? $0.01);
    [|rewrite IH]; apply iteration_length.
Qed.

Lemma initialPrices_eq params :
  initialPrices params
  = repeat (initialTech params * initialPop params * $0.1) SIMULATION_STEPS.
Proof. reflexivity. Qed.

Lemma equilibriumPrices_length params prods :
  List.length (equilibriumPrices params prods) = SIMULATION_STEPS.
Proof.
  unfold equilibriumPrices. rewrite solve_length, initialPrices_eq.
  apply repeat_length.
Qed.

Lemma productivities_length params :
  List.length (productivities params) = AGENTS_COUNT.
Proof. unfold productivities. rewrite length_map, length_seq. reflexivity. Qed.

End Shape.

(** * Reading the operations of [xreal] on finite values *)

Lemma Rsign_pos r : 0 < r -> Rsign r = Gt.
Proof.
  intros H. unfold Rsign. destruct (total_order_T r 0) as [[H0|H0]|H0]; auto; lra.
Qed.

Lemma Rsign_neg r : r < 0 -> Rsign r = Lt.
Proof.
  intros H. unfold Rsign. destruct (total_order_T r 0) as [[H0|H0]|H0]; auto; lra.
Qed.

Lemma Rsign_zero : Rsign 0 = Eq.
Proof.
  unfold Rsign. destruct (total_order_T 0 0) as [[H0|H0]|H0]; auto; lra.
Qed.

Lemma Rltb_true a b : Rltb a b = true <-> a < b.
Proof. unfold Rltb. destruct (Rlt_dec a b); split; auto; discriminate. Qed.

Lemma Rltb_false a b : Rltb a b = false <-> b <= a.
Proof.
  unfold Rltb. destruct (Rlt_dec a b); split; auto; try discriminate; lra.
Qed.

Lemma Rleb_true a b : Rleb a b = true <-> a <= b.
Proof. unfold Rleb. destruct (Rle_dec a b); split; auto; discriminate. Qed.

Lemma Rleb_false a b : Rleb a b = false <-> b < a.
Proof.
  unfold Rleb. destruct (Rle_dec a b); split; auto; try discriminate; lra.
Qed.

Lemma Q2R_inject_Z z : Q2R (inject_Z z) = IZR z.
Proof. unfold Q2R, inject_Z. simpl. lra. Qed.

Lemma ofNat_Fin n : ofNat n = Fin (INR n).
Proof. unfold ofNat. simpl. now rewrite Q2R_inject_Z, INR_IZR_INZ. Qed.

Lemma lit_Z (z : Z) : lit (inject_Z z) = Fin (IZR z).
Proof. simpl. now rewrite Q2R_inject_Z. Qed.

Lemma lit_Fin (q : Q) : lit q = Fin (Q2R q).
Proof. reflexivity. Qed.

Lemma add_Fin a b : (Fin a + Fin b)%num = Fin (a + b).
Proof. reflexivity. Qed.

Lemma sub_Fin a b : (Fin a - Fin b)%num = Fin (a - b).
Proof. reflexivity. Qed.

Lemma mul_Fin a b : (Fin a * Fin b)%num = Fin (a * b).
Proof. reflexivity. Qed.

Lemma div_Fin a b : b <> 0 -> (Fin a / Fin b)%num = Fin (a / b).
Proof.
  intros Hb. cbn. unfold xdiv, Rsign.
  destruct (total_order_T b 0) as [[H0|H0]|H0]; auto; lra.
Qed.

Lemma ltb_Fin a b : (Fin a <? Fin b)%num = Rltb a b.
Proof. reflexivity. Qed.

Lemma leb_Fin a b : (Fin a <=? Fin b)%num = Rleb a b.
Proof. reflexivity. Qed.

Lemma Q2R_0 : Q2R 0 = 0.
Proof. unfold Q2R; simpl; lra. Qed.

Lemma Q2R_1 : Q2R 1 = 1.
Proof. unfold Q2R; simpl; lra. Qed.

Lemma Q2R_2 : Q2R 2 = 2.
Proof. unfold Q2R; simpl; lra. Qed.

Lemma toIndex_nat n : xtoIndex (Fin (INR n)) = Some n.
Proof.
  unfold xtoIndex. rewrite INR_IZR_INZ, ZfloorZ.
  destruct (Rle_dec 0 (IZR (Z.of_nat n))) as [_|Hn].
  - destruct (Req_dec_T (IZR (Z.of_nat n)) (IZR (Z.of_nat n))); [|congruence].
    now rewrite Nat2Z.id.
  - exfalso; apply Hn. apply IZR_le. lia.
Qed.

(** * The bisection stays inside [[0, y]] *)

Section Bisection.

Variables (beta_ P_next : xreal) (y : R).
Hypothesis y_pos : 0 < y.

Lemma bisectStep_inRange u_rent st :
  inRange y st -> inRange y (bisectStep beta_ P_next (Fin y) u_rent st).
Proof.
  intros (l & h & w & -> & Hl & Hh & Hw).
  assert (HP : ((Fin l + Fin h) / $2)%num = Fin ((l + h) / 2)).
  { rewrite add_Fin, lit_Fin, Q2R_2, div_Fin by lra. reflexivity. }
  unfold bisectStep. rewrite HP.
  assert (0 <= (l + h) / 2 <= y) by lra.
  repeat match goal with
         | |- context [if ?c then _ else _] => destruct c
         end;
    eexists _, _, _; (split; [reflexivity|]); lra.
Qed.

Lemma bisect_inRange : inRange y (bisect beta_ P_next (Fin y)).
Proof.
  unfold bisect. generalize 15%nat. intros n.
  induction n as [|n IH]; [|rewrite Nat.iter_succ].
  - exists 0, y, 0. repeat split; try lra.
    rewrite lit_Fin, Q2R_0. reflexivity.
  - apply bisectStep_inRange, IH.
Qed.

End Bisection.

(** * Sorting *)

Section SortShape.

Context {num : Type} {N : Number num} {A : Type}.
Variable cmp : A -> A -> num.

Lemma insertBy_perm x l : Permutation (x :: l) (insertBy cmp x l).
Proof.
  induction l as [|e r IH]; simpl; auto.
  destruct (cmp x e <? $0)%num; auto.
  rewrite perm_swap. constructor. exact IH.
Qed.

Lemma sortBy_perm_acc l : forall acc,
  Permutation (l ++ acc) (fold_left (fun acc x => insertBy cmp x acc) l acc).
Proof.
  induction l as [|x l IH]; intros acc; simpl; auto.
  rewrite <- IH. rewrite <- insertBy_perm. apply Permutation_middle.
Qed.

Lemma sortBy_perm l : Permutation l (sortBy cmp l).
Proof.
  unfold sortBy. rewrite <- sortBy_perm_acc. now rewrite app_nil_r.
Qed.

Lemma sortBy_length l : List.length (sortBy cmp l) = List.length l.
Proof. symmetry. apply Permutation_length, sortBy_perm. Qed.

End SortShape.

Lemma insertBy_Fin x l :
  insertBy (fun a b => (b - a)%num) (Fin x) (map Fin l) = map Fin (insertDesc x l).
Proof.
  induction l as [|e r IH]; simpl; auto.
  rewrite Q2R_0. destruct (Rltb (e + - x) 0) eqn:E.
  - unfold Rminus. rewrite E. reflexivity.
  - unfold Rminus. rewrite E. simpl. f_equal. exact IH.
Qed.

Lemma sortBy_Fin_acc l : forall acc,
  fold_left (fun acc x => insertBy (fun a b => (b - a)%num) x acc) (map Fin l) (map Fin acc)
  = map Fin (fold_left (fun acc x => insertDesc x acc) l acc).
Proof.
  induction l as [|x l IH]; intros acc; simpl; auto.
  rewrite insertBy_Fin. apply IH.
Qed.

Lemma sortBy_Fin l :
  sortBy (fun a b => (b - a)%num) (map Fin l) = map Fin (sortDesc l).
Proof. exact (sortBy_Fin_acc l []). Qed.

Lemma insertDesc_perm x l : Permutation (x :: l) (insertDesc x l).
Proof.
  induction l as [|e r IH]; simpl; auto.
  destruct (Rltb (e - x) 0); auto.
  rewrite perm_swap. constructor. exact IH.
Qed.

Lemma insertDesc_sorted x l :
  StronglySorted Rge l -> StronglySorted Rge (insertDesc x l).
Proof.
  induction 1 as [|e r Hs IH Hall]; simpl.
  - repeat constructor.
  - destruct (Rltb (e - x) 0) eqn:E.
    + apply Rltb_true in E. constructor; [constructor; assumption|].
      constructor; [lra|].
      eapply Forall_impl; [|exact Hall]. simpl. intros; lra.
    + apply Rltb_false in E. constructor; [exact IH|].
      rewrite <- insertDesc_perm. constructor; [lra | exact Hall].
Qed.

Lemma sortDesc_acc l : forall acc,
  StronglySorted Rge acc ->
  StronglySorted Rge (fold_left (fun acc x => insertDesc x acc) l acc)
  /\ Permutation (l ++ acc) (fold_left (fun acc x => insertDesc x acc) l acc).
Proof.
  induction l as [|x l IH]; intros acc Hacc; simpl; auto.
  destruct (IH (insertDesc x acc) (insertDesc_sorted x acc Hacc)) as [Hs Hp].
  split; [exact Hs|]. rewrite <- Hp, <- insertDesc_perm.
  apply Permutation_middle.
Qed.

Lemma sortDesc_sorted l : StronglySorted Rge (sortDesc l).
Proof. apply sortDesc_acc. constructor. Qed.

Lemma sortDesc_perm l : Permutation l (sortDesc l).
Proof.
  destruct (sortDesc_acc l [] (SSorted_nil _)) as [_ Hp].
  now rewrite app_nil_r in Hp.
Qed.

Lemma sortDesc_length l : List.length (sortDesc l) = List.length l.
Proof. symmetry. apply Permutation_length, sortDesc_perm. Qed.

(** In a descending list a later rank holds a smaller value. *)
Lemma sorted_nth_ge (l : list R) : StronglySorted Rge l ->
  forall i j, (i <= j < List.length l)%nat -> nth j l 0 <= nth i l 0.
Proof.
  induction 1 as [|e r Hs IH Hall]; intros i j Hij; simpl in *; [lia|].
  destruct i as [|i], j as [|j]; try lia; try lra.
  - rewrite Forall_forall in Hall.
    apply Rge_le, Hall, nth_In. lia.
  - apply IH. lia.
Qed.

(** * The clearing rule on finite values *)

Lemma INR_AGENTS_COUNT : INR AGENTS_COUNT = 1000.
Proof.
  unfold AGENTS_COUNT. rewrite INR_IZR_INZ.
  change (Z.of_nat 1000) with 1000%Z. reflexivity.
Qed.

Lemma housesAvailable_Fin H N_ : N_ <> 0 ->
  housesAvailable (Fin H) (Fin N_) = Fin (IZR (Zfloor (Rmin 1 (H / N_) * 1000))).
Proof.
  intros HN. unfold housesAvailable, supplyRatio.
  rewrite div_Fin, ofNat_Fin, lit_Fin, Q2R_1, INR_AGENTS_COUNT by exact HN.
  reflexivity.
Qed.

Lemma newPrice_Fin (s : list R) (k : Z) : s <> [] ->
  newPrice (map Fin s) (Fin (IZR k))
  = if (k <=? 0)%Z then Fin 0
    else Fin (nth (Z.to_nat (Z.min k (Z.of_nat (List.length s))) - 1) s 0).
Proof.
  intros Hs. unfold newPrice.
  rewrite !lit_Fin, Q2R_0, Q2R_1, ltb_Fin, length_map, ofNat_Fin, !sub_Fin, leb_Fin.
  assert (Hlen : (0 < List.length s)%nat) by (destruct s; simpl; [congruence|lia]).
  destruct (k <=? 0)%Z eqn:Ek.
  - apply Z.leb_le in Ek. apply IZR_le in Ek.
    destruct (Rltb 0 (IZR k)) eqn:E; [apply Rltb_true in E; lra|reflexivity].
  - apply Z.leb_gt in Ek.
    assert (0 < IZR k) by (apply IZR_lt; exact Ek).
    destruct (Rltb 0 (IZR k)) eqn:E; [|apply Rltb_false in E; lra].
    rewrite INR_IZR_INZ, <- !minus_IZR.
    assert (Hidx : forall z : Z, (0 <= z)%Z ->
              readAt (map Fin s) (Fin (IZR z)) = nth (Z.to_nat z) (map Fin s) XNaN).
    { intros z Hz. unfold readAt. cbn [toIndex xreal_number].
      rewrite <- (Z2Nat.id z) at 1 by exact Hz.
      rewrite <- INR_IZR_INZ, toIndex_nat. reflexivity. }
    destruct (Rleb (IZR (Z.of_nat (List.length s))) (IZR (k - 1))) eqn:El.
    + apply Rleb_true, le_IZR in El.
      rewrite Hidx by lia.
      rewrite Z.min_r by lia.
      change XNaN with (@NaN xreal _).
      rewrite (nth_indep _ _ (Fin 0)) by (rewrite length_map; lia).
      rewrite (map_nth Fin). do 2 f_equal. lia.
    + apply Rleb_false, lt_IZR in El.
      rewrite Hidx by lia.
      rewrite Z.min_l by lia.
      rewrite (nth_indep _ _ (Fin 0)) by (rewrite length_map; lia).
      rewrite (map_nth Fin). do 2 f_equal. lia.
Qed.

Section AggregatorShape.

Context {num : Type} {N : Number num}.
Local Open Scope num_scope.

Lemma simulate_eq (params : ModelParams num) :
  simulate params
  = [ generation params (productivities params)
        (equilibriumPrices params (productivities params)) 0;
      generation params (productivities params)
        (equilibriumPrices params (productivities params)) 1;
      generation params (productivities params)
        (equilibriumPrices params (productivities params)) 2 ].
Proof. reflexivity. Qed.

Lemma housePrice_simulate (params : ModelParams num) :
  map housePrice (simulate params)
  = [ nth 0 (equilibriumPrices params (productivities params)) NaN;
      nth 1 (equilibriumPrices params (productivities params)) NaN;
      nth 2 (equilibriumPrices params (productivities params)) NaN ].
Proof. reflexivity. Qed.

Lemma ownerCount_allocate params agents numOwners P_t P_next tot i :
  ownerCount (allocate params agents numOwners P_t P_next tot i)
  = if ofNat i <? numOwners then ownerCount tot + $1 else ownerCount tot.
Proof.
  unfold allocate. destruct (ofNat i <? numOwners); reflexivity.
Qed.

Lemma countOwners_cons numOwners i l c :
  countOwners numOwners (i :: l) c
  = countOwners numOwners l (if ofNat i <? numOwners then c + $1 else c).
Proof. reflexivity. Qed.

Lemma ownerCount_fold params agents numOwners P_t P_next l : forall tot,
  ownerCount (fold_left (allocate params agents numOwners P_t P_next) l tot)
  = countOwners numOwners l (ownerCount tot).
Proof.
  induction l as [|i l IH]; intros tot; simpl; auto.
  rewrite IH, ownerCount_allocate. reflexivity.
Qed.

Lemma ownerCount_allocation params prods prices t :
  ownerCount (allocation params prods prices t)
  = countOwners (numOwnersOf params t) (seq 0 AGENTS_COUNT) $0.
Proof. unfold allocation. rewrite ownerCount_fold. reflexivity. Qed.

End AggregatorShape.


(** * Counting owners on [xreal] *)

Lemma countOwners_bound (numOwners : xreal) l : forall c : nat,
  exists c' : nat, countOwners numOwners l (Fin (INR c)) = Fin (INR c')
                   /\ (c <= c' <= c + List.length l)%nat.
Proof.
  induction l as [|i l IH]; intros c.
  - exists c. split; [reflexivity|simpl; lia].
  - rewrite countOwners_cons. cbn [List.length].
    destruct (ofNat i <? numOwners)%num.
    + rewrite lit_Fin, Q2R_1, add_Fin, <- S_INR.
      destruct (IH (S c)) as (c' & E & Hc). exists c'. split; [exact E|lia].
    + destruct (IH c) as (c' & E & Hc). exists c'. split; [exact E|lia].
Qed.

Lemma countOwners_seq (z : Z) : forall n : nat,
  countOwners (Fin (IZR z)) (seq 0 n) (Fin 0)
  = Fin (IZR (Z.max 0 (Z.min (Z.of_nat n) z))).
Proof.
  induction n as [|n IH].
  - simpl. do 2 f_equal. lia.
  - rewrite seq_S. unfold countOwners in *. rewrite fold_left_app, IH.
    cbn [fold_left Nat.add]. rewrite ofNat_Fin, ltb_Fin, INR_IZR_INZ.
    destruct (Rltb (IZR (Z.of_nat n)) (IZR z)) eqn:E.
    + apply Rltb_true, lt_IZR in E.
      rewrite lit_Fin, Q2R_1, add_Fin, <- (plus_IZR _ 1). do 2 f_equal. lia.
    + apply Rltb_false, le_IZR in E. do 2 f_equal. lia.
Qed.

Lemma xfloor_Fin_integer a k : xfloor a = Fin k -> exists z : Z, k = IZR z.
Proof.
  destruct a; simpl; try discriminate. intros [= <-]. eauto.
Qed.

Section GenericClaims.

Context {num : Type} {N : Number num}.
Local Open Scope num_scope.

(** C10: [simulate] returns exactly three records, named "Boomers",
    "Millennials", "Gen Alpha", with [time] 0, 1, 2 in that order, whatever the
    configuration; the cross-section always has [AGENTS_COUNT] = 1000
    households and the price path [SIMULATION_STEPS] = 10 periods, both
    constants that no parameter enters. *)
Theorem C10_three_named_generations (params : ModelParams num) :
  List.length (simulate params) = 3%nat
  /\ map name (simulate params)
     = ["Boomers"%string; "Millennials"%string; "Gen Alpha"%string]
  /\ map time (simulate params) = [$0; $1; $2]
  /\ List.length (productivities params) = AGENTS_COUNT
  /\ List.length (equilibriumPrices params (productivities params)) = SIMULATION_STEPS
  /\ AGENTS_COUNT = 1000%nat /\ SIMULATION_STEPS = 10%nat.
Proof.
  rewrite simulate_eq.
  split; [reflexivity|]. split; [reflexivity|]. split; [reflexivity|].
  split; [apply productivities_length|].
  split; [apply equilibriumPrices_length|].
  split; reflexivity.
Qed.

(** C2 (as the code has it): every record returned by [simulate] has exactly
    the sixteen properties of the object literal; the resale price
    [housePriceNext], the income percentiles [incomeP25], [incomeMedian],
    [incomeP75] and the per-household [incomeDistribution] are not among them,
    so a caller reading them gets [undefined]. *)
Theorem C2_result_properties (params : ModelParams num) :
  Forall (fun r =>
            map fst (properties r)
            = ["name"; "time"; "ownershipRate"; "priceToIncome";
               "avgLifetimeUtility"; "avgUtilityOwners"; "avgUtilityRenters";
               "utilityP25"; "utilityMedian"; "utilityP75";
               "avgConsumptionYoung"; "avgConsumptionOld"; "housePrice";
               "population"; "housingStock"; "incomeMean"]%string
            /\ Forall (fun key => getProperty r key = None) readByApplication)
         (simulate params).
Proof.
  rewrite simulate_eq.
  repeat constructor.
Qed.

(** C9: in every record of [simulate], the mean utility of owners is the
    [NaN] sentinel itself when the period's owner count is not positive, and
    the mean utility of renters is the [NaN] sentinel when the renter count
    [AGENTS_COUNT - ownerCount] is not positive: the division is not
    performed, whatever a division by zero would give. *)
Theorem C9_empty_tenure_is_sentinel (params : ModelParams num) :
  Forall2
    (fun (r : GenerationResult num) (t : nat) =>
       let tot := allocation params (productivities params)
                    (equilibriumPrices params (productivities params)) t in
       ((ownerCount tot >? $0) = false -> avgUtilityOwners r = NaN)
       /\ ((ofNat AGENTS_COUNT - ownerCount tot >? $0) = false
           -> avgUtilityRenters r = NaN))
    (simulate params) [0%nat; 1%nat; 2%nat].
Proof.
  rewrite simulate_eq.
  repeat constructor; unfold generation;
    cbn [avgUtilityOwners avgUtilityRenters]; intros ->; reflexivity.
Qed.

(** C5: one outer iteration reads only the price path of the previous
    iteration: the terminal entry becomes the previous path's entry of the
    period before it times [1 + techGrowthRate], and every non-terminal entry
    [t] becomes half its old value plus half the price proposed by the
    clearing rule from the WTPs solved against the previous path's entry
    [t + 1]; the solver then continues from that new path. *)
Theorem C5_iteration_reads_previous_path
  (params : ModelParams num) (prods prices : list num) :
  List.length prices = SIMULATION_STEPS ->
  let newPrices := fst (iteration params prods prices) in
  nth (SIMULATION_STEPS - 1)%nat newPrices NaN
  = nth (SIMULATION_STEPS - 2)%nat prices NaN * ($1 + techGrowthRate params)
  /\ (forall t : nat, (t < SIMULATION_STEPS - 1)%nat ->
        nth t newPrices NaN
        = $0.5 * nth t prices NaN
          + $0.5 * newPrice
                     (sortBy (fun a b => b - a)
                        (wtpsOf params prods t (nth (t + 1)%nat prices NaN)))
                     (housesAvailable (H_t params t) (N_t params t)))
  /\ (forall n : nat,
        solve params prods (S n) prices
        = if snd (iteration params prods prices) <? $0.01 then newPrices
          else solve params prods n newPrices).
Proof.
  intros Hl newPrices. split; [|split].
  - apply iteration_last; exact Hl.
  - intros t Ht. apply iteration_nth; [exact Ht|].
    rewrite Hl. unfold SIMULATION_STEPS in *. lia.
  - intros n. apply solve_S.
Qed.

(** C4 (as the code has it): [simulate] validates nothing: for every
    configuration, well-posed or not, it returns the three records of the
    periods 0, 1 and 2, built by the same aggregation. *)
Theorem C4_no_configuration_is_rejected (params : ModelParams num) :
  exists r0 r1 r2 : GenerationResult num,
    simulate params = [r0; r1; r2]
    /\ Forall2 (fun r t =>
                  r = generation params (productivities params)
                        (equilibriumPrices params (productivities params)) t)
               [r0; r1; r2] [0%nat; 1%nat; 2%nat].
Proof.
  rewrite simulate_eq. do 3 eexists. split; [reflexivity|].
  repeat constructor.
Qed.

End GenericClaims.

Local Open Scope num_scope.

Lemma C5_witness :
  nth (SIMULATION_STEPS - 1)%nat
      (fst (iteration (num := xreal) DEFAULT_PARAMS (productivities DEFAULT_PARAMS)
              (initialPrices DEFAULT_PARAMS))) NaN
  = nth (SIMULATION_STEPS - 2)%nat (initialPrices DEFAULT_PARAMS) NaN
    * ($1 + techGrowthRate DEFAULT_PARAMS)
  /\ (forall t : nat, (t < SIMULATION_STEPS - 1)%nat ->
        nth t (fst (iteration DEFAULT_PARAMS (productivities DEFAULT_PARAMS)
                      (initialPrices DEFAULT_PARAMS))) NaN
        = $0.5 * nth t (initialPrices DEFAULT_PARAMS) NaN
          + $0.5 * newPrice
                     (sortBy (fun a b => b - a)
                        (wtpsOf DEFAULT_PARAMS (productivities DEFAULT_PARAMS) t
                           (nth (t + 1)%nat (initialPrices DEFAULT_PARAMS) NaN)))
                     (housesAvailable (H_t DEFAULT_PARAMS t) (N_t DEFAULT_PARAMS t)))
  /\ (forall n : nat,
        solve DEFAULT_PARAMS (productivities DEFAULT_PARAMS) (S n)
              (initialPrices DEFAULT_PARAMS)
        = if snd (iteration DEFAULT_PARAMS (productivities DEFAULT_PARAMS)
                    (initialPrices DEFAULT_PARAMS)) <? $0.01
          then fst (iteration DEFAULT_PARAMS (productivities DEFAULT_PARAMS)
                      (initialPrices DEFAULT_PARAMS))
          else solve DEFAULT_PARAMS (productivities DEFAULT_PARAMS) n
                 (fst (iteration DEFAULT_PARAMS (productivities DEFAULT_PARAMS)
                         (initialPrices DEFAULT_PARAMS)))).
Proof.
  apply (C5_iteration_reads_previous_path DEFAULT_PARAMS
           (productivities DEFAULT_PARAMS) (initialPrices DEFAULT_PARAMS)).
  reflexivity.
Defined.

Local Close Scope num_scope.


(** C3: for a household of income [y > 0], whatever the discount factor and
    the next-period price, the bisection returns a WTP between 0 and [y]. *)
Theorem C3_wtp_between_zero_and_income (beta_ P_next : xreal) (y : R) :
  0 < y ->
  exists w : R, wtpSolver beta_ P_next (Fin y) = Fin w /\ 0 <= w <= y.
Proof.
  intros Hy.
  destruct (bisect_inRange beta_ P_next y Hy) as (l & h & w & E & _ & _ & Hw).
  exists w. unfold wtpSolver. rewrite E. split; [reflexivity|exact Hw].
Qed.

Lemma C3_witness :
  exists w : R, wtpSolver (Fin (3 / 10)) (Fin 1000) (Fin 2500000) = Fin w
                /\ 0 <= w <= 2500000.
Proof.
  apply (C3_wtp_between_zero_and_income (Fin (3 / 10)) (Fin 1000) 2500000).
  lra.
Defined.

(** * The owner count *)

Lemma ownerCount_at_most_cross_section (params : ModelParams xreal) prods prices t :
  exists c : nat,
    ownerCount (allocation params prods prices t) = Fin (INR c)
    /\ (c <= AGENTS_COUNT)%nat.
Proof.
  rewrite ownerCount_allocation, lit_Fin, Q2R_0.
  destruct (countOwners_bound (numOwnersOf params t) (seq 0 AGENTS_COUNT) 0)
    as (c & E & Hc).
  exists c. split; [exact E|]. rewrite length_seq in Hc. lia.
Qed.

(** C8 (as the code has it): unless the unit count [numOwners], which the
    aggregator computes as [floor(min(1, H_t/N_t) * AGENTS_COUNT)], is
    negative (a negative ratio of stock to population), the owner count of
    the period exceeds neither that count nor the size of the
    cross-section.  The bound is the count as computed, here in exact
    arithmetic; [Binary64Owners.owner_count_on_doubles] relates the owner
    count to the count computed on doubles. *)
Theorem C8_owner_count_bounded
  (params : ModelParams xreal) (prods prices : list xreal) (t : nat) :
  (Math_floor (Math_min $1 (H_t params t / N_t params t) * ofNat AGENTS_COUNT)
   <? $0)%num = false ->
  (ownerCount (allocation params prods prices t)
   >? Math_floor (Math_min $1 (H_t params t / N_t params t) * ofNat AGENTS_COUNT))%num
  = false
  /\ (ownerCount (allocation params prods prices t) >? ofNat AGENTS_COUNT)%num
     = false.
Proof.
  intros Hneg.
  change (Math_floor (Math_min $1 (H_t params t / N_t params t)
                      * ofNat AGENTS_COUNT))%num
    with (numOwnersOf params t) in *.
  split.
  - rewrite ownerCount_allocation.
    pose proof (xfloor_Fin_integer
                  (supplyRatio (H_t params t) (N_t params t)
                   * ofNat AGENTS_COUNT)%num) as Hint.
    change (xfloor (supplyRatio (H_t params t) (N_t params t)
                    * ofNat AGENTS_COUNT)%num)
      with (numOwnersOf params t) in Hint.
    destruct (numOwnersOf params t) as [k| | |] eqn:E;
      try reflexivity; try discriminate.
    destruct (Hint k eq_refl) as (z & ->).
    rewrite lit_Fin, Q2R_0, ltb_Fin in Hneg. apply Rltb_false, le_IZR in Hneg.
    rewrite lit_Fin, Q2R_0, countOwners_seq, ltb_Fin.
    apply Rltb_false, IZR_le. lia.
  - destruct (ownerCount_at_most_cross_section params prods prices t)
      as (c & -> & Hc).
    rewrite ofNat_Fin, ltb_Fin. apply Rltb_false, le_INR. exact Hc.
Qed.

Lemma xpow_Fin r n : xpow (Fin r) n = Fin (r ^ n).
Proof. destruct n; [simpl; f_equal; lra|reflexivity]. Qed.

(** The bound is not negative, in any period, as soon as the population is
    positive, the stock non-negative and the two growth rates above -100%. *)
Lemma unit_bound_of_stocks (params : ModelParams xreal) (t : nat)
  (n0 h0 gn gh : R) :
  initialPop params = Fin n0 -> initialHousing params = Fin h0 ->
  popGrowthRate params = Fin gn -> housingGrowthRate params = Fin gh ->
  0 < n0 -> 0 <= h0 -> -1 < gn -> -1 <= gh ->
  (Math_floor (Math_min $1 (H_t params t / N_t params t) * ofNat AGENTS_COUNT)
   <? $0)%num = false.
Proof.
  intros En Eh Egn Egh Hn Hh Hgn Hgh.
  unfold H_t, N_t. rewrite En, Eh, Egn, Egh.
  rewrite !lit_Fin, Q2R_0, Q2R_1, !add_Fin. cbn [Math_pow xreal_number].
  rewrite !xpow_Fin, !mul_Fin.
  assert (Hden : 0 < n0 * (1 + gn) ^ t).
  { apply Rmult_lt_0_compat; [exact Hn|apply pow_lt; lra]. }
  assert (Hnum : 0 <= h0 * (1 + gh) ^ t).
  { apply Rmult_le_pos; [exact Hh|apply pow_le; lra]. }
  rewrite div_Fin, ofNat_Fin, INR_AGENTS_COUNT by lra.
  cbn [Math_min Math_floor xreal_number xmin xfloor]. rewrite mul_Fin.
  cbn [xfloor]. rewrite ltb_Fin. apply Rltb_false.
  apply IZR_le, Zfloor_lub. simpl.
  apply Rmult_le_pos; [|lra].
  apply Rmin_glb; [lra|].
  unfold Rdiv. apply Rmult_le_pos; [exact Hnum|].
  left. apply Rinv_0_lt_compat. exact Hden.
Qed.

Lemma numOwnersOf_DEFAULT_0 :
  numOwnersOf (DEFAULT_PARAMS (num := xreal)) 0 = Fin 1000.
Proof.
  unfold numOwnersOf, H_t, N_t, DEFAULT_PARAMS.
  cbn [initialHousing initialPop Math_pow xreal_number xpow].
  rewrite !lit_Fin, !mul_Fin, housesAvailable_Fin by (unfold Q2R; simpl; lra).
  replace (Rmin 1 _ * 1000) with (IZR 1000).
  - now rewrite ZfloorZ.
  - unfold Q2R; simpl. rewrite Rmin_left; lra.
Qed.

Lemma C8_witness :
  (ownerCount (allocation DEFAULT_PARAMS (productivities DEFAULT_PARAMS)
                 (equilibriumPrices DEFAULT_PARAMS (productivities DEFAULT_PARAMS)) 0)
   >? Math_floor (Math_min $1 (H_t DEFAULT_PARAMS 0 / N_t DEFAULT_PARAMS 0)
                  * ofNat AGENTS_COUNT))%num
  = false
  /\ (ownerCount (allocation DEFAULT_PARAMS (productivities DEFAULT_PARAMS)
                    (equilibriumPrices DEFAULT_PARAMS (productivities DEFAULT_PARAMS)) 0)
      >? ofNat (num := xreal) AGENTS_COUNT)%num
     = false.
Proof.
  apply (C8_owner_count_bounded DEFAULT_PARAMS).
  change (Math_floor (Math_min $1 (H_t DEFAULT_PARAMS 0 / N_t DEFAULT_PARAMS 0)
                      * ofNat AGENTS_COUNT))%num
    with (numOwnersOf (DEFAULT_PARAMS (num := xreal)) 0).
  rewrite numOwnersOf_DEFAULT_0, lit_Fin, Q2R_0, ltb_Fin.
  apply Rltb_false. lra.
Defined.

Lemma numOwnersOf_negativeHousing :
  numOwnersOf (negativeHousingParams (num := xreal)) 0 = Fin (-1).
Proof.
  unfold numOwnersOf, H_t, N_t, negativeHousingParams.
  cbn [initialHousing initialPop Math_pow xreal_number xpow].
  rewrite !lit_Fin. cbn [neg xreal_number xneg].
  rewrite !mul_Fin, housesAvailable_Fin by (unfold Q2R; simpl; lra).
  replace (Rmin 1 _ * 1000) with (IZR (-1)).
  - now rewrite ZfloorZ.
  - unfold Q2R; simpl. rewrite Rmin_right; lra.
Qed.

(** C8, refuted as stated: with a stock of -1 for 1000 households the bound
    [floor (min (1, H_t / N_t) * 1000)] is -1; nobody owns, and the owner
    count, 0, exceeds the bound. *)
Lemma C8_counterexample :
  Math_floor (Math_min $1 (H_t negativeHousingParams 0 / N_t negativeHousingParams 0)
              * ofNat AGENTS_COUNT)%num = Fin (-1)
  /\ ownerCount (allocation negativeHousingParams
                   (productivities negativeHousingParams)
                   (equilibriumPrices negativeHousingParams
                      (productivities negativeHousingParams)) 0) = Fin 0
  /\ (ownerCount (allocation negativeHousingParams
                    (productivities negativeHousingParams)
                    (equilibriumPrices negativeHousingParams
                       (productivities negativeHousingParams)) 0)
      >? Math_floor (Math_min $1 (H_t negativeHousingParams 0
                                  / N_t negativeHousingParams 0)
                     * ofNat AGENTS_COUNT))%num = true.
Proof.
  change (Math_floor (Math_min $1 (H_t negativeHousingParams 0
                                   / N_t negativeHousingParams 0)
                      * ofNat AGENTS_COUNT))%num
    with (numOwnersOf (negativeHousingParams (num := xreal)) 0).
  rewrite ownerCount_allocation, numOwnersOf_negativeHousing.
  rewrite lit_Fin, Q2R_0, countOwners_seq.
  split; [reflexivity|]. split.
  - do 2 f_equal.
  - rewrite ltb_Fin. apply Rltb_true. apply IZR_lt. reflexivity.
Qed.

(** The exact floor at the stock and the population that the doubles
    [1000 * (1 + -0.07)] and [1000 * (1 + 0.55)] denote; the doubles give
    600 ([Binary64Rounding.rounded_units_example]). *)
Lemma exact_units_example :
  housesAvailable (Fin (8180366510653439 / 8796093022208)) (Fin 1550) = Fin 599.
Proof.
  rewrite housesAvailable_Fin by lra.
  do 2 f_equal. apply Zfloor_eq.
  rewrite Rmin_right by lra. split; lra.
Qed.

(** * The clearing price and the stock *)

Lemma sortDesc_nonempty ws : ws <> [] -> sortDesc ws <> [].
Proof.
  intros Hws E. apply Hws. apply length_zero_iff_nil.
  rewrite <- sortDesc_length, E. reflexivity.
Qed.

Lemma unitsAvailable_mono (H1 H2 N_ : R) :
  0 < N_ -> H1 <= H2 ->
  (Zfloor (Rmin 1 (H1 / N_) * 1000) <= Zfloor (Rmin 1 (H2 / N_) * 1000))%Z.
Proof.
  intros HN HH. apply Zfloor_le.
  assert (H1 / N_ <= H2 / N_).
  { unfold Rdiv. apply Rmult_le_compat_r; [|exact HH].
    left. apply Rinv_0_lt_compat. exact HN. }
  apply Rmult_le_compat_r; [lra|].
  apply Rle_min_compat_l. assumption.
Qed.

(** C7 (as the code has it): for fixed finite WTPs and a fixed population, if
    the stock rises from [H1] to [H2] and the cross-section already has at
    least one unit at [H1], the clearing price at [H2] is at most the clearing
    price at [H1]. *)
Theorem C7_more_stock_no_higher_price (ws : list R) (H1 H2 N_ : R) :
  ws <> [] -> 0 < N_ -> H1 < H2 ->
  (Fin 1 <=? housesAvailable (Fin H1) (Fin N_))%num = true ->
  (newPrice (sortBy (fun a b => (b - a)%num) (map Fin ws))
            (housesAvailable (Fin H2) (Fin N_))
   <=? newPrice (sortBy (fun a b => (b - a)%num) (map Fin ws))
                (housesAvailable (Fin H1) (Fin N_)))%num = true.
Proof.
  intros Hws HN HH Hk1.
  rewrite !housesAvailable_Fin in * by lra.
  pose proof (unitsAvailable_mono H1 H2 N_ HN (Rlt_le _ _ HH)) as Hmono.
  set (k1 := Zfloor (Rmin 1 (H1 / N_) * 1000)) in *.
  set (k2 := Zfloor (Rmin 1 (H2 / N_) * 1000)) in *.
  rewrite leb_Fin in Hk1. apply Rleb_true, le_IZR in Hk1.
  rewrite sortBy_Fin, !newPrice_Fin by (apply sortDesc_nonempty; exact Hws).
  destruct (k1 <=? 0)%Z eqn:E1; [apply Z.leb_le in E1; lia|].
  destruct (k2 <=? 0)%Z eqn:E2; [apply Z.leb_le in E2; lia|].
  rewrite leb_Fin. apply Rleb_true.
  assert (Hlen : (0 < List.length (sortDesc ws))%nat).
  { rewrite sortDesc_length. destruct ws; simpl; [congruence|lia]. }
  apply sorted_nth_ge; [apply sortDesc_sorted|]. lia.
Qed.

Lemma C7_witness :
  (newPrice (sortBy (fun a b => (b - a)%num) (map Fin [3; 1; 2]))
            (housesAvailable (Fin 3) (Fin 1))
   <=? newPrice (sortBy (fun a b => (b - a)%num) (map Fin [3; 1; 2]))
                (housesAvailable (Fin (1 / 2)) (Fin 1)))%num = true.
Proof.
  apply (C7_more_stock_no_higher_price [3; 1; 2] (1 / 2) 3 1);
    [discriminate | lra | lra |].
  rewrite housesAvailable_Fin, leb_Fin by lra. apply Rleb_true.
  replace (Rmin 1 (1 / 2 / 1) * 1000) with (IZR 500)
    by (rewrite Rmin_right; lra).
  rewrite ZfloorZ. lra.
Defined.

Lemma sortDesc_repeat (x : R) (n : nat) (i : nat) :
  (i < n)%nat -> nth i (sortDesc (repeat x n)) 0 = x.
Proof.
  intros Hi. apply (repeat_spec n x).
  apply (Permutation_in _ (Permutation_sym (sortDesc_perm (repeat x n)))).
  apply nth_In. rewrite sortDesc_length, repeat_length. exact Hi.
Qed.

(** C7, refuted as stated: with a population of 2000 and every WTP equal to
    1, raising the stock from 1 to 2 raises the clearing price from 0 to 1. *)
Lemma C7_counterexample :
  newPrice (sortBy (fun a b => (b - a)%num) unitBids)
           (housesAvailable (Fin 1) (Fin 2000)) = Fin 0
  /\ newPrice (sortBy (fun a b => (b - a)%num) unitBids)
              (housesAvailable (Fin 2) (Fin 2000)) = Fin 1
  /\ (newPrice (sortBy (fun a b => (b - a)%num) unitBids)
                (housesAvailable (Fin 2) (Fin 2000))
       <=? newPrice (sortBy (fun a b => (b - a)%num) unitBids)
                    (housesAvailable (Fin 1) (Fin 2000)))%num = false.
Proof.
  assert (Hne : sortDesc (repeat 1 AGENTS_COUNT) <> []).
  { apply sortDesc_nonempty. discriminate. }
  assert (E0 : newPrice (sortBy (fun a b => (b - a)%num) unitBids)
                 (housesAvailable (Fin 1) (Fin 2000)) = Fin 0).
  { unfold unitBids. rewrite <- map_repeat, sortBy_Fin.
    rewrite housesAvailable_Fin by lra.
    replace (Rmin 1 (1 / 2000) * 1000) with (1 / 2)
      by (rewrite Rmin_right; lra).
    replace (Zfloor (1 / 2)) with 0%Z by (symmetry; apply Zfloor_eq; lra).
    rewrite newPrice_Fin by exact Hne. reflexivity. }
  assert (E1 : newPrice (sortBy (fun a b => (b - a)%num) unitBids)
                 (housesAvailable (Fin 2) (Fin 2000)) = Fin 1).
  { unfold unitBids. rewrite <- map_repeat, sortBy_Fin.
    rewrite housesAvailable_Fin by lra.
    replace (Rmin 1 (2 / 2000) * 1000) with (IZR 1)
      by (rewrite Rmin_right; lra).
    rewrite ZfloorZ, newPrice_Fin by exact Hne.
    cbn [Z.leb Z.compare]. rewrite sortDesc_length, repeat_length.
    rewrite sortDesc_repeat; [reflexivity|].
    unfold AGENTS_COUNT. lia. }
  rewrite E0, E1. split; [reflexivity|]. split; [reflexivity|].
  rewrite leb_Fin. apply Rleb_false. lra.
Qed.

(** * An ill-posed configuration *)

Lemma numOwnersOf_noHousing :
  numOwnersOf (noHousingParams (num := xreal)) 0 = Fin 0.
Proof.
  unfold numOwnersOf, H_t, N_t, noHousingParams.
  cbn [initialHousing initialPop Math_pow xreal_number xpow].
  rewrite !lit_Fin, !mul_Fin, housesAvailable_Fin by (unfold Q2R; simpl; lra).
  replace (Rmin 1 _ * 1000) with (IZR 0).
  - now rewrite ZfloorZ.
  - unfold Q2R; simpl. rewrite Rmin_right; lra.
Qed.

(** C4, refuted as stated: with no housing stock (an ill-posed
    configuration) [simulate] returns its three records, and the first one
    holds [NaN] as the mean utility of owners. *)
Lemma C4_counterexample :
  exists r0 r1 r2 : GenerationResult xreal,
    simulate noHousingParams = [r0; r1; r2]
    /\ initialHousing (noHousingParams (num := xreal)) = Fin 0
    /\ avgUtilityOwners r0 = XNaN.
Proof.
  rewrite simulate_eq. do 3 eexists. split; [reflexivity|]. split.
  - cbn [initialHousing noHousingParams]. now rewrite lit_Fin, Q2R_0.
  - unfold generation. cbn [avgUtilityOwners].
    rewrite ownerCount_allocation, numOwnersOf_noHousing.
    rewrite lit_Fin, Q2R_0, countOwners_seq, ltb_Fin.
    replace (Rltb 0 _) with false; [reflexivity|].
    symmetry. apply Rltb_false. apply IZR_le. lia.
Qed.

(** * The convergence test *)

Section ConvergenceTest.

Context {num : Type} {N : Number num}.
Local Open Scope num_scope.

(** What the test needs of [Math.max]: a maximum below [c] has both its
    arguments below [c]. *)
Hypothesis max_below : forall a b c : num,
  (Math_max a b <? c) = true -> (a <? c) = true /\ (b <? c) = true.

(** When the largest change passes the test, so does the change of each
    period. *)
Lemma fold_periodUpdate_maxDiff (params : ModelParams num) prods prices c ts :
  forall st,
    (forall t, In t ts -> (t < List.length (fst st))%nat) ->
    (snd (fold_left (periodUpdate params prods prices) ts st) <? c) = true ->
    forall t, In t ts ->
      (Math_abs (blend params prods prices t - nth t prices NaN) <? c) = true.
Proof.
  assert (Hacc : forall l st,
             (snd (fold_left (periodUpdate params prods prices) l st) <? c) = true ->
             (snd st <? c) = true).
  { induction l as [|t l IH]; intros [np md] H; [exact H|].
    cbn [fold_left] in H. apply IH in H. cbn [periodUpdate snd] in H.
    apply max_below in H. apply H. }
  induction ts as [|t0 ts IH]; intros [np md] Hlen Hlt t Hin; [destruct Hin|].
  cbn [fold_left] in Hlt. destruct Hin as [<-|Hin].
  - apply Hacc in Hlt. cbn [periodUpdate snd] in Hlt.
    apply max_below in Hlt. destruct Hlt as [_ Hlt].
    rewrite nth_set_nth_eq in Hlt by (apply (Hlen t0); left; reflexivity).
    exact Hlt.
  - eapply IH; [|exact Hlt|exact Hin].
    intros t' Ht'. cbn [periodUpdate fst]. rewrite length_set_nth.
    apply (Hlen t'). right. exact Ht'.
Qed.

Lemma iteration_maxDiff (params : ModelParams num) prods prices c t :
  List.length prices = SIMULATION_STEPS -> (t < SIMULATION_STEPS - 1)%nat ->
  (snd (iteration params prods prices) <? c) = true ->
  (Math_abs (blend params prods prices t - nth t prices NaN) <? c) = true.
Proof.
  intros Hl Ht H. unfold iteration in H.
  eapply fold_periodUpdate_maxDiff; [|exact H|apply in_seq; lia].
  intros t' Ht'. apply in_seq in Ht'. cbn [fst]. rewrite length_set_nth, Hl.
  unfold SIMULATION_STEPS in *. lia.
Qed.

(** ** A period without a single unit *)

Variable params : ModelParams num.
Hypothesis no_unit : unitInFirstPeriod params = false.

Lemma blend_no_unit prods prices :
  blend params prods prices 0 = halved (nth 0 prices NaN).
Proof.
  unfold unitInFirstPeriod in no_unit.
  unfold blend, proposedPrice, newPrice. rewrite no_unit. reflexivity.
Qed.

(** Without a unit in period 0 that period's price is halved by every pass,
    and the test cannot stop the loop while a halving moves the price by
    0.01 or more. *)
Lemma solve_no_unit prods n : forall prices,
  List.length prices = SIMULATION_STEPS ->
  staysAbove n (nth 0 prices NaN) = true ->
  nth 0 (solve params prods n prices) NaN = Nat.iter n halved (nth 0 prices NaN).
Proof.
  induction n as [|n IH]; intros prices Hl Hs; [reflexivity|].
  cbn [staysAbove] in Hs. apply andb_true_iff in Hs. destruct Hs as [Hfar Hs].
  apply negb_true_iff in Hfar.
  assert (Hnew : nth 0 (fst (iteration params prods prices)) NaN
                 = halved (nth 0 prices NaN)).
  { rewrite iteration_nth by (rewrite ?Hl; unfold SIMULATION_STEPS; lia).
    apply blend_no_unit. }
  rewrite solve_S.
  destruct (snd (iteration params prods prices) <? $0.01) eqn:Hconv.
  - exfalso.
    apply (iteration_maxDiff params prods prices _ 0%nat Hl) in Hconv;
      [|unfold SIMULATION_STEPS; lia].
    rewrite blend_no_unit in Hconv. congruence.
  - rewrite IH.
    + rewrite Hnew. symmetry. apply Nat.iter_succ_r.
    + rewrite iteration_length. exact Hl.
    + rewrite Hnew. exact Hs.
Qed.

(** So the first record holds the seed halved [MAX_ITER] times. *)
Lemma first_price_no_unit :
  staysAbove MAX_ITER (seedPrice params) = true ->
  nth 0 (map housePrice (simulate params)) NaN
  = Nat.iter MAX_ITER halved (seedPrice params).
Proof.
  intros Hs. rewrite housePrice_simulate. cbn [nth]. unfold equilibriumPrices.
  rewrite solve_no_unit; rewrite initialPrices_eq.
  - reflexivity.
  - apply repeat_length.
  - exact Hs.
Qed.

End ConvergenceTest.

Lemma xmax_below a b c :
  xltb (xmax a b) c = true -> xltb a c = true /\ xltb b c = true.
Proof.
  destruct a as [x| | |], b as [y| | |], c as [z| | |]; simpl;
    try discriminate; auto.
  rewrite !Rltb_true. intros H.
  split; [apply Rle_lt_trans with (2 := H); apply Rmax_l
         |apply Rle_lt_trans with (2 := H); apply Rmax_r].
Qed.

Lemma halved_Fin s : halved (Fin s) = Fin (s / 2).
Proof.
  unfold halved. rewrite !lit_Fin, !mul_Fin, add_Fin.
  f_equal. unfold Q2R; simpl. lra.
Qed.

Lemma iter_halved_Fin n : forall s, Nat.iter n halved (Fin s) = Fin (s / 2 ^ n).
Proof.
  induction n as [|n IH]; intros s.
  - simpl. f_equal. lra.
  - rewrite Nat.iter_succ, IH, halved_Fin. f_equal.
    assert (0 < 2 ^ n) by (apply pow_lt; lra). simpl. field. lra.
Qed.

Lemma staysAbove_Fin n : forall s,
  / 100 * 2 ^ n <= s -> staysAbove n (Fin s) = true.
Proof.
  induction n as [|n IH]; intros s Hs; [reflexivity|].
  assert (Hpow : 1 <= 2 ^ n) by (apply pow_R1_Rle; lra).
  simpl in Hs.
  cbn [staysAbove]. rewrite halved_Fin. apply andb_true_iff. split.
  - apply negb_true_iff. rewrite sub_Fin, lit_Fin.
    cbn [Math_abs xreal_number xabs]. rewrite ltb_Fin. apply Rltb_false.
    unfold Q2R; simpl. rewrite Rabs_left; lra.
  - apply IH. lra.
Qed.

Lemma housesAvailable_scarce :
  housesAvailable (H_t (scarceParams (num := xreal)) 0) (N_t scarceParams 0) = Fin 0.
Proof.
  unfold H_t, N_t, scarceParams.
  cbn [initialHousing initialPop Math_pow xreal_number xpow].
  rewrite !lit_Fin, !mul_Fin, housesAvailable_Fin by (unfold Q2R; simpl; lra).
  f_equal. f_equal. apply Zfloor_eq.
  unfold Q2R; simpl. rewrite Rmin_right; lra.
Qed.

(** C1, refuted as stated: with one house for ten thousand households no
    unit is available to the cross-section in period 0 (k = 0), and the
    [housePrice] reported for that period is 2500000000 / 2^20, not 0. *)
Lemma C1_counterexample :
  numOwnersOf (scarceParams (num := xreal)) 0 = Fin 0
  /\ nth 0 (map housePrice (simulate scarceParams)) XNaN = Fin (2500000000 / 2 ^ 20)
  /\ Fin (2500000000 / 2 ^ 20) <> Fin 0.
Proof.
  assert (Hseed : seedPrice (scarceParams (num := xreal)) = Fin 2500000000).
  { unfold seedPrice, scarceParams. cbn [initialTech initialPop].
    rewrite !lit_Fin, !mul_Fin. f_equal. unfold Q2R; simpl. lra. }
  split; [exact housesAvailable_scarce|]. split.
  - change XNaN with (@NaN xreal _).
    rewrite (@first_price_no_unit xreal xreal_number xmax_below scarceParams).
    + rewrite Hseed. apply iter_halved_Fin.
    + unfold unitInFirstPeriod.
      rewrite housesAvailable_scarce, lit_Fin, Q2R_0.
      apply Rltb_false. lra.
    + rewrite Hseed. apply staysAbove_Fin. unfold MAX_ITER. simpl. lra.
  - intros [= H]. simpl in H. lra.
Qed.

(** C1 (as the code has it): the [housePrice] of period [t] is the entry [t]
    of the solved price path, which the aggregator copies; and the price the
    clearing rule proposes inside a solver pass, for finite WTPs [ws] and a
    unit count [k], is 0 when [k <= 0] and otherwise the WTP at rank
    [min k (length ws)] of the WTPs sorted descending, which is one of the
    WTPs. *)
Theorem C1_house_price_is_path_entry (params : ModelParams xreal) :
  map housePrice (simulate params)
  = [ nth 0 (equilibriumPrices params (productivities params)) NaN;
      nth 1 (equilibriumPrices params (productivities params)) NaN;
      nth 2 (equilibriumPrices params (productivities params)) NaN ]
  /\ forall (ws : list R) (k : Z), ws <> [] ->
       exists s : list R,
         sortBy (fun a b => (b - a)%num) (map Fin ws) = map Fin s
         /\ Permutation ws s /\ StronglySorted Rge s
         /\ newPrice (map Fin s) (Fin (IZR k))
            = (if (k <=? 0)%Z then Fin 0
               else Fin (nth (Z.to_nat (Z.min k (Z.of_nat (List.length ws))) - 1) s 0))
         /\ ((0 < k)%Z ->
             exists w, newPrice (map Fin s) (Fin (IZR k)) = Fin w /\ In w ws).
Proof.
  split; [rewrite simulate_eq; reflexivity|].
  intros ws k Hws. exists (sortDesc ws).
  pose proof (sortDesc_nonempty ws Hws) as Hne.
  pose proof (sortDesc_length ws) as Hlen.
  split; [apply sortBy_Fin|]. split; [apply sortDesc_perm|].
  split; [apply sortDesc_sorted|].
  rewrite newPrice_Fin, Hlen by exact Hne.
  split; [reflexivity|].
  intros Hk. destruct (k <=? 0)%Z eqn:E; [apply Z.leb_le in E; lia|].
  eexists. split; [reflexivity|].
  apply (Permutation_in _ (Permutation_sym (sortDesc_perm ws))).
  apply nth_In. rewrite Hlen.
  destruct ws; simpl; [congruence|lia].
Qed.

(** * The bisection on finite values, read on the reals *)

Lemma log_Fin r : 0 < r -> Math_log (Fin r) = Fin (ln r).
Proof. intros H. cbn. now rewrite Rsign_pos. Qed.

Section FiniteBisection.

Variables b q y : R.
Hypothesis b_pos : 0 < b.
Hypothesis q_nonneg : 0 <= q.
Hypothesis y_pos : 0 < y.

Lemma rent_young_pos : 0 < y - b * y / (1 + b).
Proof.
  replace (y - b * y / (1 + b)) with (y / (1 + b)) by (field; lra).
  apply Rdiv_lt_0_compat; lra.
Qed.

Lemma rent_old_pos : 0 < b * y / (1 + b).
Proof. apply Rdiv_lt_0_compat; nra. Qed.

Lemma rentUtility_Fin : rentUtility (Fin b) (Fin y) = Fin (rentU b y).
Proof.
  unfold rentUtility, rentU.
  rewrite lit_Fin, Q2R_1, add_Fin, mul_Fin, div_Fin, sub_Fin by lra.
  rewrite !log_Fin by (apply rent_young_pos || apply rent_old_pos).
  reflexivity.
Qed.

Lemma savings_nonneg P : 0 <= savings b q y P.
Proof. apply Rmax_l. Qed.

(** Once the young consumption is positive, so is the old one. *)
Lemma old_pos P : 0 < y - P - savings b q y P -> 0 < savings b q y P + q.
Proof.
  intros Hc. pose proof (savings_nonneg P) as Hs.
  destruct (Rle_lt_dec q 0) as [Hq|Hq]; [|lra].
  assert (q = 0) by lra. subst q.
  assert (0 < (b * (y - P) - 0) / (1 + b)).
  { apply Rdiv_lt_0_compat; nra. }
  unfold savings in *. rewrite Rmax_right in *; lra.
Qed.

Lemma bisectStep_Fin l h w :
  bisectStep (Fin b) (Fin q) (Fin y) (Fin (rentU b y)) (Fin l, Fin h, Fin w)
  = if Rlt_dec 0 (y - (l + h) / 2 - savings b q y ((l + h) / 2)) then
      if Rlt_dec (rentU b y) (ownUtility b q y ((l + h) / 2))
      then (Fin ((l + h) / 2), Fin h, Fin ((l + h) / 2))
      else (Fin l, Fin ((l + h) / 2), Fin w)
    else (Fin l, Fin ((l + h) / 2), Fin w).
Proof.
  unfold bisectStep, ALPHA.
  rewrite !lit_Fin, Q2R_0, Q2R_1, Q2R_2, !add_Fin, (div_Fin (l + h) 2) by lra.
  set (P := (l + h) / 2).
  rewrite !sub_Fin, mul_Fin, sub_Fin, div_Fin, ltb_Fin by lra.
  assert (Hs : (if Rltb ((b * (y - P) - q) / (1 + b)) 0 then Fin 0
                else Fin ((b * (y - P) - q) / (1 + b)))
               = Fin (savings b q y P)).
  { unfold savings. destruct (Rltb _ 0) eqn:E.
    - apply Rltb_true in E. rewrite Rmax_left; [reflexivity|lra].
    - apply Rltb_false in E. rewrite Rmax_right; [reflexivity|lra]. }
  rewrite Hs, sub_Fin, leb_Fin, add_Fin.
  destruct (Rlt_dec 0 (y - P - savings b q y P)) as [Hc|Hc].
  - replace (Rleb _ 0) with false by (symmetry; apply Rleb_false; exact Hc).
    rewrite !log_Fin by (exact Hc || apply old_pos; exact Hc).
    rewrite mul_Fin, !add_Fin, ltb_Fin. fold (ownUtility b q y P).
    destruct (Rlt_dec (rentU b y) (ownUtility b q y P)) as [Hu|Hu].
    + replace (Rltb _ _) with true by (symmetry; apply Rltb_true; exact Hu).
      reflexivity.
    + replace (Rltb _ _) with false by (symmetry; apply Rltb_false; lra).
      reflexivity.
  - replace (Rleb _ 0) with true by (symmetry; apply Rleb_true; lra).
    reflexivity.
Qed.

Lemma bisectStep_accept l h w :
  accepts b q y ((l + h) / 2) ->
  bisectStep (Fin b) (Fin q) (Fin y) (Fin (rentU b y)) (Fin l, Fin h, Fin w)
  = (Fin ((l + h) / 2), Fin h, Fin ((l + h) / 2)).
Proof.
  intros [Hc Hu]. rewrite bisectStep_Fin.
  destruct (Rlt_dec _ _); [|contradiction].
  destruct (Rlt_dec _ _); [reflexivity|contradiction].
Qed.

Lemma bisectStep_reject l h w :
  ~ accepts b q y ((l + h) / 2) ->
  bisectStep (Fin b) (Fin q) (Fin y) (Fin (rentU b y)) (Fin l, Fin h, Fin w)
  = (Fin l, Fin ((l + h) / 2), Fin w).
Proof.
  intros Hn. rewrite bisectStep_Fin.
  destruct (Rlt_dec _ _) as [Hc|Hc]; [|reflexivity].
  destruct (Rlt_dec _ _) as [Hu|Hu]; [|reflexivity].
  exfalso. apply Hn. split; assumption.
Qed.

End FiniteBisection.

(** * Logarithms *)

Lemma ln_mono x z : 0 < x -> x <= z -> ln x <= ln z.
Proof.
  intros Hx [Hlt | ->]; [left; apply ln_increasing; assumption | right; reflexivity].
Qed.

Lemma ln_quot x z : 0 < x -> 0 < z -> ln (x / z) = ln x - ln z.
Proof.
  intros Hx Hz. unfold Rdiv.
  rewrite ln_mult, ln_Rinv by (try apply Rinv_0_lt_compat; assumption). lra.
Qed.

(** The tangent at 1 lies above the logarithm. *)
Lemma ln_tangent x x0 : 0 < x -> 0 < x0 -> ln x - ln x0 <= (x - x0) / x0.
Proof.
  intros Hx Hx0. rewrite <- ln_quot by assumption.
  assert (Hr : 0 < x / x0) by (apply Rdiv_lt_0_compat; assumption).
  replace ((x - x0) / x0) with (x / x0 - 1) by (field; lra).
  rewrite <- (ln_exp (x / x0 - 1)). apply ln_mono; [exact Hr|].
  pose proof (exp_ineq1_le (x / x0 - 1)). lra.
Qed.

Section Acceptance.

Variables b q : R.
Hypothesis b_pos : 0 < b.
Hypothesis q_nonneg : 0 <= q.

Lemma rentU_eq y : 0 < y ->
  rentU b y = (1 + b) * ln y + (b * ln b - (1 + b) * ln (1 + b)).
Proof.
  intros Hy. unfold rentU.
  replace (y - b * y / (1 + b)) with (y / (1 + b)) by (field; lra).
  replace (b * y / (1 + b)) with (b * (y / (1 + b))) by (field; lra).
  rewrite ln_mult, ln_quot; try lra.
  apply Rdiv_lt_0_compat; lra.
Qed.

Lemma savings_cases y P :
  (savings b q y P = 0 /\ b * (y - P) - q <= 0)
  \/ (savings b q y P = (b * (y - P) - q) / (1 + b) /\ 0 < b * (y - P) - q).
Proof.
  unfold savings.
  destruct (Rle_lt_dec (b * (y - P) - q) 0) as [H|H].
  - left. split; [|exact H]. apply Rmax_left.
    apply Rmult_le_reg_r with (1 + b); [lra|].
    unfold Rdiv. rewrite Rmult_assoc, Rinv_l by lra. lra.
  - right. split; [|exact H]. apply Rmax_right.
    left. apply Rdiv_lt_0_compat; lra.
Qed.

(** The savings of the source leave a positive consumption whenever the
    price is below the income. *)
Lemma young_pos y P : P < y -> 0 < y - P - savings b q y P.
Proof.
  intros HP. destruct (savings_cases y P) as [[-> _]|[-> Hx]]; [lra|].
  replace (y - P - (b * (y - P) - q) / (1 + b)) with ((y - P + q) / (1 + b))
    by (field; lra).
  apply Rdiv_lt_0_compat; lra.
Qed.

(** The savings of the source are the best feasible ones. *)
Lemma savings_optimal y P s :
  0 <= s -> 0 < y - P - s -> 0 < s + q ->
  ln (y - P - s) + b * ln (s + q)
  <= ln (y - P - savings b q y P) + b * ln (savings b q y P + q).
Proof.
  intros Hs Ha Ho.
  assert (HP : P < y) by lra.
  pose proof (young_pos y P HP) as Ha0.
  pose proof (old_pos b q y b_pos q_nonneg P Ha0) as Ho0.
  set (s0 := savings b q y P) in *.
  pose proof (ln_tangent (y - P - s) (y - P - s0) Ha Ha0) as H1.
  pose proof (ln_tangent (s + q) (s0 + q) Ho Ho0) as H2.
  assert (H3 : (y - P - s - (y - P - s0)) / (y - P - s0)
               + b * ((s + q - (s0 + q)) / (s0 + q)) <= 0).
  { replace ((y - P - s - (y - P - s0)) / (y - P - s0)
             + b * ((s + q - (s0 + q)) / (s0 + q)))
      with ((s - s0) * (b * (y - P - s0) - (s0 + q))
            / ((y - P - s0) * (s0 + q))) by (field; lra).
    assert (Hnum : (s - s0) * (b * (y - P - s0) - (s0 + q)) <= 0).
    { subst s0. destruct (savings_cases y P) as [[E Hx]|[E Hx]]; rewrite E in *.
      - nra.
      - replace (b * (y - P - (b * (y - P) - q) / (1 + b))
                 - ((b * (y - P) - q) / (1 + b) + q)) with 0 by (field; lra).
        lra. }
    assert (Hden : 0 < (y - P - s0) * (s0 + q)) by (apply Rmult_lt_0_compat; lra).
    pose proof (Rinv_0_lt_compat _ Hden) as Hinv.
    unfold Rdiv. nra. }
  assert (b * (ln (s + q) - ln (s0 + q)) <= b * ((s + q - (s0 + q)) / (s0 + q))).
  { apply Rmult_le_compat_l; lra. }
  lra.
Qed.

(** A feasible plan that beats renting makes the price acceptable. *)
Lemma accepts_by_plan y P s :
  0 <= s -> 0 < y - P - s -> 0 < s + q ->
  rentU b y < ln (y - P - s) + b * ln (s + q) + 1 ->
  accepts b q y P.
Proof.
  intros Hs Ha Ho Hu. split; [apply young_pos; lra|].
  unfold ownUtility. pose proof (savings_optimal y P s Hs Ha Ho). lra.
Qed.

(** A cheaper price is accepted when a dearer one is. *)
Lemma accepts_cheaper y P P' :
  0 < y -> P <= P' -> accepts b q y P' -> accepts b q y P.
Proof.
  intros Hy HP [Ha Hu].
  pose proof (savings_nonneg b q y P') as Hs.
  pose proof (old_pos b q y b_pos q_nonneg P' Ha) as Ho.
  apply (accepts_by_plan y P (savings b q y P')); try lra.
  unfold ownUtility in Hu.
  assert (ln (y - P' - savings b q y P') <= ln (y - P - savings b q y P'))
    by (apply ln_mono; lra).
  lra.
Qed.

(** A richer household accepts every price a poorer one accepts. *)
Lemma accepts_richer y1 y2 P :
  0 < y2 -> y2 <= y1 -> accepts b q y2 P -> accepts b q y1 P.
Proof.
  intros Hy2 Hy [Ha Hu].
  assert (Hy1 : 0 < y1) by lra.
  pose proof (savings_nonneg b q y2 P) as Hs2.
  pose proof (old_pos b q y2 b_pos q_nonneg P Ha) as Ho.
  set (s2 := savings b q y2 P) in *.
  unfold ownUtility in Hu. fold s2 in Hu.
  rewrite (rentU_eq y2 Hy2) in Hu.
  destruct (Rle_lt_dec q P) as [HqP|HqP].
  - (* the price is at least the resale price: scale the plan *)
    set (lam := y1 / y2).
    assert (Hlam : 1 <= lam).
    { unfold lam. apply Rmult_le_reg_r with y2; [lra|].
      unfold Rdiv. rewrite Rmult_assoc, Rinv_l by lra. lra. }
    assert (Ey1 : y1 = lam * y2) by (unfold lam; field; lra).
    apply (accepts_by_plan y1 P (lam * s2 + (lam - 1) * q)).
    + nra.
    + rewrite Ey1. nra.
    + nra.
    + rewrite (rentU_eq y1 Hy1).
      assert (H1 : ln (lam * (y2 - P - s2)) <= ln (y1 - P - (lam * s2 + (lam - 1) * q))).
      { apply ln_mono; [apply Rmult_lt_0_compat; lra|]. rewrite Ey1. nra. }
      replace (lam * s2 + (lam - 1) * q + q) with (lam * (s2 + q)) by ring.
      rewrite !ln_mult in * by lra.
      assert (E : ln y1 = ln lam + ln y2) by (rewrite Ey1, ln_mult; lra).
      rewrite E. nra.
  - destruct (Rle_lt_dec P (b * y1 / (1 + b))) as [HPs|HPs].
    + (* the price is below the renter's savings: consume as a renter *)
      pose proof (rent_young_pos b y1 b_pos Hy1) as Hry.
      pose proof (rent_old_pos b y1 b_pos Hy1) as Hro.
      apply (accepts_by_plan y1 P (b * y1 / (1 + b) - P)); try lra.
      unfold rentU.
      replace (y1 - P - (b * y1 / (1 + b) - P)) with (y1 - b * y1 / (1 + b)) by ring.
      assert (ln (b * y1 / (1 + b)) <= ln (b * y1 / (1 + b) - P + q))
        by (apply ln_mono; lra).
      nra.
    + (* the price is above the renter's savings: save nothing *)
      assert (HPb : b * y1 < (1 + b) * P).
      { apply Rmult_lt_reg_r with (/ (1 + b)); [apply Rinv_0_lt_compat; lra|].
        replace ((1 + b) * P * / (1 + b)) with P by (field; lra). exact HPs. }
      assert (Es2 : s2 = 0).
      { subst s2. destruct (savings_cases y2 P) as [[E _]|[_ Hx]]; [exact E|nra]. }
      rewrite Es2 in *.
      assert (Hq : 0 < q) by lra.
      apply (accepts_by_plan y1 P 0); try lra.
      rewrite (rentU_eq y1 Hy1).
      replace (y1 - P - 0) with (y1 - P) by ring.
      replace (y2 - P - 0) with (y2 - P) in * by ring.
      replace (0 + q) with q in * by ring.
      set (d := y1 - y2).
      assert (Hd : 0 <= d) by (unfold d; lra).
      assert (Hrest : 0 < y2 - b * d) by (unfold d; nra).
      (* (1 + b) ln y2 >= b ln y1 + ln (y2 - b d) *)
      pose proof (ln_tangent y1 y2 Hy1 Hy2) as T1.
      pose proof (ln_tangent (y2 - b * d) y2 Hrest Hy2) as T2.
      assert (T3 : b * (ln y1 - ln y2) <= b * ((y1 - y2) / y2))
        by (apply Rmult_le_compat_l; lra).
      assert (T4 : b * ((y1 - y2) / y2) + (y2 - b * d - y2) / y2 = 0)
        by (unfold d; field; lra).
      (* ln (y1 - P) - ln (y2 - P) >= ln y1 - ln (y2 - b d) *)
      assert (T5 : ln (y1 / (y2 - b * d)) <= ln ((y1 - P) / (y2 - P))).
      { apply ln_mono; [apply Rdiv_lt_0_compat; lra|].
        apply Rmult_le_reg_r with ((y2 - b * d) * (y2 - P));
          [apply Rmult_lt_0_compat; lra|].
        replace (y1 / (y2 - b * d) * ((y2 - b * d) * (y2 - P)))
          with (y1 * (y2 - P)) by (field; lra).
        replace ((y1 - P) / (y2 - P) * ((y2 - b * d) * (y2 - P)))
          with ((y1 - P) * (y2 - b * d)) by (field; lra).
        unfold d. nra. }
      rewrite !ln_quot in T5 by lra.
      lra.
Qed.

End Acceptance.

Section Bracket.

Variables b q y : R.
Hypothesis b_pos : 0 < b.
Hypothesis q_nonneg : 0 <= q.
Hypothesis y_pos : 0 < y.

Lemma bracketed_step n st :
  bracketed b q y n st ->
  bracketed b q y (S n) (bisectStep (Fin b) (Fin q) (Fin y) (Fin (rentU b y)) st).
Proof.
  intros (l & h & k & -> & Hk & Hl & Hw & Hlo & Hhi).
  assert (Hpow : 0 < 2 ^ n) by (apply pow_lt; lra).
  assert (Hhalf : (h - l) / 2 = y / 2 ^ S n).
  { rewrite Hw. simpl. field. lra. }
  assert (Hmid : (l + h) / 2 = y * IZR (2 * k + 1) / 2 ^ S n).
  { replace ((l + h) / 2) with (l + (h - l) / 2) by field.
    rewrite Hhalf, Hl, plus_IZR, mult_IZR. simpl. field. lra. }
  assert (Hsame : l = y * IZR (2 * k) / 2 ^ S n).
  { rewrite Hl, mult_IZR. simpl. field. lra. }
  rewrite (bisectStep_Fin b q y b_pos q_nonneg).
  destruct (Rlt_dec _ _) as [Hc|Hc]; [destruct (Rlt_dec _ _) as [Hu|Hu]|].
  - exists ((l + h) / 2), h, (2 * k + 1)%Z. split; [reflexivity|].
    split; [lia|]. split; [exact Hmid|]. split; [lra|].
    split; [right; split; assumption|exact Hhi].
  - exists l, ((l + h) / 2), (2 * k)%Z. split; [reflexivity|].
    split; [lia|]. split; [exact Hsame|]. split; [lra|].
    split; [exact Hlo|]. intros [_ Hu']. lra.
  - exists l, ((l + h) / 2), (2 * k)%Z. split; [reflexivity|].
    split; [lia|]. split; [exact Hsame|]. split; [lra|].
    split; [exact Hlo|]. intros [Hc' _]. lra.
Qed.

Lemma bracketed_iter n :
  bracketed b q y n (Nat.iter n (bisectStep (Fin b) (Fin q) (Fin y) (Fin (rentU b y)))
                 ($0, Fin y, $0)%num).
Proof.
  induction n as [|n IH].
  - exists 0, y, 0%Z. rewrite lit_Fin, Q2R_0. split; [reflexivity|].
    split; [lia|]. split; [simpl; lra|]. split; [simpl; lra|].
    split; [left; reflexivity|].
    intros [Hc _]. pose proof (savings_nonneg b q y y). lra.
  - rewrite Nat.iter_succ. apply bracketed_step, IH.
Qed.

Lemma bisect_bracketed : bracketed b q y 15 (bisect (Fin b) (Fin q) (Fin y)).
Proof.
  unfold bisect. rewrite (rentUtility_Fin b y b_pos y_pos).
  apply bracketed_iter.
Qed.

(** The acceptance of two neighbours of the grid pins the WTP down. *)
Lemma wtpSolver_on_grid (k : Z) :
  (0 <= k)%Z ->
  (k = 0%Z \/ accepts b q y (y * IZR k / 2 ^ 15)) ->
  ~ accepts b q y (y * IZR (k + 1) / 2 ^ 15) ->
  wtpSolver (Fin b) (Fin q) (Fin y) = Fin (y * IZR k / 2 ^ 15).
Proof.
  intros Hk Hin Hout.
  destruct bisect_bracketed as (l & h & k' & E & Hk' & Hl & Hw & Hlo & Hhi).
  unfold wtpSolver. rewrite E. cbn [snd]. f_equal.
  assert (Hpow : 0 < 2 ^ 15) by (apply pow_lt; lra).
  assert (Hgrid : forall i j : Z, (i <= j)%Z ->
            y * IZR i / 2 ^ 15 <= y * IZR j / 2 ^ 15).
  { intros i j Hij. apply IZR_le in Hij.
    unfold Rdiv. apply Rmult_le_compat_r; [left; apply Rinv_0_lt_compat; lra|].
    apply Rmult_le_compat_l; lra. }
  assert (Hh : h = y * IZR (k' + 1) / 2 ^ 15).
  { replace h with (l + (h - l)) by ring. rewrite Hw, Hl, plus_IZR. field. }
  destruct (Z.lt_trichotomy k' k) as [Hlt|[->|Hgt]]; [|exact Hl|].
  - exfalso. apply Hhi. destruct Hin as [->|Hin]; [lia|].
    apply (accepts_cheaper b q b_pos q_nonneg y h (y * IZR k / 2 ^ 15) y_pos);
      [|exact Hin].
    rewrite Hh. apply Hgrid. lia.
  - exfalso. apply Hout.
    destruct Hlo as [Hz|Hacc].
    + rewrite Hl in Hz.
      assert (0 < y * IZR k' / 2 ^ 15); [|lra].
      apply Rdiv_lt_0_compat; [|lra].
      apply Rmult_lt_0_compat; [lra|]. apply IZR_lt. lia.
    + apply (accepts_cheaper b q b_pos q_nonneg y
               (y * IZR (k + 1) / 2 ^ 15) l y_pos); [|exact Hacc].
      rewrite Hl. apply Hgrid. lia.
Qed.

End Bracket.

(** C6 (as the code has it, in exact arithmetic): for incomes
    [y1 > y2 > 0], a discount factor [b > 0] and a next-period price
    [q >= 0] common to both, the WTP of the richer household is above the
    WTP of the poorer one less one step of the bisection grid, [y1 / 2^15].
    On doubles the guess [(low + high) / 2] overflows for incomes above two
    thirds of the largest double, and the bound fails
    ([Binary64Overflow.overflow_stalls_search]). *)
Theorem C6_wtp_monotone_up_to_one_step (b q y1 y2 : R) :
  0 < b -> 0 <= q -> 0 < y2 -> y2 < y1 ->
  exists w1 w2 : R,
    wtpSolver (Fin b) (Fin q) (Fin y1) = Fin w1
    /\ wtpSolver (Fin b) (Fin q) (Fin y2) = Fin w2
    /\ w2 - y1 / 2 ^ 15 < w1.
Proof.
  intros Hb Hq Hy2 Hy.
  assert (Hy1 : 0 < y1) by lra.
  destruct (bisect_bracketed b q y1 Hb Hq Hy1)
    as (l1 & h1 & k1 & E1 & Hk1 & Hl1 & Hw1 & _ & Hhi1).
  destruct (bisect_bracketed b q y2 Hb Hq Hy2)
    as (l2 & h2 & k2 & E2 & _ & _ & _ & Hlo2 & _).
  exists l1, l2. unfold wtpSolver. rewrite E1, E2.
  split; [reflexivity|]. split; [reflexivity|].
  assert (Hgrid : 0 < y1 / 2 ^ 15) by (apply Rdiv_lt_0_compat; [lra|apply pow_lt; lra]).
  assert (Hlow : 0 <= l1).
  { rewrite Hl1. apply IZR_le in Hk1.
    replace (y1 * IZR k1 / 2 ^ 15) with (IZR k1 * (y1 / 2 ^ 15)) by field.
    apply Rmult_le_pos; lra. }
  destruct Hlo2 as [-> | Hacc]; [lra|].
  destruct (Rlt_le_dec l2 h1) as [Hlt|Hge]; [lra|].
  exfalso. apply Hhi1.
  apply (accepts_cheaper b q Hb Hq y1 h1 l2 Hy1 Hge).
  apply (accepts_richer b q Hb Hq y1 y2 l2 Hy2); [lra|exact Hacc].
Qed.

Lemma C6_witness :
  exists w1 w2 : R,
    wtpSolver (Fin (1 / 2)) (Fin 18688) (Fin 32769) = Fin w1
    /\ wtpSolver (Fin (1 / 2)) (Fin 18688) (Fin 32768) = Fin w2
    /\ w2 - 32769 / 2 ^ 15 < w1.
Proof.
  apply (C6_wtp_monotone_up_to_one_step (1 / 2) 18688 32769 32768); lra.
Defined.

(** * Rational bounds on [exp 2] *)

Lemma fixedOne_pos : 0 < IZR fixedOne.
Proof. apply IZR_lt. reflexivity. Qed.

Lemma squareDown_below n : forall (a : Z) (x : R),
  (0 <= a)%Z -> IZR a / IZR fixedOne <= exp x ->
  IZR (squareDown n a) / IZR fixedOne <= exp (2 ^ n * x).
Proof.
  pose proof fixedOne_pos as HS.
  induction n as [|n IH]; intros a x Ha Hx.
  - simpl. now rewrite Rmult_1_l.
  - cbn [squareDown]. replace (2 ^ S n * x) with (2 ^ n * (2 * x)) by (simpl; ring).
    apply IH.
    + apply Z.div_pos; [nia|reflexivity].
    + replace (2 * x) with (x + x) by ring. rewrite exp_plus.
      assert (H0 : 0 <= IZR a / IZR fixedOne).
      { apply Rmult_le_pos; [apply IZR_le; exact Ha|].
        left. apply Rinv_0_lt_compat. exact HS. }
      assert (Hdiv : IZR (a * a / fixedOne) * IZR fixedOne <= IZR a * IZR a).
      { rewrite <- !mult_IZR. apply IZR_le.
        rewrite Z.mul_comm. apply Z.mul_div_le. reflexivity. }
      apply Rle_trans with (IZR a / IZR fixedOne * (IZR a / IZR fixedOne)).
      * apply Rmult_le_reg_r with (IZR fixedOne); [exact HS|].
        replace (IZR (a * a / fixedOne) / IZR fixedOne * IZR fixedOne)
          with (IZR (a * a / fixedOne)) by (field; lra).
        replace (IZR a / IZR fixedOne * (IZR a / IZR fixedOne) * IZR fixedOne)
          with (IZR a * IZR a / IZR fixedOne) by (field; lra).
        apply Rmult_le_reg_r with (IZR fixedOne); [exact HS|].
        replace (IZR a * IZR a / IZR fixedOne * IZR fixedOne)
          with (IZR a * IZR a) by (field; lra).
        exact Hdiv.
      * apply Rmult_le_compat; assumption.
Qed.

Lemma squareUp_above n : forall (a : Z) (x : R),
  (0 <= a)%Z -> exp x <= IZR a / IZR fixedOne ->
  exp (2 ^ n * x) <= IZR (squareUp n a) / IZR fixedOne.
Proof.
  pose proof fixedOne_pos as HS.
  induction n as [|n IH]; intros a x Ha Hx.
  - simpl. now rewrite Rmult_1_l.
  - cbn [squareUp]. replace (2 ^ S n * x) with (2 ^ n * (2 * x)) by (simpl; ring).
    apply IH.
    + apply Z.div_pos; [unfold fixedOne; nia|reflexivity].
    + replace (2 * x) with (x + x) by ring. rewrite exp_plus.
      pose proof (exp_pos x) as Hpos.
      assert (Hdiv : IZR a * IZR a
                     <= IZR ((a * a + fixedOne - 1) / fixedOne) * IZR fixedOne).
      { rewrite <- !mult_IZR. apply IZR_le.
        pose proof (Z.mul_succ_div_gt (a * a + fixedOne - 1) fixedOne eq_refl).
        lia. }
      apply Rle_trans with (IZR a / IZR fixedOne * (IZR a / IZR fixedOne)).
      * apply Rmult_le_compat; lra.
      * apply Rmult_le_reg_r with (IZR fixedOne); [exact HS|].
        replace (IZR ((a * a + fixedOne - 1) / fixedOne) / IZR fixedOne * IZR fixedOne)
          with (IZR ((a * a + fixedOne - 1) / fixedOne)) by (field; lra).
        replace (IZR a / IZR fixedOne * (IZR a / IZR fixedOne) * IZR fixedOne)
          with (IZR a * IZR a / IZR fixedOne) by (field; lra).
        apply Rmult_le_reg_r with (IZR fixedOne); [exact HS|].
        replace (IZR a * IZR a / IZR fixedOne * IZR fixedOne)
          with (IZR a * IZR a) by (field; lra).
        exact Hdiv.
Qed.

Lemma exp2_bounds : 7389055 / 1000000 < exp 2 < 7389057 / 1000000.
Proof.
  pose proof fixedOne_pos as HS.
  assert (E2 : 2 = 2 ^ 25 * (/ 2 ^ 24)) by (simpl; field).
  assert (Hx : 0 < / 2 ^ 24 < 1).
  { simpl. lra. }
  split.
  - assert (H : IZR (squareDown 25 seedDown) / IZR fixedOne <= exp (2 ^ 25 * / 2 ^ 24)).
    { apply squareDown_below; [discriminate|].
      apply Rle_trans with (1 + / 2 ^ 24); [|apply exp_ineq1_le].
      right. unfold seedDown, fixedOne. simpl. lra. }
    rewrite <- E2 in H. eapply Rlt_le_trans; [|exact H].
    apply Rmult_lt_reg_r with (IZR fixedOne); [exact HS|].
    replace (IZR (squareDown 25 seedDown) / IZR fixedOne * IZR fixedOne)
      with (IZR (squareDown 25 seedDown)) by (field; lra).
    apply Rmult_lt_reg_r with 1000000; [lra|].
    replace (7389055 / 1000000 * IZR fixedOne * 1000000)
      with (IZR (7389055 * fixedOne)) by (rewrite mult_IZR; field).
    rewrite <- mult_IZR. apply IZR_lt. vm_compute. reflexivity.
  - assert (H : exp (2 ^ 25 * / 2 ^ 24) <= IZR (squareUp 25 seedUp) / IZR fixedOne).
    { apply squareUp_above; [discriminate|].
      assert (Hinv : exp (/ 2 ^ 24) = / exp (- / 2 ^ 24)).
      { rewrite exp_Ropp, Rinv_inv. reflexivity. }
      pose proof (exp_ineq1_le (- / 2 ^ 24)) as Hlow.
      rewrite Hinv.
      apply Rle_trans with (/ (1 + - / 2 ^ 24)).
      - apply Rinv_le_contravar; lra.
      - unfold seedUp, fixedOne.
        apply Rmult_le_reg_r with (1 + - / 2 ^ 24); [lra|].
        rewrite Rinv_l by lra. simpl. lra. }
    rewrite <- E2 in H. eapply Rle_lt_trans; [exact H|].
    apply Rmult_lt_reg_r with (IZR fixedOne); [exact HS|].
    replace (IZR (squareUp 25 seedUp) / IZR fixedOne * IZR fixedOne)
      with (IZR (squareUp 25 seedUp)) by (field; lra).
    apply Rmult_lt_reg_r with 1000000; [lra|].
    replace (7389057 / 1000000 * IZR fixedOne * 1000000)
      with (IZR (7389057 * fixedOne)) by (rewrite mult_IZR; field).
    rewrite <- mult_IZR. apply IZR_lt. vm_compute. reflexivity.
Qed.

(** * Deciding an acceptance at the discount factor 1/2 *)

Lemma half_utility_lt a1 a2 c o :
  0 < a1 -> 0 < a2 -> 0 < c -> 0 < o ->
  (ln a1 + 1 / 2 * ln a2 < ln c + 1 / 2 * ln o + 1
   <-> a1 * a1 * a2 < c * c * o * exp 2).
Proof.
  intros Ha1 Ha2 Hc Ho.
  assert (Hl : ln (a1 * a1 * a2) = 2 * ln a1 + ln a2).
  { rewrite !ln_mult; try lra. apply Rmult_lt_0_compat; lra. }
  assert (Hr : ln (c * c * o * exp 2) = 2 * ln c + ln o + 2).
  { pose proof (exp_pos 2).
    rewrite !ln_mult, ln_exp; try lra;
      repeat apply Rmult_lt_0_compat; lra. }
  assert (Hpl : 0 < a1 * a1 * a2) by (repeat apply Rmult_lt_0_compat; lra).
  assert (Hpr : 0 < c * c * o * exp 2)
    by (repeat apply Rmult_lt_0_compat; try lra; apply exp_pos).
  split; intros H.
  - apply ln_lt_inv; [exact Hpl|exact Hpr|]. lra.
  - apply ln_increasing in H; [|exact Hpl]. lra.
Qed.

(** With no savings, a price is accepted exactly when the cubic inequality
    below holds. *)
Lemma accepts_half_corner q y P :
  0 < y -> 0 < q -> P < y -> 1 / 2 * (y - P) - q <= 0 ->
  (accepts (1 / 2) q y P
   <-> (y - 1 / 2 * y / (1 + 1 / 2)) * (y - 1 / 2 * y / (1 + 1 / 2))
       * (1 / 2 * y / (1 + 1 / 2))
       < (y - P) * (y - P) * q * exp 2).
Proof.
  intros Hy Hq HP Hx.
  assert (Hs : savings (1 / 2) q y P = 0).
  { destruct (savings_cases (1 / 2) q ltac:(lra) y P) as [[E _]|[_ H]];
      [exact E|lra]. }
  unfold accepts, ownUtility, rentU. rewrite Hs.
  replace (y - P - 0) with (y - P) by ring.
  replace (0 + q) with q by ring.
  rewrite half_utility_lt by lra.
  split; [intros [_ H]; exact H|intros H; split; [lra|exact H]].
Qed.

(** C6, refuted as stated: with the discount factor 1/2 and a next-period
    price of 18688, the household of income 32769 gets a lower WTP than the
    household of income 32768. *)
Lemma C6_counterexample :
  wtpSolver (Fin (1 / 2)) (Fin 18688) (Fin 32768) = Fin 26624
  /\ wtpSolver (Fin (1 / 2)) (Fin 18688) (Fin 32769) = Fin (872409087 / 32768)
  /\ 872409087 / 32768 < 26624.
Proof.
  pose proof exp2_bounds as [Hlo Hhi].
  assert (Hp : 2 ^ 15 = 32768) by (simpl; lra).
  split; [|split; [|lra]].
  - replace 26624 with (32768 * IZR 26624 / 2 ^ 15) by (rewrite Hp; lra).
    apply wtpSolver_on_grid; try lra; try lia.
    + right. rewrite Hp. apply accepts_half_corner; lra.
    + rewrite Hp, plus_IZR. intros H. apply accepts_half_corner in H; lra.
  - replace (872409087 / 32768) with (32769 * IZR 26623 / 2 ^ 15)
      by (rewrite Hp; lra).
    apply wtpSolver_on_grid; try lra; try lia.
    + right. rewrite Hp. apply accepts_half_corner; lra.
    + rewrite Hp, plus_IZR. intros H. apply accepts_half_corner in H; lra.
Qed.

(** * The instance [Binary64.float64] computes *)

Module Binary64Examples.

Import Stdlib.Floats.Floats.
Import Binary64.

Section Examples.

Variables (log_ exp_ : float -> float) (pow_ : float -> float -> float).

Example floor_examples :
  map floatFloor [2.5; -2.5; 0.25; -0.25; 1000; infinity]%float
  = [2; -3; 0; -1; 1000; infinity]%float.
Proof. vm_compute. reflexivity. Qed.

Example index_examples :
  map floatToIndex [3; 0; 2.5; -1; 999; infinity; nan]%float
  = [Some 3; Some 0; None; None; Some 999; None; None]%nat.
Proof. vm_compute. reflexivity. Qed.

Example min_examples :
  (PrimFloat.is_nan (floatMin 1 nan), floatMin 1 0.5, floatMin 1 infinity,
   floatMax 1 0.5)%float
  = (true, 0.5, 1, 1)%float.
Proof. vm_compute. reflexivity. Qed.

Example units_examples :
  (@housesAvailable float (float64 log_ exp_ pow_) 1 10000,
   @housesAvailable float (float64 log_ exp_ pow_) 1050 1250,
   @housesAvailable float (float64 log_ exp_ pow_) 5000 1250)%float
  = (0, 840, 1000)%float.
Proof. vm_compute. reflexivity. Qed.

Example clearing_examples :
  let F := float64 log_ exp_ pow_ in
  let sorted := @sortBy float F float (fun a b => PrimFloat.sub b a)
                  [1; 3; 2; 3]%float in
  (sorted, @newPrice float F sorted 2, @newPrice float F sorted 0,
   @newPrice float F sorted 7)%float
  = ([3; 3; 2; 1], 3, 0, 1)%float.
Proof. vm_compute. reflexivity. Qed.

(** The literals of [probit], the lower threshold and the tolerance of the
    convergence test are converted to the doubles nearest to them (written
    here in hexadecimal, which is exact). *)
Example literal_examples :
  map floatOfQ
      [3.969683028665376e+01; 2.209460984245205e+02; 2.759285104469687e+02;
       1.383577518672690e+02; 3.066479806614716e+01; 2.506628277459239e+00;
       5.447609879822406e+01; 1.615858368580409e+02; 1.556989798598866e+02;
       6.680131188771972e+01; 1.328068155288572e+01; 7.784894002430293e-03;
       3.223964580411365e-01; 2.400758277161838e+00; 2.549732539343734e+00;
       4.374664141464968e+00; 2.938163982698783e+00; 7.784695709041462e-03;
       3.224671290700398e-01; 2.445134137142996e+00; 3.754408661907416e+00;
       0.02425; 0.01]%Q
  = [0x1.3d931bc1e0525p+5; 0x1.b9e467034039bp+7; 0x1.13edb2dc53b99p+8;
     0x1.14b72b40b401bp+7; 0x1.eaa3034c08bcdp+4; 0x1.40d9320575479p+1;
     0x1.b3cf0ce3004c4p+5; 0x1.432bf2cf04277p+7; 0x1.3765e0b02d8d2p+7;
     0x1.0b348b1a7e9bep+6; 0x1.a8fb57e147826p+3; 0x1.fe30d924acfe0p-8;
     0x1.4a224c0e881b8p-2; 0x1.334c0c1701758p+1; 0x1.465da2c703a1ap+1;
     0x1.17fa7f4ea4dc7p+2; 0x1.7815c1e3fcfa2p+1; 0x1.fe2d857ac9fd4p-8;
     0x1.4a34d2b590364p-2; 0x1.38fa27c8ae616p+1; 0x1.e09076895b119p+1;
     0x1.8d4fdf3b645a2p-6; 0x1.47ae147ae147bp-7]%float.
Proof. vm_compute. reflexivity. Qed.

(** The seed of the configuration [scarceParams]. *)
Example seed_examples :
  let F := float64 log_ exp_ pow_ in
  nth 0 (@initialPrices float F (@scarceParams float F)) PrimFloat.nan
  = 2500000000%float.
Proof. vm_compute. reflexivity. Qed.

(** On doubles too, a second house among 2000 households all bidding 1
    raises the clearing price from 0 to 1. *)
Example unit_bids_examples :
  let F := float64 log_ exp_ pow_ in
  let sorted := @sortBy float F float (fun a b => PrimFloat.sub b a)
                  (repeat 1%float AGENTS_COUNT) in
  (@newPrice float F sorted (@housesAvailable float F 1 2000),
   @newPrice float F sorted (@housesAvailable float F 2 2000))%float
  = (0, 1)%float.
Proof. vm_compute. reflexivity. Qed.

(** On doubles too, and whatever the three [Math] functions compute, the
    configuration without housing stock has no owner in period 0 and its
    record holds [NaN] as their mean utility. *)
Example no_housing_example (prods prices : list float) :
  let F := float64 log_ exp_ pow_ in
  PrimFloat.is_nan
    (@avgUtilityOwners float
       (@generation float F (@noHousingParams float F) prods prices 0))
  = true.
Proof.
  intros F. unfold generation. cbn [avgUtilityOwners].
  rewrite (@ownerCount_allocation float F).
  replace (@countOwners float F (@numOwnersOf float F (@noHousingParams float F) 0)
             (seq 0 AGENTS_COUNT) (@lit float F 0))
    with 0%float by (vm_compute; reflexivity).
  vm_compute. reflexivity.
Qed.

End Examples.

End Binary64Examples.

(** * The order of doubles and the convergence test *)

Module Binary64Order.

Import Stdlib.Floats.Floats.
Import Binary64.

Lemma SFcompare_Lt_trans A B C :
  SFcompare A B = Some Lt -> SFcompare B C = Some Lt -> SFcompare A C = Some Lt.
Proof.
  destruct A as [sa|sa| |sa ma ea], B as [sb|sb| |sb mb eb],
    C as [sc|sc| |sc mc ec]; simpl; intros H1 H2;
    try discriminate; try reflexivity;
    cmp_cases; simpl in *; try discriminate; try reflexivity; try lia.
Qed.

Lemma SFcompare_Eq_Lt A B C :
  SFcompare A B = Some Eq -> SFcompare B C = Some Lt -> SFcompare A C = Some Lt.
Proof.
  destruct A as [sa|sa| |sa ma ea], B as [sb|sb| |sb mb eb],
    C as [sc|sc| |sc mc ec]; simpl; intros H1 H2;
    try discriminate; try reflexivity;
    cmp_cases; simpl in *; try discriminate; try reflexivity; try lia.
Qed.

Lemma SFcompare_total A B :
  SFcompare A A = Some Eq -> SFcompare B B = Some Eq ->
  SFcompare A B = Some Lt \/ SFcompare A B = Some Eq \/ SFcompare B A = Some Lt.
Proof.
  destruct A as [sa|sa| |sa ma ea], B as [sb|sb| |sb mb eb]; simpl;
    intros H1 H2; try discriminate;
    cmp_cases; simpl in *; auto; try lia.
Qed.

Lemma ltb_compare x y :
  PrimFloat.ltb x y = true <-> SFcompare (Prim2SF x) (Prim2SF y) = Some Lt.
Proof.
  rewrite ltb_spec. unfold SFltb.
  destruct (SFcompare (Prim2SF x) (Prim2SF y)) as [[| |]|]; split;
    congruence.
Qed.

Lemma is_nan_compare x :
  PrimFloat.is_nan x = false <-> SFcompare (Prim2SF x) (Prim2SF x) = Some Eq.
Proof.
  unfold PrimFloat.is_nan. rewrite eqb_spec. unfold SFeqb.
  destruct (SFcompare (Prim2SF x) (Prim2SF x)) as [[| |]|] eqn:E; simpl;
    split; try congruence; intros _; exfalso;
    destruct (Prim2SF x) as [s|s| |s m e]; simpl in E; try discriminate;
    cmp_cases; simpl in *; try discriminate; try lia.
Qed.

(** A maximum below [c] has its first argument below [c]. *)
Lemma floatMax_below a b c :
  PrimFloat.ltb (floatMax a b) c = true -> PrimFloat.ltb a c = true.
Proof.
  unfold floatMax.
  destruct (PrimFloat.is_nan a) eqn:Ea; simpl.
  { intros H. apply ltb_compare in H. discriminate H. }
  destruct (PrimFloat.is_nan b) eqn:Eb; simpl.
  { intros H. apply ltb_compare in H. discriminate H. }
  apply is_nan_compare in Ea, Eb.
  destruct (PrimFloat.ltb a b) eqn:Eab.
  { intros H. apply ltb_compare in H, Eab. apply ltb_compare.
    eapply SFcompare_Lt_trans; eassumption. }
  destruct (PrimFloat.ltb b a) eqn:Eba; [auto|].
  destruct (PrimFloat.get_sign a); [|auto].
  intros H. apply ltb_compare in H. apply ltb_compare.
  destruct (SFcompare_total _ _ Ea Eb) as [Hlt|[Heq|Hgt]].
  - apply ltb_compare in Hlt. congruence.
  - eapply SFcompare_Eq_Lt; eassumption.
  - apply ltb_compare in Hgt. congruence.
Qed.

(** ... and its second argument too. *)
Lemma floatMax_below_r a b c :
  PrimFloat.ltb (floatMax a b) c = true -> PrimFloat.ltb b c = true.
Proof.
  unfold floatMax.
  destruct (PrimFloat.is_nan a) eqn:Ea; simpl.
  { intros H. apply ltb_compare in H. discriminate H. }
  destruct (PrimFloat.is_nan b) eqn:Eb; simpl.
  { intros H. apply ltb_compare in H. discriminate H. }
  apply is_nan_compare in Ea, Eb.
  destruct (PrimFloat.ltb a b) eqn:Eab; [auto|].
  destruct (PrimFloat.ltb b a) eqn:Eba.
  { intros H. apply ltb_compare in H, Eba. apply ltb_compare.
    eapply SFcompare_Lt_trans; eassumption. }
  destruct (PrimFloat.get_sign a); [auto|].
  intros H. apply ltb_compare in H. apply ltb_compare.
  destruct (SFcompare_total _ _ Eb Ea) as [Hlt|[Heq|Hgt]].
  - apply ltb_compare in Hlt. congruence.
  - eapply SFcompare_Eq_Lt; eassumption.
  - apply ltb_compare in Hgt. congruence.
Qed.

Lemma floatMax_below_both a b c :
  PrimFloat.ltb (floatMax a b) c = true ->
  PrimFloat.ltb a c = true /\ PrimFloat.ltb b c = true.
Proof.
  intros H. split; [eapply floatMax_below|eapply floatMax_below_r]; exact H.
Qed.

End Binary64Order.

Module Binary64Scarce.

Import Stdlib.Floats.PrimFloat.
Import Binary64 Binary64Order.

Section Doubles.

Variables (log_ exp_ : float -> float) (pow_ : float -> float -> float).

Local Abbreviation F := (float64 log_ exp_ pow_).

Lemma scarce_no_unit : @unitInFirstPeriod float F (@scarceParams float F) = false.
Proof. vm_compute. reflexivity. Qed.

Lemma scarce_stays :
  @staysAbove float F MAX_ITER (@seedPrice float F (@scarceParams float F)) = true.
Proof. vm_compute. reflexivity. Qed.

Lemma scarce_halved :
  Nat.iter MAX_ITER (@halved float F) (@seedPrice float F (@scarceParams float F))
  = 2384.185791015625%float.
Proof. vm_compute. reflexivity. Qed.

Lemma scarce_units : @numOwnersOf float F (@scarceParams float F) 0 = 0%float.
Proof. vm_compute. reflexivity. Qed.

(** On doubles too, and whatever the three [Math] functions compute: with
    one house for ten thousand households none of the twenty passes
    converges, and the [housePrice] of the first record is the seed halved
    twenty times. *)
Lemma scarce_first_house_price :
  nth 0 (map (@housePrice float) (@simulate float F (@scarceParams float F)))
      (@NaN float F)
  = 2384.185791015625%float.
Proof.
  rewrite <- scarce_halved.
  exact (@first_price_no_unit float F floatMax_below_both (@scarceParams float F)
           scarce_no_unit scarce_stays).
Qed.

End Doubles.

End Binary64Scarce.

(** * The probit function on the reals *)

Lemma neg_Fin a : (- Fin a)%num = Fin (- a).
Proof. reflexivity. Qed.

Lemma p_low_val : Q2R 0.02425 = 2425 / 100000.
Proof. unfold Q2R; simpl; lra. Qed.

Lemma Q2R_half : Q2R 0.5 = 1 / 2.
Proof. unfold Q2R; simpl; lra. Qed.

Lemma probit_outside r : r <= 0 \/ 1 <= r -> probit (Fin r) = Fin 0.
Proof.
  intros H. unfold probit. rewrite !lit_Fin, !leb_Fin, Q2R_0, Q2R_1.
  replace (Rleb r 0 || Rleb 1 r)%bool with true; [reflexivity|].
  symmetry. apply orb_true_iff.
  destruct H; [left|right]; apply Rleb_true; assumption.
Qed.

Lemma probit_inside_tests r : 0 < r < 1 ->
  ((Fin r <=? $0)%num || ($1 <=? Fin r)%num)%bool = false.
Proof.
  intros H. rewrite !lit_Fin, !leb_Fin, Q2R_0, Q2R_1.
  apply orb_false_iff. split; apply Rleb_false; lra.
Qed.

Lemma probit_lower r : 0 < r < Q2R 0.02425 ->
  probit (Fin r)
  = (Fin (tailNum (sqrt (-2 * ln r))) / Fin (tailDen (sqrt (-2 * ln r))))%num.
Proof.
  intros H. pose proof p_low_val as Hp.
  unfold probit. rewrite probit_inside_tests by lra. cbv zeta.
  rewrite !lit_Fin, ltb_Fin, Q2R_1.
  replace (Rltb r (Q2R 0.02425)) with true by (symmetry; apply Rltb_true; lra).
  rewrite log_Fin by lra.
  assert (Hln : ln r < 0) by (rewrite <- ln_1; apply ln_increasing; lra).
  rewrite !neg_Fin, mul_Fin. cbn [Math_sqrt xreal_number xsqrt].
  rewrite Q2R_2, Rsign_pos by lra.
  reflexivity.
Qed.

Lemma probit_center r : Q2R 0.02425 <= r <= 1 - Q2R 0.02425 ->
  probit (Fin r)
  = (Fin (centerNum (r - Q2R 0.5)) / Fin (centerDen (r - Q2R 0.5)))%num.
Proof.
  intros H. pose proof p_low_val as Hp.
  unfold probit. rewrite probit_inside_tests by lra. cbv zeta.
  rewrite !lit_Fin, ltb_Fin, sub_Fin, leb_Fin, Q2R_1.
  replace (Rltb r (Q2R 0.02425)) with false by (symmetry; apply Rltb_false; lra).
  replace (Rleb r (1 - Q2R 0.02425)) with true by (symmetry; apply Rleb_true; lra).
  reflexivity.
Qed.

Lemma probit_upper r : 1 - Q2R 0.02425 < r < 1 ->
  probit (Fin r)
  = (- Fin (tailNum (sqrt (-2 * ln (1 - r))))
     / Fin (tailDen (sqrt (-2 * ln (1 - r)))))%num.
Proof.
  intros H. pose proof p_low_val as Hp.
  unfold probit. rewrite probit_inside_tests by lra. cbv zeta.
  rewrite !lit_Fin, ltb_Fin, !sub_Fin, leb_Fin, Q2R_1.
  replace (Rltb r (Q2R 0.02425)) with false by (symmetry; apply Rltb_false; lra).
  replace (Rleb r (1 - Q2R 0.02425)) with false by (symmetry; apply Rleb_false; lra).
  rewrite log_Fin by lra.
  assert (Hln : ln (1 - r) < 0) by (rewrite <- ln_1; apply ln_increasing; lra).
  rewrite !neg_Fin, mul_Fin. cbn [Math_sqrt xreal_number xsqrt].
  rewrite Q2R_2, Rsign_pos by lra.
  reflexivity.
Qed.

Lemma Rsign_opp x : Rsign (- x) = CompOpp (Rsign x).
Proof.
  unfold Rsign.
  destruct (total_order_T x 0) as [[H|H]|H],
           (total_order_T (- x) 0) as [[H'|H']|H']; simpl; auto; lra.
Qed.

(** A quotient changes sign with its dividend, whatever the two are. *)
Lemma xdiv_neg_l a d : xdiv (xneg a) d = xneg (xdiv a d).
Proof.
  destruct a as [x| | |], d as [y| | |]; simpl; auto.
  - rewrite Rsign_opp.
    destruct (Rsign y); destruct (Rsign x); simpl; auto; f_equal; lra.
  - f_equal; lra.
  - f_equal; lra.
  - destruct (Rsign y); reflexivity.
  - destruct (Rsign y); reflexivity.
Qed.

Lemma xneg_involutive a : xneg (xneg a) = a.
Proof. destruct a; simpl; auto. f_equal. lra. Qed.

Lemma centerNum_odd q : centerNum (- q) = - centerNum q.
Proof. unfold centerNum. ring. Qed.

Lemma centerDen_even q : centerDen (- q) = centerDen q.
Proof. unfold centerDen. ring. Qed.

(** The mirror image of a finite argument. *)
Lemma probit_Fin_mirror (r : R) : probit (Fin (1 - r)) = xneg (probit (Fin r)).
Proof.
  pose proof p_low_val as Hp. pose proof Q2R_half as Hh.
  destruct (Rle_dec r 0) as [H0|H0].
  { rewrite !probit_outside by lra. cbn [xneg]. f_equal. lra. }
  destruct (Rle_dec 1 r) as [H1|H1].
  { rewrite !probit_outside by lra. cbn [xneg]. f_equal. lra. }
  destruct (Rlt_dec r (Q2R 0.02425)) as [Hl|Hl].
  { rewrite (probit_lower r), (probit_upper (1 - r)) by lra.
    replace (1 - (1 - r)) with r by ring.
    apply xdiv_neg_l. }
  destruct (Rle_dec r (1 - Q2R 0.02425)) as [Hc|Hc].
  { rewrite (probit_center r), (probit_center (1 - r)) by lra.
    replace (1 - r - Q2R 0.5) with (- (r - Q2R 0.5)) by (rewrite Hh; lra).
    rewrite centerNum_odd, centerDen_even, <- neg_Fin.
    apply xdiv_neg_l. }
  rewrite (probit_lower (1 - r)), (probit_upper r) by lra.
  change (xdiv (Fin (tailNum (sqrt (-2 * ln (1 - r)))))
               (Fin (tailDen (sqrt (-2 * ln (1 - r)))))
          = xneg (xdiv (xneg (Fin (tailNum (sqrt (-2 * ln (1 - r))))))
                       (Fin (tailDen (sqrt (-2 * ln (1 - r))))))).
  rewrite xdiv_neg_l, xneg_involutive. reflexivity.
Qed.

(** X1: the quantile function is odd around 1/2: for every number [p], the
    infinities and [NaN] included, [probit (1 - p)] is [- probit p].  Outside
    the open unit interval both are 0. *)
Theorem probit_antisymmetric (p : xreal) :
  probit ($1 - p)%num = (- probit p)%num.
Proof.
  destruct p as [r| | |].
  - rewrite lit_Fin, sub_Fin, Q2R_1. apply probit_Fin_mirror.
  - change (probit ($1 - PInf)%num) with (Fin (Q2R 0)).
    change (probit PInf) with (Fin (Q2R 0)).
    rewrite neg_Fin, Q2R_0. f_equal. lra.
  - change (probit ($1 - NInf)%num) with (Fin (Q2R 0)).
    change (probit NInf) with (Fin (Q2R 0)).
    rewrite neg_Fin, Q2R_0. f_equal. lra.
  - reflexivity.
Qed.

(** * The productivity sample *)

Lemma nth_map_seq {A : Type} (f : nat -> A) (n i : nat) (d : A) :
  (i < n)%nat -> nth i (map f (seq 0 n)) d = f i.
Proof.
  intros Hi. rewrite (nth_indep _ d (f 0%nat)) by (rewrite length_map, length_seq; exact Hi).
  rewrite map_nth, seq_nth by exact Hi. reflexivity.
Qed.

Lemma quantile_Fin (i : nat) :
  ((ofNat i + $0.5) / ofNat AGENTS_COUNT)%num = Fin ((INR i + Q2R 0.5) / 1000).
Proof.
  rewrite !ofNat_Fin, lit_Fin, add_Fin, INR_AGENTS_COUNT, div_Fin by lra.
  reflexivity.
Qed.

Lemma Q2R_centerDenQ q : Q2R (centerDenQ q) = centerDen (Q2R q).
Proof.
  unfold centerDenQ, centerDen.
  set (b1 := 5.447609879822406e+01%Q). set (b2 := 1.615858368580409e+02%Q).
  set (b3 := 1.556989798598866e+02%Q). set (b4 := 6.680131188771972e+01%Q).
  set (b5 := 1.328068155288572e+01%Q). clearbody b1 b2 b3 b4 b5.
  repeat (rewrite Q2R_plus || rewrite Q2R_mult || rewrite Q2R_opp).
  rewrite Q2R_1. reflexivity.
Qed.

Lemma Q2R_centredQuantileQ i :
  Q2R (centredQuantileQ i) = (INR i + Q2R 0.5) / 1000 - Q2R 0.5.
Proof.
  unfold centredQuantileQ.
  rewrite Q2R_minus, Q2R_div, Q2R_plus, !Q2R_inject_Z, INR_IZR_INZ.
  - reflexivity.
  - intros H. discriminate H.
Qed.

Lemma centerDenPositive_spec (l : list nat) :
  centerDenPositive l = true ->
  forall i, In i l -> (0 < centerDenQ (centredQuantileQ i))%Q.
Proof.
  unfold centerDenPositive. rewrite forallb_forall. intros H i Hi.
  specialize (H i Hi). apply negb_true_iff in H.
  apply Qnot_le_lt. intros Hle. apply Qle_bool_iff in Hle. congruence.
Qed.

Lemma centerDen_at_households : centerDenPositive (seq 24 952) = true.
Proof. vm_compute. reflexivity. Qed.

Lemma centerDen_pos_at i : (24 <= i < 976)%nat ->
  0 < centerDen ((INR i + Q2R 0.5) / 1000 - Q2R 0.5).
Proof.
  intros Hi.
  rewrite <- Q2R_centredQuantileQ, <- Q2R_centerDenQ, <- Q2R_0.
  apply Qlt_Rlt.
  apply (centerDenPositive_spec _ centerDen_at_households).
  apply in_seq. lia.
Qed.

Lemma constant_pos (q : Q) : (0 < q)%Q -> 0 < Q2R q.
Proof. intros H. rewrite <- Q2R_0. apply Qlt_Rlt. exact H. Qed.

Lemma tailDen_pos q : 0 <= q -> 0 < tailDen q.
Proof.
  intros Hq. unfold tailDen.
  assert (H1 : 0 < Q2R 7.784695709041462e-03) by (apply constant_pos; reflexivity).
  assert (H2 : 0 < Q2R 3.224671290700398e-01) by (apply constant_pos; reflexivity).
  assert (H3 : 0 < Q2R 2.445134137142996e+00) by (apply constant_pos; reflexivity).
  assert (H4 : 0 < Q2R 3.754408661907416e+00) by (apply constant_pos; reflexivity).
  assert (Hstep : forall a c, 0 < a -> 0 < c -> 0 < a * q + c).
  { intros a c Ha Hc. pose proof (Rmult_le_pos a q). lra. }
  apply Hstep; [|lra]. apply Hstep; [|lra]. apply Hstep; [|lra].
  apply Hstep; lra.
Qed.

Lemma INR_between (i : nat) (a b : Z) :
  (a <= Z.of_nat i <= b)%Z -> IZR a <= INR i <= IZR b.
Proof. intros H. rewrite INR_IZR_INZ. split; apply IZR_le; lia. Qed.

(** At the quantile of every household the probit is a finite number. *)
Lemma probit_finite_at i : (i < AGENTS_COUNT)%nat ->
  exists z : R, probit (Fin ((INR i + Q2R 0.5) / 1000)) = Fin z.
Proof.
  unfold AGENTS_COUNT. intros Hi.
  pose proof p_low_val as Hp. pose proof Q2R_half as Hh.
  assert (Hr : 0 <= INR i <= 999) by (apply (INR_between i 0 999); lia).
  destruct (Nat.lt_ge_cases i 24) as [Hlo|Hlo].
  - assert (0 <= INR i <= 23) by (apply (INR_between i 0 23); lia).
    rewrite probit_lower by lra.
    rewrite div_Fin by (apply Rgt_not_eq, tailDen_pos, sqrt_pos).
    eexists. reflexivity.
  - destruct (Nat.lt_ge_cases i 976) as [Hmid|Hhi].
    + assert (24 <= INR i <= 975) by (apply (INR_between i 24 975); lia).
      rewrite probit_center by lra.
      rewrite div_Fin by (apply Rgt_not_eq, centerDen_pos_at; lia).
      eexists. reflexivity.
    + assert (976 <= INR i <= 999) by (apply (INR_between i 976 999); lia).
      rewrite probit_upper by lra.
      rewrite neg_Fin, div_Fin by (apply Rgt_not_eq, tailDen_pos, sqrt_pos).
      eexists. reflexivity.
Qed.

(** For a finite [inequality] every productivity is a finite positive
    number. *)
Lemma productivities_finite_at (params : ModelParams xreal) (s : R) (i : nat) :
  inequality params = Fin s -> (i < AGENTS_COUNT)%nat ->
  exists x : R, nth i (productivities params) NaN = Fin x /\ 0 < x.
Proof.
  intros Hs Hi. destruct (probit_finite_at i Hi) as [z Hz].
  unfold productivities. rewrite nth_map_seq by exact Hi.
  cbv zeta. rewrite quantile_Fin, Hs, Hz.
  exists (exp (s * z)). split; [reflexivity|apply exp_pos].
Qed.

(** X2: the productivity sample is symmetric in logs.  In exact
    arithmetic, for a finite [inequality], the productivities of the
    households [i] and [999 - i] are finite, positive and reciprocal of each
    other.  (Doubles round [probit] and [Math.exp], and [Math.exp] can
    overflow or underflow: the statement is not about them.) *)
Theorem productivities_reciprocal (params : ModelParams xreal) (s : R) (i : nat) :
  inequality params = Fin s -> (i < AGENTS_COUNT)%nat ->
  exists a b : R,
    nth i (productivities params) NaN = Fin a
    /\ nth (AGENTS_COUNT - 1 - i) (productivities params) NaN = Fin b
    /\ 0 < a /\ a * b = 1.
Proof.
  intros Hs Hi. pose proof Q2R_half as Hh.
  destruct (probit_finite_at i Hi) as [z Hz].
  unfold productivities.
  rewrite !nth_map_seq by (unfold AGENTS_COUNT in *; lia).
  cbv zeta. rewrite !quantile_Fin, Hs.
  replace ((INR (AGENTS_COUNT - 1 - i) + Q2R 0.5) / 1000)
    with (1 - (INR i + Q2R 0.5) / 1000).
  - rewrite probit_Fin_mirror, Hz.
    exists (exp (s * z)), (exp (s * - z)).
    split; [reflexivity|]. split; [reflexivity|].
    split; [apply exp_pos|].
    rewrite <- exp_plus, <- exp_0. f_equal. ring.
  - unfold AGENTS_COUNT in *. rewrite !minus_INR by lia. simpl INR at 1. 
    rewrite Hh. change (INR 1) with 1. 
    replace (INR 1000) with 1000 by (symmetry; exact INR_AGENTS_COUNT). lra.
Qed.

Lemma productivities_reciprocal_witness :
  exists a b : R,
    nth 0 (productivities (DEFAULT_PARAMS (num := xreal))) NaN = Fin a
    /\ nth (AGENTS_COUNT - 1 - 0) (productivities (DEFAULT_PARAMS (num := xreal))) NaN
       = Fin b
    /\ 0 < a /\ a * b = 1.
Proof.
  apply (productivities_reciprocal DEFAULT_PARAMS (Q2R 0.4) 0).
  - reflexivity.
  - unfold AGENTS_COUNT. lia.
Defined.

(** * Bids on degenerate inputs *)

Lemma xltb_nan_r a : xltb a XNaN = false.
Proof. destruct a; reflexivity. Qed.

Lemma xadd_nan_r a : xadd a XNaN = XNaN.
Proof. destruct a; reflexivity. Qed.

Lemma xmul_nan_r a : xmul a XNaN = XNaN.
Proof. destruct a; reflexivity. Qed.

Lemma xsub_nan_r a : xsub a XNaN = XNaN.
Proof. unfold xsub. apply xadd_nan_r. Qed.

(** A step that finds the guess unaffordable, or owning at the guess not
    better than renting, moves the upper end and keeps the bid. *)
Lemma bisectStep_rejects (b q y u l h w : xreal) :
  let P_guess := ((l + h) / $2)%num in
  let s0 := ((b * (y - P_guess) - q) / ($1 + b))%num in
  let s_own := if (s0 <? $0)%num then ($0)%num else s0 in
  (y - P_guess - s_own <=? $0)%num = true
  \/ (u <? Math_log (y - P_guess - s_own) + b * Math_log (s_own + q) + ALPHA)%num
     = false ->
  bisectStep b q y u (l, h, w) = (l, P_guess, w).
Proof.
  intros P_guess s0 s_own H. unfold bisectStep. fold P_guess. fold s0. fold s_own.
  destruct (y - P_guess - s_own <=? $0)%num; [reflexivity|].
  destruct H as [H|H]; [discriminate|]. rewrite H. reflexivity.
Qed.

(** Against a renting baseline that is [NaN] no guess is ever accepted. *)
Lemma iter_nan_rent (b q y : xreal) (n : nat) : forall l h w,
  snd (Nat.iter n (bisectStep b q y XNaN) (l, h, w)) = w.
Proof.
  induction n as [|n IH]; intros l h w; [reflexivity|].
  rewrite Nat.iter_succ_r, bisectStep_rejects; [apply IH|].
  right. reflexivity.
Qed.

(** Against a next-period price that is [NaN] no guess is ever accepted. *)
Lemma iter_nan_next (b y u : xreal) (n : nat) : forall l h w,
  snd (Nat.iter n (bisectStep b XNaN y u) (l, h, w)) = w.
Proof.
  induction n as [|n IH]; intros l h w; [reflexivity|].
  rewrite Nat.iter_succ_r, bisectStep_rejects; [apply IH|].
  right. cbv zeta.
  cbn [Math_log sub add mul div ltb neg xreal_number].
  rewrite xsub_nan_r. cbn [xdiv xltb xlog]. rewrite xsub_nan_r.
  cbn [xlog xadd]. apply xltb_nan_r.
Qed.

(** With an income that is an infinity or [NaN], the upper end stays at the
    income and no guess is ever accepted. *)
Lemma iter_nonfinite_income (b q y u : xreal) (n : nat) :
  (forall r, y <> Fin r) ->
  forall (l : R) (w : xreal),
    snd (Nat.iter n (bisectStep b q y u) (Fin l, y, w)) = w.
Proof.
  intros Hy. induction n as [|n IH]; intros l w; [reflexivity|].
  rewrite Nat.iter_succ_r.
  assert (Hg : ((Fin l + y) / $2)%num = y /\ xsub y y = XNaN).
  { rewrite lit_Fin, Q2R_2.
    destruct y as [r| | |]; [exfalso; apply (Hy r); reflexivity| | |];
      cbn; rewrite ?Rsign_pos by lra; auto. }
  destruct Hg as [Hg Hd].
  rewrite bisectStep_rejects; [rewrite Hg; apply IH|].
  right. cbv zeta. rewrite Hg.
  cbn [Math_log sub add mul div ltb neg xreal_number].
  rewrite Hd, xmul_nan_r. cbn [xsub xadd xneg xdiv xltb xlog].
  apply xltb_nan_r.
Qed.

(** With a finite income that is not positive, every guess is unaffordable
    or has no utility. *)
Lemma iter_nonpositive_income (b q u : xreal) (yr : R) (n : nat) :
  yr <= 0 ->
  forall (h : R) (w : xreal), yr <= h <= 0 ->
    snd (Nat.iter n (bisectStep b q (Fin yr) u) (Fin 0, Fin h, w)) = w.
Proof.
  intros Hy. induction n as [|n IH]; intros h w Hh; [reflexivity|].
  rewrite Nat.iter_succ_r.
  assert (Hg : ((Fin 0 + Fin h) / $2)%num = Fin (h / 2)).
  { rewrite add_Fin, lit_Fin, Q2R_2, div_Fin by lra. f_equal. lra. }
  rewrite bisectStep_rejects; [rewrite Hg; apply IH; lra|].
  cbv zeta. rewrite Hg, sub_Fin.
  destruct ((b * Fin (yr - h / 2) - q) / ($1 + b))%num as [x| | |] eqn:E.
  - left. rewrite lit_Fin, Q2R_0, ltb_Fin.
    destruct (Rltb x 0) eqn:Ex.
    + rewrite sub_Fin, leb_Fin. apply Rleb_true. lra.
    + apply Rltb_false in Ex. rewrite sub_Fin, leb_Fin. apply Rleb_true. lra.
  - left. reflexivity.
  - left. rewrite lit_Fin, Q2R_0.
    change ((NInf <? Fin 0)%num) with true. cbv iota.
    rewrite sub_Fin, leb_Fin. apply Rleb_true. lra.
  - right. apply xltb_nan_r.
Qed.

Lemma rentUtility_nan (b : xreal) (yr : R) :
  0 < yr -> ~ finitePositive b -> rentUtility b (Fin yr) = XNaN.
Proof.
  intros Hy Hb. unfold rentUtility. cbv zeta. rewrite lit_Fin, Q2R_1.
  destruct b as [br| | |].
  - rewrite mul_Fin, add_Fin.
    destruct (Rle_dec br 0) as [Hle|Hgt];
      [|exfalso; apply Hb; exists br; split; [reflexivity|lra]].
    destruct (Req_dec_T br 0) as [->|Hne0].
    { rewrite div_Fin by lra.
      replace (0 * yr / (1 + 0)) with 0 by (field; lra).
      rewrite sub_Fin. rewrite log_Fin by lra.
      cbn [Math_log xreal_number xlog mul xmul add xadd].
      rewrite Rsign_zero. reflexivity. }
    destruct (Req_dec_T (1 + br) 0) as [Hm1|Hnm1].
    { cbn [div xreal_number xdiv]. rewrite Hm1, Rsign_zero.
      rewrite Rsign_neg by nra. cbn [infTimes].
      cbn. reflexivity. }
    rewrite div_Fin, sub_Fin by exact Hnm1.
    destruct (Rlt_dec (1 + br) 0) as [Hlt|Hge].
    + assert (Hneg : yr - br * yr / (1 + br) < 0).
      { replace (yr - br * yr / (1 + br)) with (yr * / (1 + br)) by (field; lra).
        pose proof (Rinv_lt_0_compat _ Hlt). nra. }
      cbn [Math_log xreal_number xlog add xadd]. rewrite (Rsign_neg _ Hneg).
      reflexivity.
    + assert (Hpos : 0 < 1 + br) by lra.
      assert (Hneg : br * yr / (1 + br) < 0).
      { pose proof (Rinv_0_lt_compat _ Hpos). unfold Rdiv.
        assert (br * yr < 0) by nra. nra. }
      cbn [Math_log xreal_number xlog mul xmul]. rewrite (Rsign_neg _ Hneg).
      cbn [xmul]. apply xadd_nan_r.
  - cbn. rewrite (Rsign_pos _ Hy). reflexivity.
  - cbn. rewrite (Rsign_pos _ Hy). reflexivity.
  - reflexivity.
Qed.

(** A household without a finite positive income bids 0. *)
Lemma wtp_idle_without_income (b q y : xreal) :
  ~ finitePositive y -> wtpSolver b q y = Fin 0.
Proof.
  intros Hy. unfold wtpSolver, bisect. rewrite <- Q2R_0, <- lit_Fin.
  destruct y as [yr| | |].
  - assert (Hle : yr <= 0).
    { destruct (Rle_dec yr 0) as [H|H]; [exact H|].
      exfalso. apply Hy. exists yr. split; [reflexivity|lra]. }
    rewrite lit_Fin, Q2R_0. apply iter_nonpositive_income; lra.
  - rewrite lit_Fin at 1. apply iter_nonfinite_income. discriminate.
  - rewrite lit_Fin at 1. apply iter_nonfinite_income. discriminate.
  - rewrite lit_Fin at 1. apply iter_nonfinite_income. discriminate.
Qed.

(** X3: in exact arithmetic, the bid is 0 on every degenerate input: an
    income that is not a finite positive number, a discount factor that is
    not a finite positive number, or a next-period price that is [NaN].
    (On doubles [1 + beta] is rounded, to [beta] itself when [beta] is
    large: the statement is not about them.) *)
Theorem wtp_zero_on_degenerate_inputs (b q y : xreal) :
  ~ finitePositive y \/ ~ finitePositive b \/ q = XNaN ->
  wtpSolver b q y = Fin 0.
Proof.
  intros [Hy|[Hb| ->]].
  - apply wtp_idle_without_income, Hy.
  - destruct y as [yr| | |];
      try (apply wtp_idle_without_income; intros [r [E _]]; discriminate E).
    destruct (Rlt_dec 0 yr) as [Hy|Hy].
    + unfold wtpSolver, bisect. rewrite rentUtility_nan by assumption.
      rewrite iter_nan_rent. rewrite lit_Fin, Q2R_0. reflexivity.
    + apply wtp_idle_without_income. intros [r [E Hr]]. injection E as <-. lra.
  - unfold wtpSolver, bisect.
    rewrite iter_nan_next, lit_Fin, Q2R_0. reflexivity.
Qed.

Lemma wtp_zero_on_degenerate_inputs_witness :
  wtpSolver (Fin 0) (Fin 1000) (Fin 2500000) = Fin 0.
Proof.
  apply wtp_zero_on_degenerate_inputs. right. left.
  intros [r [E Hr]]. injection E as <-. lra.
Defined.

(** X4: the bid is a finite non-negative number for every discount factor,
    next-period price and income, the infinities and [NaN] included; it is
    never above a positive income. *)
Theorem wtp_always_finite (b q y : xreal) :
  exists w : R, wtpSolver b q y = Fin w /\ 0 <= w
                /\ (forall r, y = Fin r -> 0 < r -> w <= r).
Proof.
  destruct y as [yr| | |].
  - destruct (Rlt_dec 0 yr) as [Hy|Hy].
    + destruct (bisect_inRange b q yr Hy) as (l & h & w & E & _ & _ & Hw).
      exists w. unfold wtpSolver. rewrite E. split; [reflexivity|].
      split; [lra|]. intros r [= <-] _. lra.
    + exists 0. split; [|split; [lra|intros r [= <-] Hr; lra]].
      apply wtp_idle_without_income. intros [r [E Hr]]. injection E as <-. lra.
  - exists 0. split; [|split; [lra|discriminate]].
    apply wtp_idle_without_income. intros [r [E _]]. discriminate E.
  - exists 0. split; [|split; [lra|discriminate]].
    apply wtp_idle_without_income. intros [r [E _]]. discriminate E.
  - exists 0. split; [|split; [lra|discriminate]].
    apply wtp_idle_without_income. intros [r [E _]]. discriminate E.
Qed.

(** * What the bisection finds *)

(** Owning for free is always better than renting. *)
Lemma accepts_free (b q y : R) : 0 < b -> 0 <= q -> 0 < y -> accepts b q y 0.
Proof.
  intros Hb Hq Hy.
  assert (Hinv : 0 < / (1 + b)) by (apply Rinv_0_lt_compat; lra).
  assert (Hby : 0 < b * y) by nra.
  assert (Hs : 0 < b * y / (1 + b)) by (unfold Rdiv; nra).
  assert (Hc : 0 < y - b * y / (1 + b)).
  { replace (y - b * y / (1 + b)) with (y * / (1 + b)) by (field; lra). nra. }
  apply (accepts_by_plan b q Hb Hq y 0 (b * y / (1 + b))); try lra.
  unfold rentU. rewrite ?Rminus_0_r.
  assert (ln (b * y / (1 + b)) <= ln (b * y / (1 + b) + q))
    by (apply ln_mono; lra).
  nra.
Qed.

Lemma half_above_inverse_e : - (1 / 2) < ln (3 / 4).
Proof.
  assert (H : exp (- (1 / 2)) < 3 / 4).
  { rewrite exp_Ropp. pose proof (exp_ineq1 (1 / 2) ltac:(lra)) as He.
    assert (0 < / exp (1 / 2) < / (3 / 2)).
    { split; [apply Rinv_0_lt_compat; lra|].
      apply Rinv_lt_contravar; nra. }
    lra. }
  rewrite <- (ln_exp (- (1 / 2))). apply ln_increasing; [apply exp_pos|exact H].
Qed.

(** With a discount factor of at most 1, a quarter of the income is a price
    at which owning is better than renting. *)
Lemma accepts_quarter (b q y : R) :
  0 < b <= 1 -> 0 <= q -> 0 < y -> accepts b q y (y / 4).
Proof.
  intros [Hb Hb1] Hq Hy.
  assert (Hinv : 0 < / (1 + b)) by (apply Rinv_0_lt_compat; lra).
  assert (Hby : 0 < b * y) by nra.
  assert (Hs : 0 < b * y / (1 + b)) by (unfold Rdiv; nra).
  assert (Hc : 0 < y / (1 + b)) by (unfold Rdiv; nra).
  pose proof half_above_inverse_e as He.
  apply (accepts_by_plan b q Hb Hq y (y / 4) (3 / 4 * (b * y / (1 + b))));
    try lra.
  - replace (y - y / 4 - 3 / 4 * (b * y / (1 + b)))
      with (3 / 4 * (y / (1 + b))) by (field; lra).
    lra.
  - unfold rentU.
    replace (y - b * y / (1 + b)) with (y / (1 + b)) by (field; lra).
    replace (y - y / 4 - 3 / 4 * (b * y / (1 + b)))
      with (3 / 4 * (y / (1 + b))) by (field; lra).
    rewrite ln_mult by lra.
    assert (ln (3 / 4) + ln (b * y / (1 + b))
            <= ln (3 / 4 * (b * y / (1 + b)) + q)).
    { rewrite <- ln_mult by lra. apply ln_mono; lra. }
    nra.
Qed.

Lemma pow_IZR_pos_15 : 2 ^ 15 = IZR (Z.pow_pos 2 15).
Proof. simpl. lra. Qed.

(** X5: what the 15 halvings find, in exact arithmetic.  For a finite
    positive discount factor and income and a finite non-negative
    next-period price, the bid is a point [k * y / 2^15] of the grid, below
    the income; owning is better than renting at every price up to the bid,
    and at no price from one grid step above it.  (On doubles the guesses
    are rounded and [low + high] can overflow: the statement is not about
    them.) *)
Theorem wtp_brackets_indifference (b q y : R) :
  0 < b -> 0 <= q -> 0 < y ->
  exists k : Z,
    (0 <= k < 2 ^ 15)%Z
    /\ wtpSolver (Fin b) (Fin q) (Fin y) = Fin (y * IZR k / 2 ^ 15)
    /\ (forall P, P <= y * IZR k / 2 ^ 15 -> accepts b q y P)
    /\ (forall P, y * IZR k / 2 ^ 15 + y / 2 ^ 15 <= P -> ~ accepts b q y P).
Proof.
  intros Hb Hq Hy.
  destruct (bisect_bracketed b q y Hb Hq Hy)
    as (l & h & k & E & Hk & Hl & Hh & Hacc & Hrej).
  destruct (bisect_inRange (Fin b) (Fin q) y Hy)
    as (l' & h' & w' & E' & _ & Hh' & _).
  rewrite E in E'. injection E' as <- <- _.
  assert (Hp : 0 < 2 ^ 15) by (apply pow_lt; lra).
  exists k. split; [|split; [|split]].
  - split; [exact Hk|].
    apply lt_IZR. rewrite <- Z.pow_pos_fold, <- pow_IZR_pos_15.
    assert (y * IZR k / 2 ^ 15 + y / 2 ^ 15 <= y) by lra.
    assert (y * (IZR k + 1) <= y * 2 ^ 15).
    { apply (Rmult_le_reg_r (/ 2 ^ 15)); [apply Rinv_0_lt_compat; exact Hp|].
      replace (y * 2 ^ 15 * / 2 ^ 15) with y by (field; lra).
      unfold Rdiv in *. lra. }
    assert (IZR k + 1 <= 2 ^ 15) by nra. lra.
  - unfold wtpSolver. rewrite E, Hl. reflexivity.
  - intros P HP. apply (accepts_cheaper b q Hb Hq y P l Hy); [lra|].
    destruct Hacc as [->|Hacc]; [|exact Hacc].
    apply accepts_free; assumption.
  - intros P HP Hacc'. apply Hrej.
    apply (accepts_cheaper b q Hb Hq y h P Hy); [lra|exact Hacc'].
Qed.

Lemma wtp_brackets_indifference_witness :
  exists k : Z,
    (0 <= k < 2 ^ 15)%Z
    /\ wtpSolver (Fin (3 / 10)) (Fin 1000) (Fin 2500000)
       = Fin (2500000 * IZR k / 2 ^ 15)
    /\ (forall P, P <= 2500000 * IZR k / 2 ^ 15
                  -> accepts (3 / 10) 1000 2500000 P)
    /\ (forall P, 2500000 * IZR k / 2 ^ 15 + 2500000 / 2 ^ 15 <= P
                  -> ~ accepts (3 / 10) 1000 2500000 P).
Proof.
  apply (wtp_brackets_indifference (3 / 10) 1000 2500000); lra.
Defined.

(** X6: in exact arithmetic, with a discount factor in (0, 1], a finite
    non-negative next-period price and a positive income, a household bids
    at least a quarter of its income.  (On doubles [beta * y] can underflow
    to 0: the statement is not about them.) *)
Theorem wtp_at_least_quarter_income (b q y : R) :
  0 < b <= 1 -> 0 <= q -> 0 < y ->
  exists w : R, wtpSolver (Fin b) (Fin q) (Fin y) = Fin w /\ y / 4 <= w.
Proof.
  intros Hb Hq Hy.
  destruct (bisect_bracketed b q y (proj1 Hb) Hq Hy)
    as (l & h & k & E & Hk & Hl & Hh & _ & Hrej).
  exists l. split; [unfold wtpSolver; rewrite E; reflexivity|].
  destruct (Rle_dec (y / 4) l) as [Hle|Hlt]; [exact Hle|].
  exfalso. apply Hrej.
  apply (accepts_cheaper b q (proj1 Hb) Hq y h (y / 4) Hy);
    [|apply accepts_quarter; assumption].
  assert (Hp : 2 ^ 15 = 32768) by (simpl; lra).
  assert (Hkz : (k < 8192)%Z).
  { apply lt_IZR. rewrite Hl, Hp in Hlt. nra. }
  assert (Hk1 : IZR (k + 1) <= 8192) by (apply IZR_le; lia).
  rewrite plus_IZR in Hk1.
  replace h with (y * (IZR k + 1) / 2 ^ 15) by (rewrite Hp in *; lra).
  rewrite Hp. nra.
Qed.

Lemma wtp_at_least_quarter_income_witness :
  exists w : R,
    wtpSolver (Fin (3 / 10)) (Fin 1000) (Fin 2500000) = Fin w /\ 2500000 / 4 <= w.
Proof.
  apply (wtp_at_least_quarter_income (3 / 10) 1000 2500000); lra.
Defined.

(** * The units on offer *)

(** The units on offer are an integer of at most 1000, or [-Infinity], or
    [NaN]. *)
Lemma housesAvailable_cases (H N_ : xreal) :
  (exists k : Z, (k <= 1000)%Z /\ housesAvailable H N_ = Fin (IZR k))
  \/ housesAvailable H N_ = NInf \/ housesAvailable H N_ = XNaN.
Proof.
  unfold housesAvailable, supplyRatio.
  rewrite ofNat_Fin, lit_Fin, Q2R_1, INR_AGENTS_COUNT.
  assert (Hmin : (exists r, r <= 1 /\ Math_min (Fin 1) (H / N_)%num = Fin r)
                 \/ Math_min (Fin 1) (H / N_)%num = NInf
                 \/ Math_min (Fin 1) (H / N_)%num = XNaN).
  { destruct (H / N_)%num as [x| | |]; cbn; auto.
    - left. exists (Rmin 1 x). split; [apply Rmin_l|reflexivity].
    - left. exists 1. split; [lra|reflexivity]. }
  destruct Hmin as [(r & Hr & ->)|[->| ->]].
  - left. rewrite mul_Fin. cbn [Math_floor xreal_number xfloor].
    exists (Zfloor (r * 1000)). split; [|reflexivity].
    apply Z.lt_succ_r. apply lt_IZR.
    pose proof (Zfloor_bound (r * 1000)) as [Hlo _].
    rewrite succ_IZR. lra.
  - right. left. cbn. rewrite Rsign_pos by lra. reflexivity.
  - right. right. reflexivity.
Qed.

Lemma readAt_nat (a : list xreal) (n : nat) :
  readAt a (Fin (INR n)) = nth n a XNaN.
Proof. unfold readAt. cbn [toIndex xreal_number]. rewrite toIndex_nat. reflexivity. Qed.

(** X7: the clearing rule on a full cross-section.  Whatever the stock and
    the population are, the units on offer never exceed the 1000 households:
    the index [housesAvailable - 1] is never clamped, and the price is 0 (no
    unit on offer) or the entry [housesAvailable - 1] of the sorted bids. *)
Theorem clearing_index_is_never_clamped (H N_ : xreal) (wtps : list xreal) :
  List.length wtps = AGENTS_COUNT ->
  (housesAvailable H N_ - $1 >=? ofNat (List.length wtps))%num = false
  /\ (((housesAvailable H N_ >? $0)%num = false
       /\ newPrice wtps (housesAvailable H N_) = Fin 0)
      \/ (exists i : nat,
            (i < AGENTS_COUNT)%nat
            /\ housesAvailable H N_ = Fin (INR i + 1)
            /\ newPrice wtps (housesAvailable H N_) = nth i wtps NaN)).
Proof.
  intros Hlen. unfold newPrice. rewrite Hlen.
  rewrite ofNat_Fin, INR_AGENTS_COUNT, !lit_Fin, Q2R_0, Q2R_1.
  destruct (housesAvailable_cases H N_) as [(k & Hk & ->)|[->| ->]].
  - rewrite sub_Fin, leb_Fin, ltb_Fin.
    assert (Hk' : IZR k <= 1000) by (apply IZR_le; exact Hk).
    replace (Rleb 1000 (IZR k - 1)) with false by (symmetry; apply Rleb_false; lra).
    split; [reflexivity|].
    destruct (Rltb 0 (IZR k)) eqn:E.
    + right. apply Rltb_true, lt_IZR in E.
      exists (Z.to_nat (k - 1)).
      assert (HI : INR (Z.to_nat (k - 1)) = IZR k - 1).
      { rewrite INR_IZR_INZ, Z2Nat.id, minus_IZR by lia. reflexivity. }
      split; [unfold AGENTS_COUNT; lia|]. split; [f_equal; lra|].
      rewrite <- HI. apply readAt_nat.
    + left. split; reflexivity.
  - split; [reflexivity|]. left. split; reflexivity.
  - split; [reflexivity|]. left. split; reflexivity.
Qed.

Lemma clearing_index_is_never_clamped_witness :
  (housesAvailable (Fin 5000) (Fin 1250) - $1 >=? ofNat (List.length unitBids))%num
  = false
  /\ (((housesAvailable (Fin 5000) (Fin 1250) >? $0)%num = false
       /\ newPrice unitBids (housesAvailable (Fin 5000) (Fin 1250)) = Fin 0)
      \/ (exists i : nat,
            (i < AGENTS_COUNT)%nat
            /\ housesAvailable (Fin 5000) (Fin 1250) = Fin (INR i + 1)
            /\ newPrice unitBids (housesAvailable (Fin 5000) (Fin 1250))
               = nth i unitBids NaN)).
Proof.
  apply (clearing_index_is_never_clamped (Fin 5000) (Fin 1250) unitBids).
  apply repeat_length.
Defined.

(** * Prices are finite, not negative and bounded by incomes *)

Lemma wtp_finite_nonneg (b q y : xreal) :
  exists w : R, wtpSolver b q y = Fin w /\ 0 <= w <= Rmax 0 (finitePart y).
Proof.
  assert (Hidle : ~ finitePositive y ->
                  exists w : R, wtpSolver b q y = Fin w
                                /\ 0 <= w <= Rmax 0 (finitePart y)).
  { intros Hy. exists 0. split; [apply wtp_idle_without_income, Hy|].
    split; [lra|apply Rmax_l]. }
  destruct y as [yr| | |];
    try (apply Hidle; intros [r [E _]]; discriminate E).
  destruct (Rlt_dec 0 yr) as [Hy|Hy].
  - destruct (bisect_inRange b q yr Hy) as (l & h & w & E & _ & _ & Hw).
    exists w. unfold wtpSolver. rewrite E. split; [reflexivity|].
    cbn [finitePart]. pose proof (Rmax_r 0 yr). lra.
  - apply Hidle. intros [r [E Hr]]. injection E as <-. lra.
Qed.

Lemma fold_Rmax_bounds (l : list R) :
  0 <= fold_right Rmax 0 l /\ forall x, In x l -> x <= fold_right Rmax 0 l.
Proof.
  induction l as [|e l [IH0 IH]]; cbn [fold_right].
  - split; [lra|intros x []].
  - split.
    + pose proof (Rmax_r e (fold_right Rmax 0 l)). lra.
    + intros x [<-|Hx]; [apply Rmax_l|].
      pose proof (Rmax_r e (fold_right Rmax 0 l)). specialize (IH x Hx). lra.
Qed.

Lemma largestIncome_bounds (params : ModelParams xreal) prods t :
  0 <= largestIncome params prods t
  /\ forall i, (i < AGENTS_COUNT)%nat ->
       finitePart (A_t params t * nth i prods NaN)%num <= largestIncome params prods t.
Proof.
  unfold largestIncome.
  destruct (fold_Rmax_bounds
              (map (fun i => finitePart (A_t params t * nth i prods NaN)%num)
                   (seq 0 AGENTS_COUNT))) as [H0 H].
  split; [exact H0|]. intros i Hi. apply H.
  apply in_map_iff. exists i. split; [reflexivity|]. apply in_seq. lia.
Qed.

(** The bids of a cross-section are finite, not negative and at most the
    largest income. *)
Lemma wtpsOf_finite (params : ModelParams xreal) prods t P_next :
  exists ws : list R,
    wtpsOf params prods t P_next = map Fin ws
    /\ List.length ws = AGENTS_COUNT
    /\ Forall (fun w => 0 <= w <= largestIncome params prods t) ws
    /\ forall w, In w ws ->
         exists i, (i < AGENTS_COUNT)%nat
                   /\ wtpSolver (beta params) P_next (A_t params t * nth i prods NaN)%num
                      = Fin w.
Proof.
  exists (map finitePart (wtpsOf params prods t P_next)).
  unfold wtpsOf. rewrite !map_map. split; [|split; [|split]].
  - apply map_ext. intros i.
    destruct (wtp_finite_nonneg (beta params) P_next
                (A_t params t * nth i prods NaN)%num) as (w & -> & _).
    reflexivity.
  - rewrite length_map, length_seq. reflexivity.
  - apply Forall_forall. intros w Hw. apply in_map_iff in Hw.
    destruct Hw as (i & <- & Hi). apply in_seq in Hi.
    destruct (wtp_finite_nonneg (beta params) P_next
                (A_t params t * nth i prods NaN)%num) as (w & -> & Hw).
    cbn [finitePart].
    destruct (largestIncome_bounds params prods t) as [H0 Hmax].
    specialize (Hmax i ltac:(lia)).
    split; [lra|]. destruct Hw as [_ Hw]. revert Hw. apply Rmax_case_strong; lra.
  - intros w Hw. apply in_map_iff in Hw. destruct Hw as (i & <- & Hi).
    apply in_seq in Hi. exists i. split; [lia|].
    destruct (wtp_finite_nonneg (beta params) P_next
                (A_t params t * nth i prods NaN)%num) as (w & -> & _).
    reflexivity.
Qed.

(** The price the rule draws from non-empty finite bids, for the units of
    any stock and population, is 0 or one of the bids. *)
Lemma newPrice_of_bids (s : list R) (H N_ : xreal) :
  s <> [] ->
  exists p : R, newPrice (map Fin s) (housesAvailable H N_) = Fin p
                /\ (p = 0 \/ In p s).
Proof.
  intros Hs.
  destruct (housesAvailable_cases H N_) as [(k & Hk & ->)|[->| ->]].
  - rewrite newPrice_Fin by exact Hs.
    destruct (k <=? 0)%Z eqn:E.
    + exists 0. split; [reflexivity|left; reflexivity].
    + apply Z.leb_gt in E. eexists. split; [reflexivity|]. right.
      apply nth_In.
      assert (0 < List.length s)%nat by (destruct s; simpl; [congruence|lia]).
      lia.
  - exists 0. split; [|left; reflexivity].
    unfold newPrice. rewrite !lit_Fin, Q2R_0. reflexivity.
  - exists 0. split; [|left; reflexivity].
    unfold newPrice. rewrite !lit_Fin, Q2R_0. reflexivity.
Qed.

(** X8: the price proposed for a period is a finite number that is not
    negative, for every configuration, path and period: it is 0 or the bid
    of one of the households. *)
Theorem proposed_price_is_zero_or_a_bid
  (params : ModelParams xreal) (prods : list xreal) (t : nat) (P_next : xreal) :
  exists p : R,
    proposedPrice params prods t P_next = Fin p /\ 0 <= p
    /\ (p = 0
        \/ exists i : nat,
             (i < AGENTS_COUNT)%nat
             /\ wtpSolver (beta params) P_next (A_t params t * nth i prods NaN)%num
                = Fin p).
Proof.
  destruct (wtpsOf_finite params prods t P_next) as (ws & E & Hlen & Hpos & Hbid).
  unfold proposedPrice. rewrite E, sortBy_Fin.
  assert (Hne : sortDesc ws <> []).
  { apply sortDesc_nonempty. intros ->. discriminate Hlen. }
  destruct (newPrice_of_bids (sortDesc ws) (H_t params t) (N_t params t) Hne)
    as (p & -> & Hp).
  exists p. split; [reflexivity|].
  destruct Hp as [->|Hin].
  - split; [lra|left; reflexivity].
  - apply (Permutation_in _ (Permutation_sym (sortDesc_perm ws))) in Hin.
    split; [|right; apply Hbid, Hin].
    rewrite Forall_forall in Hpos. apply Hpos, Hin.
Qed.

Lemma proposedPrice_finite (params : ModelParams xreal) prods t P_next :
  exists p : R, proposedPrice params prods t P_next = Fin p
                /\ 0 <= p <= largestIncome params prods t.
Proof.
  destruct (wtpsOf_finite params prods t P_next) as (ws & E & Hlen & Hpos & _).
  unfold proposedPrice. rewrite E, sortBy_Fin.
  assert (Hne : sortDesc ws <> []).
  { apply sortDesc_nonempty. intros ->. discriminate Hlen. }
  destruct (newPrice_of_bids (sortDesc ws) (H_t params t) (N_t params t) Hne)
    as (p & -> & [->|Hin]); eexists; (split; [reflexivity|]).
  - destruct (largestIncome_bounds params prods t) as [H0 _]. lra.
  - apply (Permutation_in _ (Permutation_sym (sortDesc_perm ws))) in Hin.
    rewrite Forall_forall in Hpos. apply Hpos, Hin.
Qed.

(** The paths whose nine non-terminal entries are finite, not negative and
    at most the larger of [s] and the largest income of their period are
    kept by a pass, so by the solver. *)
Lemma iteration_keeps_bounds (params : ModelParams xreal) prods prices (s : R) :
  List.length prices = SIMULATION_STEPS ->
  (forall t, (t < SIMULATION_STEPS - 1)%nat ->
     exists p, nth t prices NaN = Fin p
               /\ 0 <= p <= Rmax s (largestIncome params prods t)) ->
  forall t, (t < SIMULATION_STEPS - 1)%nat ->
    exists p, nth t (fst (iteration params prods prices)) NaN = Fin p
              /\ 0 <= p <= Rmax s (largestIncome params prods t).
Proof.
  intros Hlen Hpos t Ht.
  rewrite iteration_nth by (rewrite ?Hlen; unfold SIMULATION_STEPS in *; lia).
  unfold blend. destruct (Hpos t Ht) as (p & -> & Hp).
  destruct (proposedPrice_finite params prods t (nth (t + 1) prices NaN))
    as (p' & -> & Hp').
  rewrite lit_Fin, !mul_Fin, add_Fin. eexists. split; [reflexivity|].
  rewrite Q2R_half.
  pose proof (Rmax_r s (largestIncome params prods t)). lra.
Qed.

Lemma solve_keeps_bounds (params : ModelParams xreal) prods (s : R) n :
  forall prices,
  List.length prices = SIMULATION_STEPS ->
  (forall t, (t < SIMULATION_STEPS - 1)%nat ->
     exists p, nth t prices NaN = Fin p
               /\ 0 <= p <= Rmax s (largestIncome params prods t)) ->
  forall t, (t < SIMULATION_STEPS - 1)%nat ->
    exists p, nth t (solve params prods n prices) NaN = Fin p
              /\ 0 <= p <= Rmax s (largestIncome params prods t).
Proof.
  induction n as [|n IH]; intros prices Hlen Hpos t Ht; [apply Hpos, Ht|].
  rewrite solve_S.
  destruct (snd (iteration params prods prices) <? $0.01)%num.
  - apply iteration_keeps_bounds; assumption.
  - apply IH; [rewrite iteration_length; exact Hlen| |exact Ht].
    apply iteration_keeps_bounds; assumption.
Qed.

Lemma equilibriumPrices_bounds (params : ModelParams xreal) (s : R) :
  (initialTech params * initialPop params * $0.1)%num = Fin s -> 0 <= s ->
  forall t, (t < SIMULATION_STEPS - 1)%nat ->
    exists p, nth t (equilibriumPrices params (productivities params)) NaN = Fin p
              /\ 0 <= p <= Rmax s (largestIncome params (productivities params) t).
Proof.
  intros Hseed Hs. unfold equilibriumPrices. apply solve_keeps_bounds.
  - rewrite initialPrices_eq. apply repeat_length.
  - intros t Ht. rewrite initialPrices_eq, Hseed. exists s.
    split; [apply nth_repeat_lt; unfold SIMULATION_STEPS in *; lia|].
    split; [exact Hs|apply Rmax_l].
Qed.

(** X9: when the seed [s = initialTech * initialPop * 0.1] is a finite
    number that is not negative, the [housePrice] of each of the three
    records is a finite number between 0 and the larger of [s] and the
    largest income of its period, whatever the other parameters are. *)
Theorem house_prices_are_bounded (params : ModelParams xreal) (s : R) :
  (initialTech params * initialPop params * $0.1)%num = Fin s -> 0 <= s ->
  Forall2 (fun r t =>
             exists p : R,
               housePrice r = Fin p
               /\ 0 <= p <= Rmax s (largestIncome params (productivities params) t))
          (simulate params) [0%nat; 1%nat; 2%nat].
Proof.
  intros Hseed Hs.
  pose proof (equilibriumPrices_bounds params s Hseed Hs) as H.
  rewrite simulate_eq. unfold SIMULATION_STEPS in H.
  repeat constructor; cbn [generation housePrice]; apply H; lia.
Qed.

Lemma house_prices_are_bounded_witness :
  Forall2 (fun r t =>
             exists p : R,
               housePrice r = Fin p
               /\ 0 <= p <= Rmax (Q2R 2500000 * Q2R 1000 * Q2R 0.1)
                                 (largestIncome DEFAULT_PARAMS
                                    (productivities DEFAULT_PARAMS) t))
          (simulate (DEFAULT_PARAMS (num := xreal))) [0%nat; 1%nat; 2%nat].
Proof.
  apply (house_prices_are_bounded DEFAULT_PARAMS
           (Q2R 2500000 * Q2R 1000 * Q2R 0.1)).
  - reflexivity.
  - unfold Q2R. simpl. lra.
Defined.

(** X10: when the stock of a period covers its population the price
    proposed is the lowest bid.  Every household is offered a unit, the rule
    reads the last entry of the sorted bids, and no household bids less. *)
Theorem full_supply_price_is_the_lowest_bid
  (params : ModelParams xreal) (prods : list xreal) (t : nat) (P_next : xreal)
  (h n : R) :
  H_t params t = Fin h -> N_t params t = Fin n -> 0 < n <= h ->
  exists p : R,
    proposedPrice params prods t P_next = Fin p
    /\ (exists i : nat,
          (i < AGENTS_COUNT)%nat
          /\ wtpSolver (beta params) P_next (A_t params t * nth i prods NaN)%num
             = Fin p)
    /\ (forall i : nat, (i < AGENTS_COUNT)%nat ->
          exists w : R,
            wtpSolver (beta params) P_next (A_t params t * nth i prods NaN)%num
            = Fin w /\ p <= w).
Proof.
  intros HH HN Hn.
  destruct (wtpsOf_finite params prods t P_next) as (ws & E & Hlen & _ & Hbid).
  assert (Hne : sortDesc ws <> []).
  { apply sortDesc_nonempty. intros ->. discriminate Hlen. }
  assert (Hslen : List.length (sortDesc ws) = 1000%nat)
    by (rewrite sortDesc_length; exact Hlen).
  unfold proposedPrice. rewrite E, sortBy_Fin, HH, HN, housesAvailable_Fin by lra.
  replace (Rmin 1 (h / n) * 1000) with (IZR 1000).
  2:{ rewrite Rmin_left; [lra|].
      apply (Rmult_le_reg_r n); [lra|].
      unfold Rdiv. rewrite Rmult_assoc, Rinv_l by lra. lra. }
  rewrite ZfloorZ, newPrice_Fin, Hslen by exact Hne.
  cbn [Z.leb Z.compare Z.min Z.of_nat Pos.of_succ_nat].
  change (Z.to_nat (Z.min 1000 (Z.of_nat 1000)) - 1)%nat with 999%nat.
  exists (nth 999 (sortDesc ws) 0). split; [reflexivity|].
  assert (Hin : In (nth 999 (sortDesc ws) 0) ws).
  { apply (Permutation_in _ (Permutation_sym (sortDesc_perm ws))).
    apply nth_In. rewrite Hslen. lia. }
  split; [apply Hbid, Hin|].
  intros i Hi.
  assert (Hwi : wtpsOf params prods t P_next
                = map (fun i => wtpSolver (beta params) P_next
                                  (A_t params t * nth i prods NaN)%num)
                      (seq 0 AGENTS_COUNT)) by reflexivity.
  assert (Ei : wtpSolver (beta params) P_next (A_t params t * nth i prods NaN)%num
               = Fin (nth i ws 0)).
  { rewrite <- (nth_map_seq (fun i => wtpSolver (beta params) P_next
                                         (A_t params t * nth i prods NaN)%num)
                  AGENTS_COUNT i XNaN Hi).
    rewrite <- Hwi, E.
    rewrite (nth_indep _ _ (Fin 0)) by (rewrite length_map, Hlen; exact Hi).
    apply (map_nth Fin). }
  exists (nth i ws 0). split; [exact Ei|].
  assert (Hin' : In (nth i ws 0) (sortDesc ws)).
  { apply (Permutation_in _ (sortDesc_perm ws)). apply nth_In. lia. }
  apply In_nth with (d := 0) in Hin'. destruct Hin' as (j & Hj & <-).
  apply sorted_nth_ge; [apply sortDesc_sorted|]. rewrite Hslen in *. lia.
Qed.

Lemma full_supply_price_is_the_lowest_bid_witness :
  exists p : R,
    proposedPrice (num := xreal) DEFAULT_PARAMS (productivities DEFAULT_PARAMS) 0
                  (Fin 1000) = Fin p
    /\ (exists i : nat,
          (i < AGENTS_COUNT)%nat
          /\ wtpSolver (beta DEFAULT_PARAMS) (Fin 1000)
               (A_t DEFAULT_PARAMS 0 * nth i (productivities DEFAULT_PARAMS) NaN)%num
             = Fin p)
    /\ (forall i : nat, (i < AGENTS_COUNT)%nat ->
          exists w : R,
            wtpSolver (beta DEFAULT_PARAMS) (Fin 1000)
              (A_t DEFAULT_PARAMS 0 * nth i (productivities DEFAULT_PARAMS) NaN)%num
            = Fin w /\ p <= w).
Proof.
  apply (full_supply_price_is_the_lowest_bid DEFAULT_PARAMS _ 0 (Fin 1000)
           (Q2R 1000 * 1) (Q2R 1000 * 1)).
  - reflexivity.
  - reflexivity.
  - unfold Q2R. simpl. lra.
Defined.

(** * The passes of the solver *)

Section Passes.

Context {num : Type} {N : Number num}.
Local Open Scope num_scope.

Variables (params : ModelParams num) (prods : list num).

Lemma pathAfter_shift k prices :
  pathAfter params prods k (fst (iteration params prods prices))
  = pathAfter params prods (S k) prices.
Proof. unfold pathAfter. symmetry. apply Nat.iter_succ_r. Qed.

Lemma solve_stops n : forall prices,
  exists k : nat,
    (1 <= k <= S n)%nat
    /\ solve params prods (S n) prices = pathAfter params prods k prices
    /\ (forall j, (j + 1 < k)%nat ->
          (snd (iteration params prods (pathAfter params prods j prices)) <? $0.01)
          = false)
    /\ ((k < S n)%nat ->
        (snd (iteration params prods (pathAfter params prods (k - 1) prices)) <? $0.01)
        = true).
Proof.
  induction n as [|n IH]; intros prices; rewrite solve_S.
  - exists 1%nat. split; [lia|]. split.
    + destruct (snd (iteration params prods prices) <? $0.01); reflexivity.
    + split; intros; lia.
  - destruct (snd (iteration params prods prices) <? $0.01) eqn:E.
    + exists 1%nat. split; [lia|]. split; [reflexivity|].
      split; [intros; lia|]. intros _. exact E.
    + destruct (IH (fst (iteration params prods prices)))
        as (k & Hk & Hsolve & Hbefore & Hat).
      exists (S k). split; [lia|]. split; [|split].
      * rewrite Hsolve. apply pathAfter_shift.
      * intros [|j] Hj; [exact E|].
        rewrite <- pathAfter_shift. apply Hbefore. lia.
      * intros Hlt.
        replace (S k - 1)%nat with (S (k - 1))%nat by lia.
        rewrite <- pathAfter_shift. apply Hat. lia.
Qed.

(** X11: the solver makes at least one pass and at most [MAX_ITER] = 20,
    for every arithmetic.  The path it returns is the path after [k]
    passes, where the convergence test failed after each of the first
    [k - 1] passes and, unless [k] is 20, passed after pass [k]. *)
Theorem solver_stops_at_first_converged_pass :
  exists k : nat,
    (1 <= k <= MAX_ITER)%nat
    /\ equilibriumPrices params prods
       = pathAfter params prods k (initialPrices params)
    /\ (forall j, (j + 1 < k)%nat ->
          (snd (iteration params prods
                  (pathAfter params prods j (initialPrices params))) <? $0.01)
          = false)
    /\ ((k < MAX_ITER)%nat ->
        (snd (iteration params prods
                (pathAfter params prods (k - 1) (initialPrices params))) <? $0.01)
        = true).
Proof.
  unfold equilibriumPrices, MAX_ITER.
  destruct (solve_stops 19 (initialPrices params)) as (k & Hk & Hsolve & Hbefore & Hat).
  exists k. split; [exact Hk|]. split; [exact Hsolve|].
  split; [exact Hbefore|exact Hat].
Qed.

End Passes.

(** * The convergence test on the reals *)

Lemma xmax_lt a b c :
  xltb a c = true -> xltb b c = true -> xltb (xmax a b) c = true.
Proof.
  destruct a as [x| | |], b as [y| | |], c as [z| | |]; simpl;
    try discriminate; auto.
  rewrite !Rltb_true. intros Hx Hy. apply Rmax_lub_lt; assumption.
Qed.

Lemma fold_periodUpdate_test (params : ModelParams xreal) prods prices c ts :
  forall st,
    (forall t, In t ts -> (t < List.length (fst st))%nat) ->
    ((snd (fold_left (periodUpdate params prods prices) ts st) <? c)%num = true
     <-> (snd st <? c)%num = true
         /\ forall t, In t ts ->
              (Math_abs (blend params prods prices t - nth t prices NaN) <? c)%num
              = true).
Proof.
  induction ts as [|t0 ts IH]; intros [np md] Hlen.
  - cbn [fold_left]. split; [intros H; split; [exact H|intros t []]|intros [H _]; exact H].
  - cbn [fold_left]. rewrite IH.
    + cbn [periodUpdate snd fst].
      rewrite nth_set_nth_eq by (apply (Hlen t0); left; reflexivity).
      split.
      * intros [Hmax Hrest]. apply xmax_below in Hmax. destruct Hmax as [Hmd Hd].
        split; [exact Hmd|]. intros t [<-|Hin]; [exact Hd|apply Hrest, Hin].
      * intros [Hmd Hall]. split.
        -- apply xmax_lt; [exact Hmd|apply Hall; left; reflexivity].
        -- intros t Hin. apply Hall. right. exact Hin.
    + intros t Hin. cbn [periodUpdate fst]. rewrite length_set_nth.
      apply (Hlen t). right. exact Hin.
Qed.

(** X12: the convergence test of a pass reads the nine non-terminal entries
    and nothing else: it passes exactly when each of the entries 0..8 of the
    new path is within 0.01 of the entry it replaces.  The terminal entry
    is not tested. *)
Theorem convergence_test_reads_nine_changes
  (params : ModelParams xreal) (prods prices : list xreal) :
  List.length prices = SIMULATION_STEPS ->
  ((snd (iteration params prods prices) <? $0.01)%num = true
   <-> forall t : nat, (t < SIMULATION_STEPS - 1)%nat ->
         (Math_abs (nth t (fst (iteration params prods prices)) NaN
                    - nth t prices NaN) <? $0.01)%num = true).
Proof.
  intros Hlen.
  assert (Hnew : forall t, (t < SIMULATION_STEPS - 1)%nat ->
            nth t (fst (iteration params prods prices)) NaN
            = blend params prods prices t).
  { intros t Ht. apply iteration_nth; [exact Ht|].
    rewrite Hlen. unfold SIMULATION_STEPS in *. lia. }
  unfold iteration at 1.
  rewrite fold_periodUpdate_test.
  - cbn [snd]. split.
    + intros [_ H] t Ht. rewrite Hnew by exact Ht. apply H, in_seq. lia.
    + intros H. split.
      * rewrite !lit_Fin. apply Rltb_true. unfold Q2R. simpl. lra.
      * intros t Ht. apply in_seq in Ht. rewrite <- Hnew by lia. apply H. lia.
  - intros t Ht. apply in_seq in Ht. cbn [fst].
    rewrite length_set_nth, Hlen. unfold SIMULATION_STEPS in *. lia.
Qed.

Lemma convergence_test_reads_nine_changes_witness :
  (snd (iteration (num := xreal) DEFAULT_PARAMS (productivities DEFAULT_PARAMS)
          (initialPrices DEFAULT_PARAMS)) <? $0.01)%num = true
  <-> forall t : nat, (t < SIMULATION_STEPS - 1)%nat ->
        (Math_abs
           (nth t (fst (iteration DEFAULT_PARAMS (productivities DEFAULT_PARAMS)
                          (initialPrices DEFAULT_PARAMS))) NaN
            - nth t (initialPrices DEFAULT_PARAMS) NaN) <? $0.01)%num = true.
Proof.
  apply (convergence_test_reads_nine_changes DEFAULT_PARAMS).
  rewrite initialPrices_eq. apply repeat_length.
Defined.

(** X13: a period without a unit.  When no unit is on offer in period 0
    and the seed [s] is a finite number of at least [0.01 * 2^20], none of
    the twenty passes converges: each halves the price of period 0, and the
    first record reports [s / 2^20]. *)
Theorem no_unit_price_is_the_halved_seed (params : ModelParams xreal) (s : R) :
  (housesAvailable (H_t params 0) (N_t params 0) >? $0)%num = false ->
  (initialTech params * initialPop params * $0.1)%num = Fin s ->
  / 100 * 2 ^ 20 <= s ->
  nth 0 (map housePrice (simulate params)) NaN = Fin (s / 2 ^ 20).
Proof.
  intros Hunit Hseed Hs.
  rewrite (@first_price_no_unit xreal xreal_number xmax_below params).
  - unfold seedPrice. rewrite Hseed. apply iter_halved_Fin.
  - exact Hunit.
  - unfold seedPrice. rewrite Hseed. apply staysAbove_Fin. exact Hs.
Qed.

Lemma no_unit_price_is_the_halved_seed_witness :
  nth 0 (map housePrice (simulate (scarceParams (num := xreal)))) NaN
  = Fin (Q2R 2500000 * Q2R 10000 * Q2R 0.1 / 2 ^ 20).
Proof.
  apply (no_unit_price_is_the_halved_seed scarceParams).
  - rewrite housesAvailable_scarce, lit_Fin, Q2R_0. apply Rltb_false. lra.
  - reflexivity.
  - unfold Q2R. simpl. lra.
Defined.

(** * The ranking and the allocation, for every arithmetic *)

Section Ranking.

Context {num : Type} {N : Number num}.
Local Open Scope num_scope.

(** Sorting records by a key orders the keys as sorting the keys does. *)
Lemma insertBy_key {A : Type} (key : A -> num) (cmp : num -> num -> num) x l :
  map key (insertBy (fun a b => cmp (key a) (key b)) x l)
  = insertBy cmp (key x) (map key l).
Proof.
  induction l as [|e r IH]; [reflexivity|].
  cbn [insertBy map]. destruct (cmp (key x) (key e) <? $0); [reflexivity|].
  cbn [map]. rewrite IH. reflexivity.
Qed.

Lemma sortBy_key {A : Type} (key : A -> num) (cmp : num -> num -> num) l :
  map key (sortBy (fun a b => cmp (key a) (key b)) l) = sortBy cmp (map key l).
Proof.
  unfold sortBy.
  change (@nil num) with (map key []). generalize (@nil A).
  induction l as [|x l IH]; intros acc; [reflexivity|].
  cbn [fold_left map]. rewrite IH, insertBy_key. reflexivity.
Qed.

Lemma agentUtilities_allocate params agents numOwners P_t P_next tot i :
  List.length (agentUtilities (allocate params agents numOwners P_t P_next tot i))
  = S (List.length (agentUtilities tot)).
Proof.
  unfold allocate. destruct (ofNat i <? numOwners);
    cbn [agentUtilities]; rewrite length_app; cbn [List.length]; lia.
Qed.

Lemma agentUtilities_fold params agents numOwners P_t P_next l : forall tot,
  List.length
    (agentUtilities (fold_left (allocate params agents numOwners P_t P_next) l tot))
  = (List.length (agentUtilities tot) + List.length l)%nat.
Proof.
  induction l as [|i l IH]; intros tot; cbn [fold_left List.length]; [lia|].
  rewrite IH, agentUtilities_allocate. lia.
Qed.

Lemma agentUtilities_allocation params prods prices t :
  List.length (agentUtilities (allocation params prods prices t)) = AGENTS_COUNT.
Proof. unfold allocation. rewrite agentUtilities_fold, length_seq. reflexivity. Qed.

(** X14: the ranking of the aggregator, for every arithmetic.  The ranked
    agents are the 1000 households, each once; their bids, in rank order,
    are the sorted bids the clearing rule reads for the same next-period
    price; and the allocation loop records one utility per household. *)
Theorem every_household_is_ranked_once
  (params : ModelParams num) (prods prices : list num) (t : nat) :
  Permutation (map agent_i (rankedAgents params prods prices t)) (seq 0 AGENTS_COUNT)
  /\ map agent_wtp (rankedAgents params prods prices t)
     = sortBy (fun a b => b - a) (wtpsOf params prods t (nth (t + 1)%nat prices NaN))
  /\ List.length (agentUtilities (allocation params prods prices t)) = AGENTS_COUNT.
Proof.
  split; [|split].
  - unfold rankedAgents. rewrite <- sortBy_perm.
    unfold agentsOf. rewrite map_map. cbn [agent_i]. rewrite map_id.
    apply Permutation_refl.
  - unfold rankedAgents.
    rewrite (sortBy_key agent_wtp (fun x y => y - x)).
    unfold agentsOf, wtpsOf. rewrite map_map. reflexivity.
  - apply agentUtilities_allocation.
Qed.

End Ranking.

(** * The ranking on the reals *)

Lemma rankedAgents_bids (params : ModelParams xreal) prods prices t :
  exists s : list R,
    map agent_wtp (rankedAgents params prods prices t) = map Fin s
    /\ List.length s = AGENTS_COUNT /\ StronglySorted Rge s.
Proof.
  destruct (wtpsOf_finite params prods t (nth (t + 1) prices NaN))
    as (ws & E & Hlen & _).
  exists (sortDesc ws). split; [|split].
  - unfold rankedAgents.
    rewrite (sortBy_key agent_wtp (fun x y => (y - x)%num)).
    unfold agentsOf. rewrite map_map. cbn [agent_wtp].
    unfold wtpsOf in E. rewrite E. apply sortBy_Fin.
  - rewrite sortDesc_length. exact Hlen.
  - apply sortDesc_sorted.
Qed.

(** X15: owners outbid renters.  For every configuration, path and period
    the bids of the ranked agents are finite and do not increase with the
    rank, so a household that is allocated a unit bid at least as much as
    every household that is not. *)
Theorem bids_do_not_increase_with_rank
  (params : ModelParams xreal) (prods prices : list xreal) (t i j : nat) :
  (i <= j < AGENTS_COUNT)%nat ->
  exists wi wj : R,
    agent_wtp (nth i (rankedAgents params prods prices t) noAgent) = Fin wi
    /\ agent_wtp (nth j (rankedAgents params prods prices t) noAgent) = Fin wj
    /\ wj <= wi.
Proof.
  intros Hij.
  destruct (rankedAgents_bids params prods prices t) as (s & E & Hlen & Hsorted).
  assert (Hnth : forall n, (n < AGENTS_COUNT)%nat ->
            agent_wtp (nth n (rankedAgents params prods prices t) noAgent)
            = Fin (nth n s 0)).
  { intros n Hn.
    rewrite <- (map_nth agent_wtp), E.
    rewrite (nth_indep _ _ (Fin 0)) by (rewrite length_map, Hlen; exact Hn).
    apply (map_nth Fin). }
  exists (nth i s 0), (nth j s 0).
  split; [apply Hnth; lia|]. split; [apply Hnth; lia|].
  apply sorted_nth_ge; [exact Hsorted|]. rewrite Hlen. exact Hij.
Qed.

Lemma bids_do_not_increase_with_rank_witness :
  exists wi wj : R,
    agent_wtp (nth 0 (rankedAgents (num := xreal) DEFAULT_PARAMS
                        (productivities DEFAULT_PARAMS)
                        (initialPrices DEFAULT_PARAMS) 0) noAgent) = Fin wi
    /\ agent_wtp (nth 999 (rankedAgents (num := xreal) DEFAULT_PARAMS
                             (productivities DEFAULT_PARAMS)
                             (initialPrices DEFAULT_PARAMS) 0) noAgent) = Fin wj
    /\ wj <= wi.
Proof.
  apply (bids_do_not_increase_with_rank DEFAULT_PARAMS).
  unfold AGENTS_COUNT. lia.
Defined.

(** * The owners *)

Lemma countOwners_none (numOwners : xreal) l : forall c,
  numOwners = NInf \/ numOwners = XNaN -> countOwners numOwners l c = c.
Proof.
  induction l as [|i l IH]; intros c H; [reflexivity|].
  rewrite countOwners_cons, ofNat_Fin.
  destruct H as [->| ->]; cbn [ltb xreal_number xltb]; apply IH; auto.
Qed.

(** X16: the owners are counted by the unit count alone.  In exact
    arithmetic, for every configuration, path and period, [ownerCount] is
    the unit count [numOwners] that the aggregator computes when that is a
    positive integer (it is at most 1000), and 0 otherwise; [ownershipRate]
    is that count over 1000.  Neither depends on prices, bids or incomes.
    (In exact arithmetic [numOwners] is the exact
    [floor (min (1, H_t / N_t) * 1000)]; doubles round the quotient and the
    product before the floor.) *)
Theorem owner_count_is_the_unit_count
  (params : ModelParams xreal) (prods prices : list xreal) (t : nat) :
  (exists k : Z,
      (k <= 1000)%Z
      /\ numOwnersOf params t = Fin (IZR k)
      /\ ownerCount (allocation params prods prices t) = Fin (IZR (Z.max 0 k))
      /\ ownershipRate (generation params prods prices t)
         = Fin (IZR (Z.max 0 k) / 1000))
  \/ ((numOwnersOf params t = NInf \/ numOwnersOf params t = XNaN)
      /\ ownerCount (allocation params prods prices t) = Fin 0
      /\ ownershipRate (generation params prods prices t) = Fin 0).
Proof.
  cbn [generation ownershipRate].
  rewrite ownerCount_allocation, lit_Fin, Q2R_0, ofNat_Fin, INR_AGENTS_COUNT.
  unfold numOwnersOf.
  destruct (housesAvailable_cases (H_t params t) (N_t params t))
    as [(k & Hk & E)|E].
  - left. exists k. rewrite E, countOwners_seq.
    replace (Z.min (Z.of_nat AGENTS_COUNT) k) with k
      by (unfold AGENTS_COUNT; lia).
    split; [exact Hk|]. split; [reflexivity|]. split; [reflexivity|].
    apply div_Fin. lra.
  - right. rewrite countOwners_none by exact E.
    split; [exact E|]. split; [reflexivity|].
    rewrite div_Fin by lra. f_equal. lra.
Qed.

(** X17: when the stock of a period covers its population, every household
    owns: the ownership rate is 1 and the mean utility of renters is
    [NaN]. *)
Theorem full_supply_leaves_no_renter
  (params : ModelParams xreal) (prods prices : list xreal) (t : nat) (h n : R) :
  H_t params t = Fin h -> N_t params t = Fin n -> 0 < n <= h ->
  ownerCount (allocation params prods prices t) = Fin 1000
  /\ ownershipRate (generation params prods prices t) = Fin 1
  /\ avgUtilityRenters (generation params prods prices t) = XNaN.
Proof.
  intros HH HN Hn.
  assert (Hcount : ownerCount (allocation params prods prices t) = Fin 1000).
  { rewrite ownerCount_allocation, lit_Fin, Q2R_0. unfold numOwnersOf.
    rewrite HH, HN, housesAvailable_Fin by lra.
    replace (Rmin 1 (h / n) * 1000) with (IZR 1000).
    - rewrite ZfloorZ, countOwners_seq. reflexivity.
    - rewrite Rmin_left; [lra|].
      apply (Rmult_le_reg_r n); [lra|].
      unfold Rdiv. rewrite Rmult_assoc, Rinv_l by lra. lra. }
  split; [exact Hcount|].
  cbn [generation ownershipRate avgUtilityRenters].
  rewrite Hcount, ofNat_Fin, INR_AGENTS_COUNT, sub_Fin, lit_Fin, Q2R_0, ltb_Fin.
  split.
  - rewrite div_Fin by lra. f_equal. lra.
  - replace (Rltb 0 (1000 - 1000)) with false; [reflexivity|].
    symmetry. apply Rltb_false. lra.
Qed.

Lemma full_supply_leaves_no_renter_witness :
  ownerCount (allocation (num := xreal) DEFAULT_PARAMS (productivities DEFAULT_PARAMS)
                (initialPrices DEFAULT_PARAMS) 0) = Fin 1000
  /\ ownershipRate (generation (num := xreal) DEFAULT_PARAMS
                      (productivities DEFAULT_PARAMS)
                      (initialPrices DEFAULT_PARAMS) 0) = Fin 1
  /\ avgUtilityRenters (generation (num := xreal) DEFAULT_PARAMS
                          (productivities DEFAULT_PARAMS)
                          (initialPrices DEFAULT_PARAMS) 0) = XNaN.
Proof.
  apply (full_supply_leaves_no_renter DEFAULT_PARAMS _ _ 0
           (Q2R 1000 * 1) (Q2R 1000 * 1)).
  - reflexivity.
  - reflexivity.
  - unfold Q2R. simpl. lra.
Defined.

(** * Totals *)

Lemma xadd_comm a b : xadd a b = xadd b a.
Proof. destruct a, b; simpl; auto. f_equal. lra. Qed.

Lemma xadd_assoc a b c : xadd (xadd a b) c = xadd a (xadd b c).
Proof. destruct a, b, c; simpl; auto. f_equal. lra. Qed.

Lemma xadd_swap a b c : xadd (xadd a b) c = xadd (xadd a c) b.
Proof. rewrite !xadd_assoc. f_equal. apply xadd_comm. Qed.

Lemma totals_split_allocate (params : ModelParams xreal) agents numOwners P_t P_next
  tot i :
  totalUtility tot = xadd (totalUtilityOwners tot) (totalUtilityRenters tot) ->
  totalUtility (allocate params agents numOwners P_t P_next tot i)
  = xadd (totalUtilityOwners (allocate params agents numOwners P_t P_next tot i))
         (totalUtilityRenters (allocate params agents numOwners P_t P_next tot i)).
Proof.
  intros H. unfold allocate.
  destruct (ofNat i <? numOwners)%num;
    cbn [totalUtility totalUtilityOwners totalUtilityRenters];
    rewrite H.
  - apply xadd_swap.
  - apply xadd_assoc.
Qed.

(** X18: the utility total splits by tenure.  In exact arithmetic, for every
    configuration, path and period, [totalUtility] is the sum of
    [totalUtilityOwners] and [totalUtilityRenters], also when some utilities
    are infinite or [NaN]. *)
Theorem utility_total_splits_by_tenure
  (params : ModelParams xreal) (prods prices : list xreal) (t : nat) :
  totalUtility (allocation params prods prices t)
  = (totalUtilityOwners (allocation params prods prices t)
     + totalUtilityRenters (allocation params prods prices t))%num.
Proof.
  unfold allocation.
  generalize (seq 0 AGENTS_COUNT). intros l.
  assert (H0 : totalUtility (noTotals (num := xreal))
               = xadd (totalUtilityOwners noTotals) (totalUtilityRenters noTotals)).
  { cbn. f_equal. lra. }
  revert H0. generalize (noTotals (num := xreal)).
  induction l as [|i l IH]; intros tot H; [exact H|].
  cbn [fold_left]. apply IH. apply totals_split_allocate. exact H.
Qed.

(** * Percentiles *)

Lemma percentile_index (q : Q) (n : nat) :
  Q2R q * 1000 = INR n ->
  (Math_floor ($q * ofNat AGENTS_COUNT))%num = Fin (INR n).
Proof.
  intros H. rewrite lit_Fin, ofNat_Fin, INR_AGENTS_COUNT, mul_Fin, H.
  cbn [Math_floor xreal_number xfloor]. rewrite INR_IZR_INZ, ZfloorZ. reflexivity.
Qed.

(** X19: each reported utility percentile is the utility of a household.
    For every configuration, path and period the three reads are inside the
    sorted utilities, at the indices 250, 500 and 750, and what they return
    is one of the 1000 recorded utilities. *)
Theorem utility_percentiles_are_recorded_utilities
  (params : ModelParams xreal) (prods prices : list xreal) (t : nat) :
  let r := generation params prods prices t in
  let us := agentUtilities (allocation params prods prices t) in
  utilityP25 r = nth 250 (sortBy (fun a b => (a - b)%num) us) NaN
  /\ utilityMedian r = nth 500 (sortBy (fun a b => (a - b)%num) us) NaN
  /\ utilityP75 r = nth 750 (sortBy (fun a b => (a - b)%num) us) NaN
  /\ In (utilityP25 r) us /\ In (utilityMedian r) us /\ In (utilityP75 r) us.
Proof.
  intros r us. subst r. cbn [generation utilityP25 utilityMedian utilityP75].
  fold us.
  assert (Hlen : List.length (sortBy (fun a b => (a - b)%num) us) = 1000%nat).
  { rewrite sortBy_length. unfold us. apply agentUtilities_allocation. }
  clearbody us.
  assert (H25 : Q2R 0.25 * 1000 = INR 250)
    by (rewrite INR_IZR_INZ; unfold Q2R; simpl; lra).
  assert (H50 : Q2R 0.50 * 1000 = INR 500)
    by (rewrite INR_IZR_INZ; unfold Q2R; simpl; lra).
  assert (H75 : Q2R 0.75 * 1000 = INR 750)
    by (rewrite INR_IZR_INZ; unfold Q2R; simpl; lra).
  rewrite (percentile_index _ _ H25), (percentile_index _ _ H50),
    (percentile_index _ _ H75), !readAt_nat.
  change XNaN with (@NaN xreal _).
  assert (Hin : forall n, (n < 1000)%nat ->
            In (nth n (sortBy (fun a b => (a - b)%num) us) NaN) us).
  { intros n Hn.
    apply (Permutation_in _
             (Permutation_sym (sortBy_perm (fun a b => (a - b)%num) us))).
    apply nth_In. rewrite Hlen. exact Hn. }
  split; [reflexivity|]. split; [reflexivity|]. split; [reflexivity|].
  split; [apply Hin; lia|]. split; apply Hin; lia.
Qed.

(** * Ascending order *)

Lemma insertBy_Fin_asc x l :
  insertBy (fun a b => (a - b)%num) (Fin x) (map Fin l) = map Fin (insertAsc x l).
Proof.
  induction l as [|e r IH]; simpl; auto.
  rewrite Q2R_0. destruct (Rltb (x + - e) 0) eqn:E.
  - unfold Rminus. rewrite E. reflexivity.
  - unfold Rminus. rewrite E. simpl. f_equal. exact IH.
Qed.

Lemma sortBy_Fin_asc_acc l : forall acc,
  fold_left (fun acc x => insertBy (fun a b => (a - b)%num) x acc) (map Fin l) (map Fin acc)
  = map Fin (fold_left (fun acc x => insertAsc x acc) l acc).
Proof.
  induction l as [|x l IH]; intros acc; simpl; auto.
  rewrite insertBy_Fin_asc. apply IH.
Qed.

Lemma sortBy_Fin_asc l :
  sortBy (fun a b => (a - b)%num) (map Fin l) = map Fin (sortAsc l).
Proof. exact (sortBy_Fin_asc_acc l []). Qed.

Lemma insertAsc_perm x l : Permutation (x :: l) (insertAsc x l).
Proof.
  induction l as [|e r IH]; simpl; auto.
  destruct (Rltb (x - e) 0); auto.
  rewrite perm_swap. constructor. exact IH.
Qed.

Lemma insertAsc_sorted x l :
  StronglySorted Rle l -> StronglySorted Rle (insertAsc x l).
Proof.
  induction 1 as [|e r Hs IH Hall]; simpl.
  - repeat constructor.
  - destruct (Rltb (x - e) 0) eqn:E.
    + apply Rltb_true in E. constructor; [constructor; assumption|].
      constructor; [lra|].
      eapply Forall_impl; [|exact Hall]. simpl. intros; lra.
    + apply Rltb_false in E. constructor; [exact IH|].
      rewrite <- insertAsc_perm. constructor; [lra | exact Hall].
Qed.

Lemma sortAsc_acc l : forall acc,
  StronglySorted Rle acc ->
  StronglySorted Rle (fold_left (fun acc x => insertAsc x acc) l acc)
  /\ Permutation (l ++ acc) (fold_left (fun acc x => insertAsc x acc) l acc).
Proof.
  induction l as [|x l IH]; intros acc Hacc; simpl; auto.
  destruct (IH (insertAsc x acc) (insertAsc_sorted x acc Hacc)) as [Hs Hp].
  split; [exact Hs|]. rewrite <- Hp, <- insertAsc_perm.
  apply Permutation_middle.
Qed.

Lemma sorted_nth_le (l : list R) : StronglySorted Rle l ->
  forall i j, (i <= j < List.length l)%nat -> nth i l 0 <= nth j l 0.
Proof.
  induction 1 as [|e r Hs IH Hall]; intros i j Hij; simpl in *; [lia|].
  destruct i as [|i], j as [|j]; try lia; try lra.
  - rewrite Forall_forall in Hall. apply Hall, nth_In. lia.
  - apply IH. lia.
Qed.

(** X20: the percentiles of finite utilities are ordered.  For any 1000
    finite utilities, the three reads of the aggregator return finite
    numbers [a <= b <= c], each one of the utilities. *)
Theorem percentiles_of_finite_utilities_are_ordered (l : list R) :
  List.length l = AGENTS_COUNT ->
  let sorted := sortBy (fun a b => (a - b)%num) (map Fin l) in
  exists a b c : R,
    readAt sorted (Math_floor ($0.25 * ofNat AGENTS_COUNT))%num = Fin a
    /\ readAt sorted (Math_floor ($0.50 * ofNat AGENTS_COUNT))%num = Fin b
    /\ readAt sorted (Math_floor ($0.75 * ofNat AGENTS_COUNT))%num = Fin c
    /\ a <= b <= c /\ In a l /\ In b l /\ In c l.
Proof.
  intros Hlen sorted. subst sorted. rewrite sortBy_Fin_asc.
  destruct (sortAsc_acc l [] (SSorted_nil _)) as [Hsorted Hperm].
  rewrite app_nil_r in Hperm. fold (sortAsc l) in Hsorted, Hperm.
  assert (Hlen' : List.length (sortAsc l) = 1000%nat).
  { rewrite <- (Permutation_length Hperm). exact Hlen. }
  assert (H25 : Q2R 0.25 * 1000 = INR 250)
    by (rewrite INR_IZR_INZ; unfold Q2R; simpl; lra).
  assert (H50 : Q2R 0.50 * 1000 = INR 500)
    by (rewrite INR_IZR_INZ; unfold Q2R; simpl; lra).
  assert (H75 : Q2R 0.75 * 1000 = INR 750)
    by (rewrite INR_IZR_INZ; unfold Q2R; simpl; lra).
  rewrite (percentile_index _ _ H25), (percentile_index _ _ H50),
    (percentile_index _ _ H75), !readAt_nat.
  assert (Hnth : forall n, (n < 1000)%nat ->
            nth n (map Fin (sortAsc l)) XNaN = Fin (nth n (sortAsc l) 0)
            /\ In (nth n (sortAsc l) 0) l).
  { intros n Hn. split.
    - rewrite (nth_indep _ _ (Fin 0)) by (rewrite length_map, Hlen'; exact Hn).
      apply (map_nth Fin).
    - apply (Permutation_in _ (Permutation_sym Hperm)).
      apply nth_In. rewrite Hlen'. exact Hn. }
  exists (nth 250 (sortAsc l) 0), (nth 500 (sortAsc l) 0), (nth 750 (sortAsc l) 0).
  split; [apply Hnth; lia|]. split; [apply Hnth; lia|]. split; [apply Hnth; lia|].
  split; [split; apply sorted_nth_le; try exact Hsorted; rewrite Hlen'; lia|].
  split; [apply Hnth; lia|]. split; apply Hnth; lia.
Qed.

Lemma percentiles_of_finite_utilities_are_ordered_witness :
  let sorted := sortBy (fun a b => (a - b)%num) (map Fin (repeat 0 AGENTS_COUNT)) in
  exists a b c : R,
    readAt sorted (Math_floor ($0.25 * ofNat AGENTS_COUNT))%num = Fin a
    /\ readAt sorted (Math_floor ($0.50 * ofNat AGENTS_COUNT))%num = Fin b
    /\ readAt sorted (Math_floor ($0.75 * ofNat AGENTS_COUNT))%num = Fin c
    /\ a <= b <= c /\ In a (repeat 0 AGENTS_COUNT) /\ In b (repeat 0 AGENTS_COUNT)
    /\ In c (repeat 0 AGENTS_COUNT).
Proof.
  apply (percentiles_of_finite_utilities_are_ordered (repeat 0 AGENTS_COUNT)).
  apply repeat_length.
Defined.

(** * Consumption *)

Lemma total_perm (l l' : list R) : Permutation l l' -> total l = total l'.
Proof.
  induction 1 as [|x l l' _ IH|x y l|l l' l'' _ IH1 _ IH2];
    unfold total in *; simpl; lra.
Qed.

Lemma total_app (l l' : list R) : total (l ++ l') = total l + total l'.
Proof. induction l as [|x l IH]; unfold total in *; simpl; lra. Qed.

Lemma map_nth_all {A : Type} (L : list A) (d : A) :
  map (fun i => nth i L d) (seq 0 (List.length L)) = L.
Proof.
  apply (nth_ext _ _ d d).
  - rewrite length_map, length_seq. reflexivity.
  - intros n Hn. rewrite length_map, length_seq in Hn.
    rewrite (nth_indep _ d (nth 0 L d)) by (rewrite length_map, length_seq; exact Hn).
    rewrite (map_nth (fun i => nth i L d)), seq_nth by exact Hn. reflexivity.
Qed.

Section Consumption.

Variables (params : ModelParams xreal) (agents : list (Agent xreal)).
Variables (numOwners : xreal) (b p q : R).
Hypothesis beta_finite : beta params = Fin b.
Hypothesis beta_regular : 1 + b <> 0.

(** One more household: the two consumption totals grow, together, by its
    income, and by the capital gain [q - p] when it owns. *)
Lemma allocate_adds_up tot i (y cy co c : R) :
  agent_y (nth i agents noAgent) = Fin y ->
  totalConsYoung tot = Fin cy -> totalConsOld tot = Fin co ->
  ownerCount tot = Fin c ->
  exists cy' co' c' : R,
    totalConsYoung (allocate params agents numOwners (Fin p) (Fin q) tot i) = Fin cy'
    /\ totalConsOld (allocate params agents numOwners (Fin p) (Fin q) tot i) = Fin co'
    /\ ownerCount (allocate params agents numOwners (Fin p) (Fin q) tot i) = Fin c'
    /\ cy' + co' - c' * (q - p) = cy + co - c * (q - p) + y.
Proof.
  intros Hy Hcy Hco Hc. unfold allocate.
  rewrite Hy, beta_finite, lit_Fin, Q2R_1, add_Fin.
  destruct (ofNat i <? numOwners)%num;
    cbn [totalConsYoung totalConsOld ownerCount]; rewrite Hcy, Hco, ?Hc.
  - rewrite sub_Fin, mul_Fin, sub_Fin, div_Fin by exact beta_regular.
    rewrite lit_Fin, Q2R_0, ltb_Fin.
    destruct (Rltb ((b * (y - p) - q) / (1 + b)) 0);
      rewrite !sub_Fin, !add_Fin; eexists _, _, _;
      (split; [reflexivity|]); (split; [reflexivity|]);
      (split; [reflexivity|]); lra.
  - rewrite mul_Fin, div_Fin, sub_Fin, !add_Fin by exact beta_regular.
    eexists _, _, _.
    split; [reflexivity|]. split; [reflexivity|]. split; [reflexivity|]. lra.
Qed.

Lemma fold_allocate_adds_up l : forall tot (cy co c : R),
  (forall i, In i l -> exists y, agent_y (nth i agents noAgent) = Fin y) ->
  totalConsYoung tot = Fin cy -> totalConsOld tot = Fin co ->
  ownerCount tot = Fin c ->
  exists cy' co' c' : R,
    totalConsYoung (fold_left (allocate params agents numOwners (Fin p) (Fin q)) l tot)
    = Fin cy'
    /\ totalConsOld (fold_left (allocate params agents numOwners (Fin p) (Fin q)) l tot)
       = Fin co'
    /\ ownerCount (fold_left (allocate params agents numOwners (Fin p) (Fin q)) l tot)
       = Fin c'
    /\ cy' + co' - c' * (q - p)
       = cy + co - c * (q - p)
         + total (map (fun i => finitePart (agent_y (nth i agents noAgent))) l).
Proof.
  induction l as [|i l IH]; intros tot cy co c Hfin Hcy Hco Hc.
  - exists cy, co, c. repeat split; try assumption. unfold total. simpl. lra.
  - destruct (Hfin i (or_introl eq_refl)) as [y Hy].
    destruct (allocate_adds_up tot i y cy co c Hy Hcy Hco Hc)
      as (cy1 & co1 & c1 & H1 & H2 & H3 & H4).
    destruct (IH _ cy1 co1 c1 (fun j Hj => Hfin j (or_intror Hj)) H1 H2 H3)
      as (cy' & co' & c' & E1 & E2 & E3 & E4).
    exists cy', co', c'. cbn [fold_left map].
    split; [exact E1|]. split; [exact E2|]. split; [exact E3|].
    rewrite E4, H4, Hy. unfold total. simpl. lra.
Qed.

End Consumption.

Lemma incomeSumOf_finite (params : ModelParams xreal) prods t (a : R) :
  A_t params t = Fin a ->
  (forall i, (i < AGENTS_COUNT)%nat -> exists x, nth i prods NaN = Fin x) ->
  incomeSumOf params prods t
  = Fin (total (map (fun i => finitePart (A_t params t * nth i prods NaN)%num)
                    (seq 0 AGENTS_COUNT))).
Proof.
  intros Ha Hx. unfold incomeSumOf. rewrite lit_Fin, Q2R_0, Ha.
  assert (H : forall l (acc : R),
             (forall i, In i l -> exists x, nth i prods NaN = Fin x) ->
             fold_left (fun s i => (s + Fin a * nth i prods NaN)%num) l (Fin acc)
             = Fin (acc + total (map (fun i => finitePart
                                         (Fin a * nth i prods NaN)%num) l))).
  { induction l as [|i l IH]; intros acc Hl.
    - unfold total. simpl. f_equal. lra.
    - destruct (Hl i (or_introl eq_refl)) as [x Ex].
      cbn [fold_left map]. rewrite Ex, mul_Fin, add_Fin.
      rewrite IH by (intros j Hj; apply Hl; right; exact Hj).
      unfold total. simpl. f_equal. lra. }
  rewrite H.
  - f_equal. lra.
  - intros i Hi. apply in_seq in Hi. apply Hx. lia.
Qed.

(** The incomes of the ranked agents are the incomes of the households, in
    another order. *)
Lemma ranked_incomes (params : ModelParams xreal) prods prices t (a : R) :
  A_t params t = Fin a ->
  (forall i, (i < AGENTS_COUNT)%nat -> exists x, nth i prods NaN = Fin x) ->
  (forall i, In i (seq 0 AGENTS_COUNT) ->
     exists y, agent_y (nth i (rankedAgents params prods prices t) noAgent) = Fin y)
  /\ total (map (fun i => finitePart
                            (agent_y (nth i (rankedAgents params prods prices t)
                                          noAgent)))
                 (seq 0 AGENTS_COUNT))
     = total (map (fun i => finitePart (A_t params t * nth i prods NaN)%num)
                  (seq 0 AGENTS_COUNT)).
Proof.
  intros Ha Hx.
  assert (Hy : forall i, (i < AGENTS_COUNT)%nat ->
            (A_t params t * nth i prods NaN)%num
            = Fin (finitePart (A_t params t * nth i prods NaN)%num)).
  { intros i Hi. destruct (Hx i Hi) as [x ->]. rewrite Ha. reflexivity. }
  set (ranked := rankedAgents params prods prices t).
  assert (Hperm : Permutation
                    (agentsOf params prods t (nth (t + 1) prices NaN)) ranked).
  { unfold ranked, rankedAgents. apply sortBy_perm. }
  assert (Hlen : List.length ranked = AGENTS_COUNT).
  { rewrite <- (Permutation_length Hperm). unfold agentsOf.
    rewrite length_map, length_seq. reflexivity. }
  clearbody ranked. split.
  - intros i Hi. apply in_seq in Hi.
    assert (Hin : In (nth i ranked noAgent)
                     (agentsOf params prods t (nth (t + 1) prices NaN))).
    { apply (Permutation_in _ (Permutation_sym Hperm)), nth_In. lia. }
    unfold agentsOf in Hin. apply in_map_iff in Hin.
    destruct Hin as (j & <- & Hj). apply in_seq in Hj.
    cbn [agent_y]. eexists. apply Hy. lia.
  - rewrite <- Hlen at 1.
    rewrite <- (map_map (fun i => nth i ranked noAgent)
                        (fun ag => finitePart (agent_y ag))).
    rewrite map_nth_all.
    rewrite <- (total_perm _ _ (Permutation_map _ Hperm)).
    unfold agentsOf. rewrite map_map. reflexivity.
Qed.

(** X21: consumption adds up.  In exact arithmetic, for a finite discount
    factor other than -1, finite productivities and finite prices of the
    period and of the next one, the mean consumption of the young and of
    the old add up to the mean income plus the capital gain of the owners:
    [avgConsumptionYoung + avgConsumptionOld
     = incomeMean + ownershipRate * (P_next - P_t)]. *)
Theorem consumption_adds_up
  (params : ModelParams xreal) (prods prices : list xreal) (t : nat)
  (b a p q : R) :
  beta params = Fin b -> 1 + b <> 0 -> A_t params t = Fin a ->
  (forall i, (i < AGENTS_COUNT)%nat -> exists x, nth i prods NaN = Fin x) ->
  nth t prices NaN = Fin p -> nth (t + 1) prices NaN = Fin q ->
  exists cy co m o : R,
    avgConsumptionYoung (generation params prods prices t) = Fin cy
    /\ avgConsumptionOld (generation params prods prices t) = Fin co
    /\ incomeMean (generation params prods prices t) = Fin m
    /\ ownershipRate (generation params prods prices t) = Fin o
    /\ cy + co = m + o * (q - p).
Proof.
  intros Hb Hreg Ha Hx Hp Hq.
  destruct (ranked_incomes params prods prices t a Ha Hx) as [Hfin Hsum].
  assert (H0 : lit (num := xreal) 0 = Fin 0) by (rewrite lit_Fin, Q2R_0; reflexivity).
  destruct (fold_allocate_adds_up params (rankedAgents params prods prices t)
              (numOwnersOf params t) b p q Hb Hreg
              (seq 0 AGENTS_COUNT) noTotals 0 0 0 Hfin H0 H0 H0)
    as (cy & co & c & E1 & E2 & E3 & E4).
  cbn [generation avgConsumptionYoung avgConsumptionOld incomeMean ownershipRate].
  unfold allocation. rewrite Hp, Hq, E1, E2, E3.
  rewrite (incomeSumOf_finite params prods t a Ha Hx).
  rewrite ofNat_Fin, INR_AGENTS_COUNT, !div_Fin by lra.
  eexists _, _, _, _.
  split; [reflexivity|]. split; [reflexivity|]. split; [reflexivity|].
  split; [reflexivity|].
  rewrite Hsum in E4. lra.
Qed.

Lemma consumption_adds_up_witness :
  exists cy co m o : R,
    avgConsumptionYoung
      (generation (num := xreal) DEFAULT_PARAMS (productivities DEFAULT_PARAMS)
         (initialPrices DEFAULT_PARAMS) 0) = Fin cy
    /\ avgConsumptionOld
         (generation (num := xreal) DEFAULT_PARAMS (productivities DEFAULT_PARAMS)
            (initialPrices DEFAULT_PARAMS) 0) = Fin co
    /\ incomeMean
         (generation (num := xreal) DEFAULT_PARAMS (productivities DEFAULT_PARAMS)
            (initialPrices DEFAULT_PARAMS) 0) = Fin m
    /\ ownershipRate
         (generation (num := xreal) DEFAULT_PARAMS (productivities DEFAULT_PARAMS)
            (initialPrices DEFAULT_PARAMS) 0) = Fin o
    /\ cy + co
       = m + o * (Q2R 2500000 * Q2R 1000 * Q2R 0.1
                  - Q2R 2500000 * Q2R 1000 * Q2R 0.1).
Proof.
  apply (consumption_adds_up DEFAULT_PARAMS (productivities DEFAULT_PARAMS)
           (initialPrices DEFAULT_PARAMS) 0 (Q2R 0.3) (Q2R 2500000 * 1)).
  - reflexivity.
  - unfold Q2R. simpl. lra.
  - reflexivity.
  - intros i Hi.
    destruct (productivities_finite_at DEFAULT_PARAMS (Q2R 0.4) i) as (x & E & _);
      [reflexivity|exact Hi|].
    exists x. exact E.
  - reflexivity.
  - reflexivity.
Defined.

(** * Incomes *)

Lemma total_pos (f : nat -> R) (l : list nat) :
  l <> [] -> (forall i, In i l -> 0 < f i) -> 0 < total (map f l).
Proof.
  intros Hne Hf. destruct l as [|i l]; [congruence|]. clear Hne.
  revert i Hf. induction l as [|j l IH]; intros i Hf.
  - unfold total. simpl. specialize (Hf i (or_introl eq_refl)). lra.
  - assert (Hi : 0 < f i) by (apply Hf; left; reflexivity).
    assert (Hrest : 0 < total (map f (j :: l)))
      by (apply IH; intros k Hk; apply Hf; right; exact Hk).
    unfold total in *. cbn [map fold_right] in *. lra.
Qed.

(** The technology level is finite and positive in every period, and so is
    the mean income. *)
Lemma A_t_positive (params : ModelParams xreal) (a0 g : R) (t : nat) :
  initialTech params = Fin a0 -> techGrowthRate params = Fin g ->
  0 < a0 -> -1 < g ->
  exists a, A_t params t = Fin a /\ 0 < a.
Proof.
  intros Ha Hg Ha0 Hg1.
  unfold A_t. rewrite Ha, Hg, lit_Fin, Q2R_1, add_Fin.
  cbn [Math_pow xreal_number]. rewrite xpow_Fin, mul_Fin.
  eexists. split; [reflexivity|].
  apply Rmult_lt_0_compat; [exact Ha0|]. apply pow_lt. lra.
Qed.

Lemma meanIncome_positive (params : ModelParams xreal) (a0 g s : R) (t : nat) :
  initialTech params = Fin a0 -> techGrowthRate params = Fin g ->
  inequality params = Fin s -> 0 < a0 -> -1 < g ->
  exists m, (incomeSumOf params (productivities params) t
             / ofNat AGENTS_COUNT)%num = Fin m /\ 0 < m.
Proof.
  intros Ha Hg Hs Ha0 Hg1.
  destruct (A_t_positive params a0 g t Ha Hg Ha0 Hg1) as (a & Ea & Hpos).
  rewrite (incomeSumOf_finite params (productivities params) t a Ea).
  - rewrite ofNat_Fin, INR_AGENTS_COUNT, div_Fin by lra.
    eexists. split; [reflexivity|].
    apply Rdiv_lt_0_compat; [|lra].
    apply total_pos; [discriminate|].
    intros i Hi. apply in_seq in Hi. rewrite Ea.
    destruct (productivities_finite_at params s i Hs ltac:(lia)) as (x & -> & Hx).
    cbn. apply Rmult_lt_0_compat; assumption.
  - intros i Hi. destruct (productivities_finite_at params s i Hs Hi) as (x & E & _).
    exists x. exact E.
Qed.

(** X22: incomes are finite and positive, in exact arithmetic.  For a
    finite positive [initialTech], a finite [techGrowthRate] above -1, a
    finite [inequality] and a finite [initialPop] that is not negative, the
    [incomeMean] of each record is a finite positive number and its
    [priceToIncome] a finite number that is not negative.  (On doubles the
    sum of the incomes can overflow: the statement is not about them.) *)
Theorem incomes_are_finite_and_positive
  (params : ModelParams xreal) (a0 g s n0 : R) :
  initialTech params = Fin a0 -> techGrowthRate params = Fin g ->
  inequality params = Fin s -> initialPop params = Fin n0 ->
  0 < a0 -> -1 < g -> 0 <= n0 ->
  Forall (fun r => exists m x : R,
                     incomeMean r = Fin m /\ 0 < m
                     /\ priceToIncome r = Fin x /\ 0 <= x)
         (simulate params).
Proof.
  intros Ha Hg Hs Hn Ha0 Hg1 Hn0.
  assert (Hmean : forall t,
            exists m, (incomeSumOf params (productivities params) t
                       / ofNat AGENTS_COUNT)%num = Fin m /\ 0 < m)
    by (intros t; apply (meanIncome_positive params a0 g s t); assumption).
  assert (Hprice : forall t, (t < SIMULATION_STEPS - 1)%nat ->
            exists p, nth t (equilibriumPrices params (productivities params)) NaN
                      = Fin p /\ 0 <= p).
  { intros t Ht.
    destruct (equilibriumPrices_bounds params (a0 * n0 * Q2R 0.1)) with (t := t)
      as (p & E & Hp & _).
    - rewrite Ha, Hn, lit_Fin, !mul_Fin. reflexivity.
    - assert (0 < Q2R 0.1) by (unfold Q2R; simpl; lra).
      apply Rmult_le_pos; [apply Rmult_le_pos|]; lra.
    - exact Ht.
    - exists p. split; [exact E|exact Hp]. }
  assert (Hrec : forall t, (t < SIMULATION_STEPS - 1)%nat ->
            exists m x : R,
              incomeMean (generation params (productivities params)
                            (equilibriumPrices params (productivities params)) t)
              = Fin m /\ 0 < m
              /\ priceToIncome (generation params (productivities params)
                                  (equilibriumPrices params (productivities params)) t)
                 = Fin x /\ 0 <= x).
  { intros t Ht. cbn [generation incomeMean priceToIncome].
    destruct (Hmean t) as (m & -> & Hm). destruct (Hprice t Ht) as (p & -> & Hp).
    exists m, (p / m). split; [reflexivity|]. split; [exact Hm|].
    split; [apply div_Fin; lra|].
    apply Rmult_le_pos; [exact Hp|]. left. apply Rinv_0_lt_compat. exact Hm. }
  rewrite simulate_eq. unfold SIMULATION_STEPS in Hrec.
  constructor; [apply Hrec; lia|]. constructor; [apply Hrec; lia|].
  constructor; [apply Hrec; lia|]. constructor.
Qed.

Lemma incomes_are_finite_and_positive_witness :
  Forall (fun r => exists m x : R,
                     incomeMean r = Fin m /\ 0 < m
                     /\ priceToIncome r = Fin x /\ 0 <= x)
         (simulate (DEFAULT_PARAMS (num := xreal))).
Proof.
  apply (incomes_are_finite_and_positive DEFAULT_PARAMS
           (Q2R 2500000) (Q2R 0.50) (Q2R 0.4) (Q2R 1000));
    try reflexivity; unfold Q2R; simpl; lra.
Defined.

(** * Bids and the next-period price *)




(** * Ownership and the stock *)

(** X24: more stock never lowers the number of owners.  For a finite
    positive population and finite stocks [h1 <= h2] in a period, the
    owners counted with the stock [h2] are at least the owners counted with
    the stock [h1], whatever the prices and the incomes are. *)
Theorem more_stock_never_fewer_owners
  (params1 params2 : ModelParams xreal) (prods1 prods2 prices1 prices2 : list xreal)
  (t : nat) (n h1 h2 : R) :
  N_t params1 t = Fin n -> N_t params2 t = Fin n ->
  H_t params1 t = Fin h1 -> H_t params2 t = Fin h2 ->
  0 < n -> h1 <= h2 ->
  exists c1 c2 : Z,
    ownerCount (allocation params1 prods1 prices1 t) = Fin (IZR c1)
    /\ ownerCount (allocation params2 prods2 prices2 t) = Fin (IZR c2)
    /\ (0 <= c1 <= c2)%Z /\ (c2 <= 1000)%Z.
Proof.
  intros HN1 HN2 HH1 HH2 Hn Hh.
  rewrite !ownerCount_allocation, lit_Fin, Q2R_0. unfold numOwnersOf.
  rewrite HN1, HN2, HH1, HH2, !housesAvailable_Fin, !countOwners_seq by lra.
  pose proof (unitsAvailable_mono h1 h2 n Hn Hh) as Hmono.
  eexists _, _. split; [reflexivity|]. split; [reflexivity|].
  unfold AGENTS_COUNT. lia.
Qed.

Lemma more_stock_never_fewer_owners_witness :
  exists c1 c2 : Z,
    ownerCount (allocation (num := xreal) noHousingParams
                  (productivities noHousingParams)
                  (initialPrices noHousingParams) 0) = Fin (IZR c1)
    /\ ownerCount (allocation (num := xreal) DEFAULT_PARAMS
                     (productivities DEFAULT_PARAMS)
                     (initialPrices DEFAULT_PARAMS) 0) = Fin (IZR c2)
    /\ (0 <= c1 <= c2)%Z /\ (c2 <= 1000)%Z.
Proof.
  apply (more_stock_never_fewer_owners noHousingParams DEFAULT_PARAMS _ _ _ _ 0
           (Q2R 1000 * 1) (Q2R 0 * 1) (Q2R 1000 * 1));
    try reflexivity; unfold Q2R; simpl; lra.
Defined.

(** * A period in which nobody owns *)

Section Renting.

Variables (params : ModelParams xreal) (agents : list (Agent xreal)).
Variables (numOwners P_t P_next : xreal) (b : R).
Hypothesis beta_finite : beta params = Fin b.
Hypothesis beta_regular : 1 + b <> 0.
Hypothesis no_unit : (numOwners >? $0)%num = false.

Lemma nobody_ranks_below (i : nat) : (ofNat i <? numOwners)%num = false.
Proof.
  rewrite ofNat_Fin. rewrite lit_Fin, Q2R_0 in no_unit.
  destruct numOwners as [k| | |]; try reflexivity; [|discriminate no_unit].
  rewrite ltb_Fin in *. apply Rltb_false in no_unit. apply Rltb_false.
  pose proof (pos_INR i). lra.
Qed.

Lemma fold_allocate_renting l : forall tot (cy co s : R),
  (forall i, In i l -> exists y, agent_y (nth i agents noAgent) = Fin y) ->
  totalConsYoung tot = Fin cy -> totalConsOld tot = Fin co ->
  cy * (1 + b) = s -> co * (1 + b) = b * s ->
  totalUtility tot = totalUtilityRenters tot ->
  ownerCount (fold_left (allocate params agents numOwners P_t P_next) l tot)
  = ownerCount tot
  /\ totalUtility (fold_left (allocate params agents numOwners P_t P_next) l tot)
     = totalUtilityRenters
         (fold_left (allocate params agents numOwners P_t P_next) l tot)
  /\ exists cy' co' : R,
       totalConsYoung (fold_left (allocate params agents numOwners P_t P_next) l tot)
       = Fin cy'
       /\ totalConsOld (fold_left (allocate params agents numOwners P_t P_next) l tot)
          = Fin co'
       /\ cy' * (1 + b)
          = s + total (map (fun i => finitePart (agent_y (nth i agents noAgent))) l)
       /\ co' * (1 + b)
          = b * (s + total (map (fun i => finitePart
                                           (agent_y (nth i agents noAgent))) l)).
Proof.
  induction l as [|i l IH]; intros tot cy co s Hfin Hcy Hco Hy Ho Hu.
  - cbn [fold_left map]. split; [reflexivity|]. split; [exact Hu|].
    exists cy, co. unfold total. simpl. repeat split; try assumption; lra.
  - destruct (Hfin i (or_introl eq_refl)) as [y Ey].
    cbn [fold_left map].
    set (tot1 := allocate params agents numOwners P_t P_next tot i).
    assert (H1 : ownerCount tot1 = ownerCount tot
                 /\ totalUtility tot1 = totalUtilityRenters tot1
                 /\ totalConsYoung tot1 = Fin (cy + (y - b * y / (1 + b)))
                 /\ totalConsOld tot1 = Fin (co + b * y / (1 + b))).
    { unfold tot1, allocate. rewrite nobody_ranks_below.
      cbn [ownerCount totalUtility totalUtilityRenters totalConsYoung totalConsOld].
      rewrite Ey, beta_finite, lit_Fin, Q2R_1, add_Fin, mul_Fin, div_Fin, sub_Fin,
        Hcy, Hco, !add_Fin, Hu by exact beta_regular.
      repeat split; reflexivity. }
    destruct H1 as (Hc1 & Hu1 & Hcy1 & Hco1).
    destruct (IH tot1 _ _ (s + y) (fun j Hj => Hfin j (or_intror Hj)) Hcy1 Hco1)
      as (Hc' & Hu' & cy' & co' & E1 & E2 & E3 & E4); try exact Hu1.
    + rewrite Rmult_plus_distr_r, Hy. field. exact beta_regular.
    + rewrite Rmult_plus_distr_r, Ho. field. exact beta_regular.
    + split; [rewrite Hc'; exact Hc1|]. split; [exact Hu'|].
      exists cy', co'. split; [exact E1|]. split; [exact E2|].
      rewrite Ey. unfold total in *. cbn [fold_right finitePart].
      split; [rewrite E3|rewrite E4]; ring.
Qed.

End Renting.

(** X25: a period in which no unit is on offer.  In exact arithmetic, for
    a finite discount factor other than -1 and finite productivities, and
    whatever the prices are: nobody owns, the mean utility of owners is
    [NaN], the mean utility of all households is the mean utility of
    renters, and the young and the old consume the shares [1 / (1 + beta)]
    and [beta / (1 + beta)] of the mean income. *)
Theorem nobody_owns_without_units
  (params : ModelParams xreal) (prods prices : list xreal) (t : nat) (b a : R) :
  (housesAvailable (H_t params t) (N_t params t) >? $0)%num = false ->
  beta params = Fin b -> 1 + b <> 0 -> A_t params t = Fin a ->
  (forall i, (i < AGENTS_COUNT)%nat -> exists x, nth i prods NaN = Fin x) ->
  ownershipRate (generation params prods prices t) = Fin 0
  /\ avgUtilityOwners (generation params prods prices t) = XNaN
  /\ avgLifetimeUtility (generation params prods prices t)
     = avgUtilityRenters (generation params prods prices t)
  /\ exists m : R,
       incomeMean (generation params prods prices t) = Fin m
       /\ avgConsumptionYoung (generation params prods prices t) = Fin (m / (1 + b))
       /\ avgConsumptionOld (generation params prods prices t)
          = Fin (b * m / (1 + b)).
Proof.
  intros Hunit Hb Hreg Ha Hx.
  destruct (ranked_incomes params prods prices t a Ha Hx) as [Hfin Hsum].
  assert (H0 : lit (num := xreal) 0 = Fin 0) by (rewrite lit_Fin, Q2R_0; reflexivity).
  destruct (fold_allocate_renting params (rankedAgents params prods prices t)
              (numOwnersOf params t) (nth t prices NaN) (nth (t + 1) prices NaN)
              b Hb Hreg Hunit (seq 0 AGENTS_COUNT) noTotals 0 0 0 Hfin H0 H0
              ltac:(lra) ltac:(lra) eq_refl)
    as (Hc & Hu & cy & co & E1 & E2 & E3 & E4).
  cbn [ownerCount noTotals] in Hc. rewrite H0 in Hc.
  rewrite Hsum, Rplus_0_l in E3, E4.
  cbn [generation ownershipRate avgUtilityOwners avgLifetimeUtility
         avgUtilityRenters incomeMean avgConsumptionYoung avgConsumptionOld].
  unfold allocation.
  rewrite Hc, Hu, E1, E2, (incomeSumOf_finite params prods t a Ha Hx).
  rewrite ofNat_Fin, INR_AGENTS_COUNT, lit_Fin, Q2R_0, sub_Fin, !ltb_Fin,
    !div_Fin by lra.
  replace (Rltb 0 0) with false by (symmetry; apply Rltb_false; lra).
  replace (Rltb 0 (1000 - 0)) with true by (symmetry; apply Rltb_true; lra).
  replace (1000 - 0) with 1000 by lra.
  split; [f_equal; lra|]. split; [reflexivity|]. split; [reflexivity|].
  eexists. split; [reflexivity|].
  split; f_equal.
  - apply (Rmult_eq_reg_r (1 + b)); [|exact Hreg].
    replace (total _ / 1000 / (1 + b) * (1 + b)) with (total
      (map (fun i => finitePart (A_t params t * nth i prods NaN)%num)
           (seq 0 AGENTS_COUNT)) / 1000) by (field; exact Hreg).
    rewrite <- E3. field.
  - apply (Rmult_eq_reg_r (1 + b)); [|exact Hreg].
    replace (b * (total _ / 1000) / (1 + b) * (1 + b)) with (b * total
      (map (fun i => finitePart (A_t params t * nth i prods NaN)%num)
           (seq 0 AGENTS_COUNT)) / 1000) by (field; exact Hreg).
    rewrite <- E4. field.
Qed.

Lemma nobody_owns_without_units_witness :
  ownershipRate (generation (num := xreal) noHousingParams
                   (productivities noHousingParams)
                   (initialPrices noHousingParams) 0) = Fin 0
  /\ avgUtilityOwners (generation (num := xreal) noHousingParams
                         (productivities noHousingParams)
                         (initialPrices noHousingParams) 0) = XNaN
  /\ avgLifetimeUtility (generation (num := xreal) noHousingParams
                           (productivities noHousingParams)
                           (initialPrices noHousingParams) 0)
     = avgUtilityRenters (generation (num := xreal) noHousingParams
                            (productivities noHousingParams)
                            (initialPrices noHousingParams) 0)
  /\ exists m : R,
       incomeMean (generation (num := xreal) noHousingParams
                     (productivities noHousingParams)
                     (initialPrices noHousingParams) 0) = Fin m
       /\ avgConsumptionYoung (generation (num := xreal) noHousingParams
                                 (productivities noHousingParams)
                                 (initialPrices noHousingParams) 0)
          = Fin (m / (1 + Q2R 0.3))
       /\ avgConsumptionOld (generation (num := xreal) noHousingParams
                               (productivities noHousingParams)
                               (initialPrices noHousingParams) 0)
          = Fin (Q2R 0.3 * m / (1 + Q2R 0.3)).
Proof.
  apply (nobody_owns_without_units noHousingParams (productivities noHousingParams)
           (initialPrices noHousingParams) 0 (Q2R 0.3) (Q2R 2500000 * 1)).
  - change (housesAvailable (H_t noHousingParams 0) (N_t noHousingParams 0))
      with (numOwnersOf (noHousingParams (num := xreal)) 0).
    rewrite numOwnersOf_noHousing, lit_Fin, Q2R_0. apply Rltb_false. lra.
  - reflexivity.
  - unfold Q2R. simpl. lra.
  - reflexivity.
  - intros i Hi.
    destruct (productivities_finite_at noHousingParams (Q2R 0.4) i) as (x & E & _);
      [reflexivity|exact Hi|].
    exists x. exact E.
Defined.

(** * The settings of the application *)

(** X26: at every setting the sliders of the application reach, each of the
    three records holds finite numbers for the population, the stock, the
    ownership rate, the house price, the mean income, the price-to-income
    ratio and the two mean consumptions.  The population, the stock and the
    mean income are positive, the price is not negative, and between 4 and
    1000 of the 1000 households own: the sliders never reach a period
    without a unit on offer among the three recorded ones. *)
Theorem slider_settings_give_finite_records
  (lo hi : R) (params : ModelParams xreal) :
  0 < lo -> hi <= 50 * lo -> withinSliders lo hi params ->
  Forall (fun r =>
            exists n h o p m x cy co : R,
              population r = Fin n /\ 0 < n
              /\ housingStock r = Fin h /\ 0 < h
              /\ ownershipRate r = Fin o /\ 4 / 1000 <= o <= 1
              /\ housePrice r = Fin p /\ 0 <= p
              /\ incomeMean r = Fin m /\ 0 < m
              /\ priceToIncome r = Fin x /\ 0 <= x
              /\ avgConsumptionYoung r = Fin cy
              /\ avgConsumptionOld r = Fin co)
         (simulate params).
Proof.
  intros Hlo Hhi
    (gn & g & gh & s & b & a0 & n0 & h0 & Egn & Eg & Egh & Es & Eb & Ea0 & En0 & Eh0
     & Hgn & Hg & Hgh & Hs & Hb & Ha0 & Hn0 & Hh0).
  set (prods := productivities params).
  set (prices := equilibriumPrices params prods).
  assert (Hprods : forall i, (i < AGENTS_COUNT)%nat ->
            exists x, nth i prods NaN = Fin x).
  { intros i Hi. destruct (productivities_finite_at params s i Es Hi) as (x & E & _).
    exists x. exact E. }
  assert (Hprice : forall t, (t < SIMULATION_STEPS - 1)%nat ->
            exists p, nth t prices NaN = Fin p /\ 0 <= p).
  { intros t Ht.
    destruct (equilibriumPrices_bounds params (a0 * n0 * Q2R 0.1)) with (t := t)
      as (p & E & Hp & _).
    - rewrite Ea0, En0, lit_Fin, !mul_Fin. reflexivity.
    - assert (0 < Q2R 0.1) by (unfold Q2R; simpl; lra).
      apply Rmult_le_pos; [apply Rmult_le_pos|]; lra.
    - exact Ht.
    - exists p. split; [exact E|exact Hp]. }
  assert (HN : forall t, N_t params t = Fin (n0 * (1 + gn) ^ t)).
  { intros t. unfold N_t. rewrite En0, Egn, lit_Fin, Q2R_1, add_Fin.
    cbn [Math_pow xreal_number]. rewrite xpow_Fin, mul_Fin. reflexivity. }
  assert (HH : forall t, H_t params t = Fin (h0 * (1 + gh) ^ t)).
  { intros t. unfold H_t. rewrite Eh0, Egh, lit_Fin, Q2R_1, add_Fin.
    cbn [Math_pow xreal_number]. rewrite xpow_Fin, mul_Fin. reflexivity. }
  assert (Hrec : forall t, (t <= 2)%nat ->
            exists n h o p m x cy co : R,
              population (generation params prods prices t) = Fin n /\ 0 < n
              /\ housingStock (generation params prods prices t) = Fin h /\ 0 < h
              /\ ownershipRate (generation params prods prices t) = Fin o
              /\ 4 / 1000 <= o <= 1
              /\ housePrice (generation params prods prices t) = Fin p /\ 0 <= p
              /\ incomeMean (generation params prods prices t) = Fin m /\ 0 < m
              /\ priceToIncome (generation params prods prices t) = Fin x /\ 0 <= x
              /\ avgConsumptionYoung (generation params prods prices t) = Fin cy
              /\ avgConsumptionOld (generation params prods prices t) = Fin co).
  { intros t Ht.
    assert (Hpn : 0 < (1 + gn) ^ t <= 4).
    { destruct t as [|[|[|t]]]; [simpl; lra|simpl; lra| |lia].
      simpl. split; nra. }
    assert (Hph : 81 / 100 <= (1 + gh) ^ t <= 4).
    { destruct t as [|[|[|t]]]; [simpl; lra|simpl; lra| |lia].
      simpl. split; nra. }
    set (n := n0 * (1 + gn) ^ t). set (h := h0 * (1 + gh) ^ t).
    assert (Hn : 0 < n) by (apply Rmult_lt_0_compat; lra).
    assert (Hh : 0 < h) by (apply Rmult_lt_0_compat; lra).
    assert (Hratio : 4 * n <= 1000 * h).
    { unfold n, h.
      apply Rle_trans with (4 * (50 * lo * 4)).
      - apply Rmult_le_compat_l; [lra|].
        apply Rmult_le_compat; lra.
      - apply Rle_trans with (1000 * (lo * (81 / 100))); [lra|].
        apply Rmult_le_compat_l; [lra|].
        apply Rmult_le_compat; lra. }
    set (k := Zfloor (Rmin 1 (h / n) * 1000)).
    assert (Hk : (4 <= k <= 1000)%Z).
    { unfold k. split.
      - apply Zfloor_lub.
        apply Rmin_case; [lra|].
        apply (Rmult_le_reg_r n); [exact Hn|].
        replace (h / n * 1000 * n) with (1000 * h) by (field; lra). lra.
      - apply le_IZR.
        apply Rle_trans with (Rmin 1 (h / n) * 1000).
        + apply Zfloor_bound.
        + pose proof (Rmin_l 1 (h / n)). lra. }
    destruct (A_t_positive params a0 g t Ea0 Eg ltac:(lra) ltac:(lra))
      as (a & Ea & _).
    destruct (meanIncome_positive params a0 g s t Ea0 Eg Es ltac:(lra) ltac:(lra))
      as (m & Em & Hm).
    fold prods in Em.
    destruct (Hprice t ltac:(unfold SIMULATION_STEPS; lia)) as (p & Ep & Hp).
    destruct (Hprice (t + 1)%nat ltac:(unfold SIMULATION_STEPS; lia))
      as (q & Eq & _).
    destruct (ranked_incomes params prods prices t a Ea Hprods) as [Hfin _].
    assert (H0 : lit (num := xreal) 0 = Fin 0)
      by (rewrite lit_Fin, Q2R_0; reflexivity).
    destruct (fold_allocate_adds_up params (rankedAgents params prods prices t)
                (numOwnersOf params t) b p q Eb ltac:(lra)
                (seq 0 AGENTS_COUNT) noTotals 0 0 0 Hfin H0 H0 H0)
      as (cy & co & c & E1 & E2 & _ & _).
    assert (Hcount : ownerCount (allocation params prods prices t) = Fin (IZR k)).
    { rewrite ownerCount_allocation, lit_Fin, Q2R_0. unfold numOwnersOf.
      rewrite HN, HH, housesAvailable_Fin by (fold n; lra).
      fold n h k. rewrite countOwners_seq. do 2 f_equal.
      unfold AGENTS_COUNT. lia. }
    exists n, h, (IZR k / 1000), p, m, (p / m), (cy / 1000), (co / 1000).
    cbn [generation population housingStock ownershipRate housePrice incomeMean
         priceToIncome avgConsumptionYoung avgConsumptionOld].
    rewrite Hcount. unfold allocation. fold prods prices.
    rewrite Ep, Eq, E1, E2, Em, ofNat_Fin, INR_AGENTS_COUNT, !div_Fin by lra.
    split; [apply HN|]. split; [exact Hn|].
    split; [apply HH|]. split; [exact Hh|].
    split; [reflexivity|].
    split.
    { destruct Hk as [Hk1 Hk2]. apply IZR_le in Hk1, Hk2. lra. }
    split; [reflexivity|]. split; [exact Hp|].
    split; [reflexivity|]. split; [exact Hm|].
    split; [reflexivity|].
    split.
    { apply Rmult_le_pos; [exact Hp|]. left. apply Rinv_0_lt_compat. exact Hm. }
    split; reflexivity. }
  rewrite simulate_eq. fold prods prices.
  constructor; [apply Hrec; lia|]. constructor; [apply Hrec; lia|].
  constructor; [apply Hrec; lia|]. constructor.
Qed.

Lemma slider_settings_give_finite_records_witness :
  Forall (fun r =>
            exists n h o p m x cy co : R,
              population r = Fin n /\ 0 < n
              /\ housingStock r = Fin h /\ 0 < h
              /\ ownershipRate r = Fin o /\ 4 / 1000 <= o <= 1
              /\ housePrice r = Fin p /\ 0 <= p
              /\ incomeMean r = Fin m /\ 0 < m
              /\ priceToIncome r = Fin x /\ 0 <= x
              /\ avgConsumptionYoung r = Fin cy
              /\ avgConsumptionOld r = Fin co)
         (simulate (DEFAULT_PARAMS (num := xreal))).
Proof.
  apply (slider_settings_give_finite_records 1000 50000 DEFAULT_PARAMS).
  - lra.
  - lra.
  - exists (Q2R 0.25), (Q2R 0.50), (Q2R 0.05), (Q2R 0.4), (Q2R 0.3),
      (Q2R 2500000), (Q2R 1000), (Q2R 1000).
    repeat (split; [reflexivity|]).
    unfold Q2R. simpl. repeat split; lra.
Defined.

(** * Where doubles part from exact arithmetic *)

Module Binary64Rounding.

Import Stdlib.Floats.Floats.
Import Binary64 Binary64Order.

Section Doubles.

Variables (log_ exp_ : float -> float) (pow_ : float -> float -> float).

Local Abbreviation F := (float64 log_ exp_ pow_).

(** The unit count is the floor of a rounded product of a rounded quotient.
    With a stock of [1000 * (1 + -0.07)] and a population of
    [1000 * (1 + 0.55)] the doubles give 600 units, and 600 owners, where
    the exact floor at the numbers these two doubles denote is 599
    ([exact_units_example]). *)
Example rounded_units_example :
  let H := (1000 * (1 + - floatOfQ 0.07))%float in
  let N_ := (1000 * (1 + floatOfQ 0.55))%float in
  (H, N_, @housesAvailable float F H N_,
   @countOwners float F (@housesAvailable float F H N_) (seq 0 AGENTS_COUNT)
     (@lit float F 0))
  = (0x1.d0fffffffffffp+9, 1550, 600, 600)%float.
Proof. vm_compute. reflexivity. Qed.

(** On doubles too, a stock of -1 for 1000 households gives -1 units and no
    owner. *)
Example negative_stock_example :
  (@numOwnersOf float F (@negativeHousingParams float F) 0,
   @countOwners float F (@numOwnersOf float F (@negativeHousingParams float F) 0)
     (seq 0 AGENTS_COUNT) (@lit float F 0))
  = (-1, 0)%float.
Proof. vm_compute. reflexivity. Qed.

End Doubles.

End Binary64Rounding.

(** * The bisection when [low + high] overflows *)

Module Binary64Overflow.

Import Stdlib.Floats.Floats.
Import Binary64 Binary64Order.

Section Doubles.

Variables (log_ exp_ : float -> float) (pow_ : float -> float -> float).

Local Abbreviation F := (float64 log_ exp_ pow_).

(** An income of 1.2e308, a next-period price of 1.2e307 and the discount
    factor 0.3, as doubles. *)
Local Abbreviation y := (0x1.55c576d815726p+1023%float).
Local Abbreviation q := (0x1.116ac579aac1fp+1020%float).
Local Abbreviation b := (floatOfQ 0.3).

(** The first guess is half the income; it is accepted or rejected by the
    comparison of the two utilities. *)
Lemma first_guess (u_rent : float) :
  @bisectStep float F b q y u_rent (0, y, 0)%float = (y / 2, y, y / 2)%float
  \/ @bisectStep float F b q y u_rent (0, y, 0)%float = (0, y / 2, 0)%float.
Proof.
  unfold bisectStep. cbv.
  match goal with
  | |- context [if ?c then _ else _] => destruct c
  end; [left|right]; reflexivity.
Qed.

(** Once half the income is accepted, [low + high] is one and a half times
    the income, which is above the largest double: every later guess is
    [Infinity], and is rejected before a logarithm is taken. *)
Lemma later_guesses (u_rent : float) :
  Nat.iter 14 (@bisectStep float F b q y u_rent) (y / 2, y, y / 2)%float
  = (y / 2, infinity, y / 2)%float.
Proof. vm_compute. reflexivity. Qed.

(** On doubles, whatever [Math.log] computes: when the household of income
    1.2e308 accepts its first guess, no other guess is accepted, and its WTP
    is half its income.  (In exact arithmetic the search goes on above the
    accepted guess.) *)
Lemma overflow_stalls_search :
  snd (@bisectStep float F b q y (@rentUtility float F b y) (0, y, 0)%float)
  = (y / 2)%float ->
  @wtpSolver float F b q y = (y / 2)%float.
Proof.
  intros H. unfold wtpSolver, bisect.
  change (Nat.iter 15 (@bisectStep float F b q y (@rentUtility float F b y))
            (@lit float F 0, y, @lit float F 0))
    with (Nat.iter 14 (@bisectStep float F b q y (@rentUtility float F b y))
            (@bisectStep float F b q y (@rentUtility float F b y) (0, y, 0)%float)).
  destruct (first_guess (@rentUtility float F b y)) as [E|E]; rewrite E in *.
  - rewrite later_guesses. reflexivity.
  - exfalso. apply (f_equal (fun x => PrimFloat.eqb x 0)) in H.
    vm_compute in H. discriminate H.
Qed.

End Doubles.

(** The premise holds for some [Math.log], for instance a constant one. *)
Lemma overflow_stalls_search_witness :
  @wtpSolver float (float64 (fun _ => 0%float) (fun _ => 0%float) (fun _ _ => 0%float))
    (floatOfQ 0.3) 0x1.116ac579aac1fp+1020%float 0x1.55c576d815726p+1023%float
  = (0x1.55c576d815726p+1023 / 2)%float.
Proof.
  apply (overflow_stalls_search (fun _ => 0%float) (fun _ => 0%float)
           (fun _ _ => 0%float)).
  vm_compute. reflexivity.
Defined.

End Binary64Overflow.

(** * The owner count on doubles *)

Module Binary64Owners.

Import Stdlib.Floats.Floats.
Import Binary64 Binary64Order.

Section Doubles.

Variables (log_ exp_ : float -> float) (pow_ : float -> float -> float).

Local Abbreviation F := (float64 log_ exp_ pow_).
Local Abbreviation rank := (@ofNat float F).

Lemma ltb_trans a b c :
  PrimFloat.ltb a b = true -> PrimFloat.ltb b c = true -> PrimFloat.ltb a c = true.
Proof.
  intros H1 H2. apply ltb_compare in H1, H2. apply ltb_compare.
  eapply SFcompare_Lt_trans; eassumption.
Qed.

Lemma ltb_nan_r a x : PrimFloat.is_nan x = true -> PrimFloat.ltb a x = false.
Proof.
  intros Hx. destruct (PrimFloat.ltb a x) eqn:E; [|reflexivity].
  apply ltb_compare in E.
  assert (Hn : PrimFloat.is_nan x <> false) by congruence.
  exfalso. apply Hn. apply is_nan_compare.
  destruct (Prim2SF a) as [sa|sa| |sa ma ea], (Prim2SF x) as [sb|sb| |sb mb eb];
    simpl in *; try discriminate; try reflexivity;
    rewrite ?Z.compare_refl, ?Pos.compare_refl; destruct sb; reflexivity.
Qed.

(** The ranks 0..1000 as doubles: each is below the next, adding 1 to one
    gives the next, and none is above 1000 or below 0. *)
Lemma ranks_checked :
  forallb (fun i => PrimFloat.ltb (rank i) (rank (S i))
                    && Leibniz.eqb (PrimFloat.add (rank i) (@lit float F 1))
                                   (rank (S i))
                    && negb (PrimFloat.ltb (rank AGENTS_COUNT) (rank (S i)))
                    && negb (PrimFloat.ltb (rank i) (rank 0)))
          (seq 0 AGENTS_COUNT) = true.
Proof. vm_compute. reflexivity. Qed.

Lemma rank_facts i :
  (i < AGENTS_COUNT)%nat ->
  PrimFloat.ltb (rank i) (rank (S i)) = true
  /\ PrimFloat.add (rank i) (@lit float F 1) = rank (S i)
  /\ PrimFloat.ltb (rank AGENTS_COUNT) (rank (S i)) = false
  /\ PrimFloat.ltb (rank i) (rank 0) = false.
Proof.
  intros Hi. pose proof ranks_checked as H.
  rewrite forallb_forall in H. specialize (H i).
  rewrite in_seq in H. specialize (H ltac:(lia)).
  rewrite !andb_true_iff, !negb_true_iff in H.
  destruct H as [[[H1 H2] H3] H4]. apply Leibniz.eqb_spec in H2.
  repeat split; assumption.
Qed.

(** A rank below the unit count has every lower rank below it. *)
Lemma ranks_below (x : float) j : forall i,
  (i <= j)%nat -> (j < AGENTS_COUNT)%nat ->
  PrimFloat.ltb (rank j) x = true -> PrimFloat.ltb (rank i) x = true.
Proof.
  induction j as [|j IH]; intros i Hi Hj H.
  - assert (i = 0)%nat as -> by lia. exact H.
  - destruct (Nat.eq_dec i (S j)) as [->|Hne]; [exact H|].
    apply IH; [lia|lia|].
    destruct (rank_facts j ltac:(lia)) as (Hlt & _).
    eapply ltb_trans; eassumption.
Qed.

Lemma countOwners_prefix (x : float) n :
  (n <= AGENTS_COUNT)%nat ->
  exists k : nat,
    (k <= n)%nat
    /\ @countOwners float F x (seq 0 n) (@lit float F 0) = rank k
    /\ forall i, (i < n)%nat -> (PrimFloat.ltb (rank i) x = true <-> (i < k)%nat).
Proof.
  induction n as [|n IH]; intros Hn.
  - exists 0%nat. split; [lia|]. split; [reflexivity|]. intros i Hi. lia.
  - destruct (IH ltac:(lia)) as (k & Hk & E & Hiff).
    rewrite seq_S. unfold countOwners in *. rewrite fold_left_app, E.
    cbn [fold_left Nat.add].
    match goal with
    | |- context [if ?c then _ else _] =>
        change c with (PrimFloat.ltb (rank n) x)
    end.
    destruct (PrimFloat.ltb (rank n) x) eqn:G.
    + assert (k = n) as ->.
      { destruct (Nat.eq_dec k n) as [|Hne]; [assumption|exfalso].
        assert (Hkn : (k < n)%nat) by lia.
        pose proof (ranks_below x n k ltac:(lia) ltac:(lia) G) as Hk'.
        apply (Hiff k Hkn) in Hk'. lia. }
      exists (S n). split; [lia|]. split.
      * destruct (rank_facts n ltac:(lia)) as (_ & Hs & _). exact Hs.
      * intros i Hi. split; [lia|]. intros _.
        apply (ranks_below x n i); [lia|lia|exact G].
    + exists k. split; [lia|]. split; [reflexivity|].
      intros i Hi. destruct (Nat.eq_dec i n) as [->|Hne].
      * rewrite G. split; [discriminate|lia].
      * apply Hiff. lia.
Qed.

(** X27: on doubles, and whatever the three [Math] functions compute: the
    owner count of a period is a whole number [k] between 0 and 1000, the number
    of ranks below the unit count [numOwners] that the aggregator computed.
    It never exceeds 1000; it is 0 when [numOwners] is negative or [NaN],
    and it is [numOwners] when that is a whole number from 0 to 1000. *)
Theorem owner_count_on_doubles
  (params : ModelParams float) (prods prices : list float) (t : nat) :
  exists k : nat,
    (k <= AGENTS_COUNT)%nat
    /\ @ownerCount float (@allocation float F params prods prices t) = rank k
    /\ PrimFloat.ltb (rank AGENTS_COUNT)
         (@ownerCount float (@allocation float F params prods prices t)) = false
    /\ (forall i, (i < AGENTS_COUNT)%nat ->
          (PrimFloat.ltb (rank i) (@numOwnersOf float F params t) = true
           <-> (i < k)%nat))
    /\ (PrimFloat.ltb (@numOwnersOf float F params t) (rank 0) = true
        \/ PrimFloat.is_nan (@numOwnersOf float F params t) = true -> k = 0%nat)
    /\ (forall m, (m <= AGENTS_COUNT)%nat ->
          @numOwnersOf float F params t = rank m -> k = m).
Proof.
  rewrite (@ownerCount_allocation float F).
  set (x := @numOwnersOf float F params t).
  destruct (countOwners_prefix x AGENTS_COUNT (le_n _)) as (k & Hk & E & Hiff).
  exists k. rewrite E. split; [exact Hk|]. split; [reflexivity|].
  split; [|split; [exact Hiff|split]].
  - destruct k as [|k]; [vm_compute; reflexivity|].
    destruct (rank_facts k ltac:(lia)) as (_ & _ & H & _). exact H.
  - intros Hx. destruct k as [|k]; [reflexivity|exfalso].
    assert (G : PrimFloat.ltb (rank 0) x = true) by (apply Hiff; unfold AGENTS_COUNT; lia).
    destruct Hx as [Hx|Hx].
    + pose proof (ltb_trans _ _ _ G Hx) as H0. vm_compute in H0. discriminate H0.
    + rewrite (ltb_nan_r _ _ Hx) in G. discriminate G.
  - intros m Hm Ex.
    assert (Hirr : forall i, (i <= AGENTS_COUNT)%nat ->
                     PrimFloat.ltb (rank i) (rank i) = false).
    { intros i Hi. destruct (PrimFloat.ltb (rank i) (rank i)) eqn:G; [|reflexivity].
      exfalso. clear - G.
      apply ltb_compare in G.
      destruct (Prim2SF (rank i)) as [s|s| |s m0 e]; simpl in G;
        try discriminate;
        rewrite ?Z.compare_refl, ?Pos.compare_refl in G; destruct s; discriminate. }
    destruct (Nat.lt_trichotomy k m) as [Hlt|[Heq|Hgt]]; [exfalso|exact Heq|exfalso].
    + (* rank k < x = rank m, so k < k *)
      assert (G : PrimFloat.ltb (rank k) x = true).
      { rewrite Ex. clear - Hlt Hm.
        induction m as [|m IH]; [lia|].
        destruct (rank_facts m ltac:(lia)) as (Hs & _).
        destruct (Nat.eq_dec k m) as [->|Hne]; [exact Hs|].
        eapply ltb_trans; [apply IH; lia|exact Hs]. }
      apply Hiff in G; [lia|lia].
    + assert (G : PrimFloat.ltb (rank m) x = true) by (apply Hiff; lia).
      rewrite Ex, Hirr in G by exact Hm. discriminate G.
Qed.

End Doubles.

End Binary64Owners.
